(** * Acetonitrile (ACN) three-site potential: ase/calculators/acn.py

    A shallow embedding of the calculator module in Rocq.

    Numbers.  The source computes with IEEE binary64 floats through numpy.
    The embedding idealises them as the real numbers [R]: every arithmetic
    operation is the exact one, [x ** 0.5] is [sqrt x], and the numpy
    remainder [x % L] is the floored remainder [x - floor (x / L) * L].
    Rounding, infinities and NaN are outside the model: a statement
    about a value the source obtains by dividing (by the width of the
    switching shell, by a cell length, by a distance between two sites)
    or by taking a root carries as hypotheses that the divisor is not
    zero and the radicand not negative; a statement that compares two
    runs of the same code needs none.

    Arrays.  A numpy array of shape (k, 3) is a [list vec3]; an array of
    shape (k, 3, 3) (molecules x sites x axes) is a [list (tri vec3)];
    a general two-dimensional array is a list of rows.  Slices such as
    [a[n::3]] are the list functions of section "numpy slices" below.

    Errors.  Python exceptions are values of [exn]; a function that can
    raise returns a [result]. *)

From Stdlib Require Import String Reals Lra Lia ZArith Bool Arith List.
Import ListNotations.

Set Implicit Arguments.
Local Open Scope R_scope.

(* ================================================================== *)
(** ** Exceptions *)

Inductive exn : Type :=
| AssertionError (msg : string)
| ValueError
| IndexError
| TypeError.

Inductive result (A : Type) : Type :=
| Ok (a : A)
| Raise (e : exn).

Arguments Ok {A} a.
Arguments Raise {A} e.

Definition bind {A B : Type} (r : result A) (k : A -> result B) : result B :=
  match r with
  | Ok a => k a
  | Raise e => Raise e
  end.

Notation "x <- r ;; k" := (bind r (fun x => k))
  (at level 61, r at next level, right associativity).
Notation "r ;;; k" := (bind r (fun _ => k))
  (at level 61, right associativity).

(** Values on which a Python [assert] can be evaluated in this module: a
    Python/numpy boolean, or a bound method object (what [arr.all] is when
    it is not called). *)
Inductive pyobj : Type :=
| PyBool (b : bool)
| PyBoundMethod (self : list bool) (name : string).

(** Python truth value: a bound method object defines neither [__bool__]
    nor [__len__], so it is always true. *)
Definition truth (v : pyobj) : bool :=
  match v with
  | PyBool b => b
  | PyBoundMethod _ _ => true
  end.

(** [assert cond, msg] *)
Definition py_assert (cond : pyobj) (msg : string) : result unit :=
  if truth cond then Ok tt else Raise (AssertionError msg).

(** [arr.all()] on a boolean array. *)
Definition ndarray_all (a : list bool) : bool := forallb (fun b => b) a.

(* ================================================================== *)
(** ** Vectors with three components *)

Record vec3 : Type := V3 { vx : R; vy : R; vz : R }.

Definition vzero : vec3 := V3 0 0 0.
Definition vadd (a b : vec3) : vec3 := V3 (vx a + vx b) (vy a + vy b) (vz a + vz b).
Definition vsub (a b : vec3) : vec3 := V3 (vx a - vx b) (vy a - vy b) (vz a - vz b).
Definition vopp (a : vec3) : vec3 := V3 (- vx a) (- vy a) (- vz a).
Definition vscale (k : R) (a : vec3) : vec3 := V3 (k * vx a) (k * vy a) (k * vz a).

(** [(a**2).sum()] over the last axis. *)
Definition sqnorm (a : vec3) : R := vx a * vx a + vy a * vy a + vz a * vz a.

(** Component [i] of a vector, [i] in 0..2 (numpy raises IndexError
    beyond; the module only ever uses 0, 1, 2). *)
Definition vget (i : nat) (a : vec3) : R :=
  match i with
  | O => vx a
  | S O => vy a
  | _ => vz a
  end.

Definition vset (i : nat) (x : R) (a : vec3) : vec3 :=
  match i with
  | O => V3 x (vy a) (vz a)
  | S O => V3 (vx a) x (vz a)
  | _ => V3 (vx a) (vy a) x
  end.

(** Sum of an array of vectors along axis 0. *)
Definition vsum (l : list vec3) : vec3 := fold_right vadd vzero l.

(** Sum of an array of numbers. *)
Definition rsum (l : list R) : R := fold_right Rplus 0 l.

(** Three values indexed by the site offset inside a molecule. *)
Record tri (A : Type) : Type := T3 { t0 : A; t1 : A; t2 : A }.

Definition tget {A} (j : nat) (t : tri A) : A :=
  match j with
  | O => t0 t
  | S O => t1 t
  | _ => t2 t
  end.

Definition tmap {A B} (f : A -> B) (t : tri A) : tri B :=
  T3 (f (t0 t)) (f (t1 t)) (f (t2 t)).

Definition tmap2 {A B C} (f : A -> B -> C) (a : tri A) (b : tri B) : tri C :=
  T3 (f (t0 a) (t0 b)) (f (t1 a) (t1 b)) (f (t2 a) (t2 b)).

Definition tlist {A} (t : tri A) : list A := [t0 t; t1 t; t2 t].

(** [t.sum()] of three numbers, and of three vectors. *)
Definition tsumR (t : tri R) : R := t0 t + t1 t + t2 t.
Definition tsumV (t : tri vec3) : vec3 := vadd (vadd (t0 t) (t1 t)) (t2 t).

(* ================================================================== *)
(** ** numpy slices *)

Section Slices.
Context {A : Type}.

(** [f(a, b)] elementwise on two arrays of one shape. *)
Fixpoint map2 {B C} (f : A -> B -> C) (a : list A) (b : list B) : list C :=
  match a, b with
  | x :: a', y :: b' => f x y :: map2 f a' b'
  | _, _ => []
  end.

(** [a[start::3]] *)
Fixpoint stride3 (start : nat) (a : list A) : list A :=
  match a with
  | [] => []
  | x :: a' =>
      match start with
      | O => x :: stride3 2 a'
      | S s => stride3 s a'
      end
  end.

(** [a[start::3] = f(a[start::3], xs)] elementwise, in place
    ([f x y = y] for a plain assignment, [vadd] for [+=]). *)
Fixpoint stride3_upd {B} (f : A -> B -> A) (start : nat) (xs : list B)
    (a : list A) : list A :=
  match a with
  | [] => []
  | x :: a' =>
      match start with
      | O =>
          match xs with
          | y :: xs' => f x y :: stride3_upd f 2 xs' a'
          | [] => x :: a'
          end
      | S s => x :: stride3_upd f s xs a'
      end
  end.

(** [a[start::3] = v] for a scalar [v]. *)
Fixpoint stride3_fill (start : nat) (v : A) (a : list A) : list A :=
  match a with
  | [] => []
  | x :: a' =>
      match start with
      | O => v :: stride3_fill 2 v a'
      | S s => x :: stride3_fill s v a'
      end
  end.

(** [a[start:] = f(a[start:], xs)] elementwise, in place. *)
Definition tail_upd {B} (f : A -> B -> A) (start : nat) (xs : list B)
    (a : list A) : list A :=
  firstn start a ++ map2 f (skipn start a) xs.

(** [a[i] = f(a[i])], in place. *)
Fixpoint upd_at (f : A -> A) (i : nat) (a : list A) : list A :=
  match a with
  | [] => []
  | x :: a' =>
      match i with
      | O => f x :: a'
      | S i' => x :: upd_at f i' a'
      end
  end.

(** [a[mask]] for a boolean mask. *)
Fixpoint compress (mask : list bool) (a : list A) : list A :=
  match mask, a with
  | b :: mask', x :: a' =>
      if b then x :: compress mask' a' else compress mask' a'
  | _, _ => []
  end.

(** [a[mask] = v] for a scalar [v]. *)
Fixpoint mask_fill (mask : list bool) (v : A) (a : list A) : list A :=
  match mask, a with
  | b :: mask', x :: a' => (if b then v else x) :: mask_fill mask' v a'
  | _, _ => a
  end.

(** [a[mask] = f(a[mask], vals)] elementwise, in place. *)
Fixpoint mask_upd {B} (f : A -> B -> A) (mask : list bool) (vals : list B)
    (a : list A) : list A :=
  match mask, a with
  | true :: mask', x :: a' =>
      match vals with
      | y :: vals' => f x y :: mask_upd f mask' vals' a'
      | [] => a
      end
  | false :: mask', x :: a' => x :: mask_upd f mask' vals a'
  | _, _ => a
  end.

(** [enumerate(a)] *)
Definition enumerate (a : list A) : list (nat * A) :=
  combine (seq 0 (length a)) a.
End Slices.

(** [R.reshape((-1, 3))] of a (k, 3, 3) array. *)
Definition flatten3 {A} (l : list (tri A)) : list A := flat_map tlist l.

(** [positions.reshape((-1, 3, 3))]: numpy raises ValueError unless the
    number of rows is a multiple of three. *)
Fixpoint reshape3 {A} (l : list A) : result (list (tri A)) :=
  match l with
  | [] => Ok []
  | a :: b :: c :: l' => r <- reshape3 l' ;; Ok (T3 a b c :: r)
  | _ => Raise ValueError
  end.

(** Comparisons of numbers as numpy booleans. *)
Definition Rltb (x y : R) : bool := if Rlt_dec x y then true else false.
Definition Rgtb (x y : R) : bool := Rltb y x.
Definition Reqb (x y : R) : bool := if Req_dec_T x y then true else false.

(** The numpy remainder of floats, [x % L]: the result has the sign of
    the divisor, [x - floor (x / L) * L].  For [L = 0] numpy gives NaN;
    the formula is the remainder for [L <> 0] only. *)
Definition npmod (x L : R) : R := x - IZR (Zfloor (x / L)) * L.

(* ================================================================== *)
(** ** What the module imports

    [ase.units] and [ase.data.atomic_masses] are not part of the files
    embedded here; their values are taken as parameters. *)

Record Env : Type := {
  Hartree : R;
  Bohr : R;
  kJ : R;
  mol : R;
  (** [atomic_masses[z]], indexed by atomic number *)
  atomic_masses : nat -> R
}.

(** The atoms container ([ase.Atoms]), reduced to what the module reads:
    per-atom number, position and initial charge, the 3x3 cell and the
    periodicity flags. *)
Record Atom : Type := {
  number : Z;
  position : vec3;
  initial_charge : R
}.

Record Atoms : Type := {
  atom_list : list Atom;
  cell : tri vec3;
  pbc : tri bool
}.

Definition numbers (a : Atoms) : list Z := map number (atom_list a).
Definition positions (a : Atoms) : list vec3 := map position (atom_list a).
Definition get_initial_charges (a : Atoms) : list R :=
  map initial_charge (atom_list a).

(** [atoms[:k]] *)
Definition atoms_prefix (k : nat) (a : Atoms) : Atoms :=
  {| atom_list := firstn k (atom_list a); cell := cell a; pbc := pbc a |}.

(** [atoms.set_initial_charges(charges)] *)
Definition set_initial_charges (charges : list R) (a : Atoms) : Atoms :=
  {| atom_list :=
       map2 (fun at_ q => {| number := number at_; position := position at_;
                             initial_charge := q |}) (atom_list a) charges;
     cell := cell a; pbc := pbc a |}.

(** [cell.diagonal()] and [np.diag(v)] *)
Definition diagonal (c : tri vec3) : vec3 :=
  V3 (vx (t0 c)) (vy (t1 c)) (vz (t2 c)).
Definition np_diag (v : vec3) : tri vec3 :=
  T3 (V3 (vx v) 0 0) (V3 0 (vy v) 0) (V3 0 0 (vz v)).

Definition veqb (a b : vec3) : list bool :=
  [Reqb (vx a) (vx b); Reqb (vy a) (vy b); Reqb (vz a) (vz b)].

(** [a == b] for two 3x3 arrays, flattened. *)
Definition mat_eqb (a b : tri vec3) : list bool :=
  veqb (t0 a) (t0 b) ++ veqb (t1 a) (t1 b) ++ veqb (t2 a) (t2 b).

(* ================================================================== *)
(** ** Module constants and free functions *)

Section Potential.
Variable env : Env.

(** Electrostatic constant *)
Definition k_c : R := Hartree env * Bohr env.

(** Force field parameters *)
Definition qMe : R := 0.206.
Definition qC : R := 0.247.
Definition qN : R := -0.453.
Definition sigmaMe : R := 3.775.
Definition sigmaC : R := 3.650.
Definition sigmaN : R := 3.200.
Definition sigma : list R := [sigmaMe; sigmaC; sigmaN].
Definition epsilonMe : R := 0.7824 * kJ env / mol env.
Definition epsilonC : R := 0.544 * kJ env / mol env.
Definition epsilonN : R := 0.6276 * kJ env / mol env.
Definition epsilon : list R := [epsilonMe; epsilonC; epsilonN].
Definition rMeC : R := 1.458.
Definition rCN : R := 1.157.
Definition rMeN : R := rMeC + rCN.

(** Variables needed to distribute the forces on C to Me and N *)
Definition CMe : R := rCN / rMeN.
Definition CN : R := rMeC / rMeN.
Definition mMe : R := atomic_masses env 6 + 3 * atomic_masses env 1.
Definition mC : R := atomic_masses env 6.
Definition mN : R := atomic_masses env 7.
Definition MCN : R := mC * mN.
Definition MMeC : R := mC * mMe.
Definition MMeN : R := mN * mMe.
Definition NMe : R := CMe / (CMe ^ 2 * MCN + CN ^ 2 * MMeC + MMeN).
Definition NN : R := CN / (CMe ^ 2 * MCN + CN ^ 2 * MMeC + MMeN).

(** [a[i]] with Python's IndexError. *)
Definition index {A} (a : list A) (i : nat) : result A :=
  match nth_error a i with
  | Some x => Ok x
  | None => Raise IndexError
  end.

(** [np.empty(n)]: an array of [n] entries of unspecified content;
    [garbage i] is whatever the memory holds at entry [i]. *)
Definition np_empty (garbage : nat -> R) (n : nat) : list R :=
  map garbage (seq 0 n).

Definition seq_msg : string := "Not the correct atoms sequence".

(** [set_acn_charges(atoms, qmidx=0)].  Both assertions test the bound
    method [.all] itself, not its result. *)
Definition set_acn_charges (garbage : nat -> R) (atoms : Atoms)
    (qmidx : nat) : result Atoms :=
  let charges := np_empty garbage (length (atom_list atoms)) in
  z <- index (numbers atoms) qmidx ;;
  let '(n, me) :=
    if Z.eqb z 7 then (qmidx, qmidx + 2)%nat else (qmidx + 2, qmidx)%nat in
  _ <- py_assert
         (PyBoundMethod (map (fun z => Z.eqb z 7) (stride3 n (numbers atoms)))
            "all") seq_msg ;;
  _ <- py_assert
         (PyBoundMethod
            (map (fun z => Z.eqb z 6) (stride3 (qmidx + 1) (numbers atoms)))
            "all") seq_msg ;;
  let charges := stride3_fill me qMe charges in
  let charges := stride3_fill (qmidx + 1) qC charges in
  let charges := stride3_fill n qN charges in
  Ok (set_initial_charges charges atoms).

(** Column [i] of a (k, 3) array, [D[:, i]], and its assignment
    [M[:, i] = vals]. *)
Definition col (i : nat) (D : list vec3) : list R := map (vget i) D.
Definition set_col (i : nat) (vals : list R) (M : list vec3) : list vec3 :=
  map2 (fun row v => vset i v row) M vals.

(** [np.zeros_like(D)] for a (k, 3) array. *)
Definition zeros_like (D : list vec3) : list vec3 := map (fun _ => vzero) D.

(** [wrap(D, cell, pbc)]: wrap distances to nearest neighbor (minimum
    image convention). *)
Definition wrap (D : list vec3) (cell : vec3) (pbc : tri bool) : list vec3 :=
  fold_left
    (fun shift (ip : nat * bool) =>
       let (i, periodic) := ip in
       if periodic then
         let d := col i D in
         let L := vget i cell in
         set_col i (map (fun di => npmod (di + L / 2) L - L / 2 - di) d) shift
       else shift)
    (enumerate (tlist pbc))
    (zeros_like D).

(** Column [i] of a two-dimensional array given by rows, and the
    assignment [M[:, i] = vals]. *)
Definition mcol (i : nat) (M : list (list R)) : list R :=
  map (fun row => nth i row 0) M.

Fixpoint row_set (i : nat) (v : R) (row : list R) : list R :=
  match row with
  | [] => []
  | x :: row' =>
      match i with
      | O => v :: row'
      | S i' => x :: row_set i' v row'
      end
  end.

Definition mset_col (i : nat) (vals : list R) (M : list (list R))
  : list (list R) :=
  map2 (fun row v => row_set i v row) M vals.

(** [np.zeros((k, k))] *)
Definition zeros2 (k : nat) : list (list R) := repeat (repeat 0 k) k.

(** [CombineLJ_lorenz_berthelot(sigma, epsilon)]: combine LJ parameters
    according to the Lorenz-Berthelot rule.  The two vectors have one
    length (numpy raises otherwise).  The root of a negative product is
    NaN in numpy: [sqrt] stands for [** 0.5] on products that are not
    negative only. *)
Definition CombineLJ_lorenz_berthelot (sigma epsilon : list R)
  : list (list R) * list (list R) :=
  fold_left
    (fun (acc : list (list R) * list (list R)) (ii : nat) =>
       let (sigma_c, epsilon_c) := acc in
       (mset_col ii (map (fun s => (nth ii sigma 0 + s) / 2) sigma) sigma_c,
        mset_col ii (map (fun e => sqrt (nth ii epsilon 0 * e)) epsilon)
          epsilon_c))
    (seq 0 (length sigma))
    (zeros2 (length sigma), zeros2 (length sigma)).

End Potential.

(* ================================================================== *)
(** ** class PointChargePotential *)

Record PointChargePotential : Type := {
  mmcharges : list R;
  mmpositions : option (list vec3);
  mmforces : option (list vec3)
}.

Module PCP.

(** [PointChargePotential(mmcharges)] *)
Definition init (mmcharges : list R) : PointChargePotential :=
  {| mmcharges := mmcharges; mmpositions := None; mmforces := None |}.

Definition set_positions (self : PointChargePotential)
    (mmpositions : list vec3) : PointChargePotential :=
  {| mmcharges := mmcharges self; mmpositions := Some mmpositions;
     mmforces := mmforces self |}.

(** numpy broadcasting of a one-dimensional array against [n] rows: the
    lengths agree, or the array has one entry, which is repeated. *)
Definition broadcast (n : nat) (a : list R) : result (list R) :=
  if Nat.eqb (length a) n then Ok a
  else match a with
       | [x] => Ok (repeat x n)
       | _ => Raise ValueError
       end.

(** The body of [for C, R, F in zip(mmcharges, mmpositions, mmforces)],
    iterated.  Returns the rows of [mmforces] as the loop leaves them and
    either the accumulated [(energy, qmforces)] or the exception. *)
Fixpoint loop (env : Env) (Cs : list R) (Rs Fs : list vec3)
    (qmcharges : list R) (qmpositions : list vec3)
    (energy : R) (qmforces : list vec3)
  : list vec3 * result (R * list vec3) :=
  match Cs, Rs, Fs with
  | C :: Cs', Rp :: Rs', F :: Fs' =>
      let d := map (fun q => vsub q Rp) qmpositions in
      let r2 := map sqnorm d in
      match broadcast (length r2) qmcharges with
      | Raise ex => (F :: Fs', Raise ex)
      | Ok qb =>
          let e :=
            map2 (fun r2i qi => Hartree env * Bohr env * C * / sqrt r2i * qi)
              r2 qb in
          let energy := energy + rsum e in
          let f := map2 (fun er di => vscale (fst er / snd er) di)
                     (combine e r2) d in
          let qmforces := map2 vadd qmforces f in
          let F := vsub F (vsum f) in
          let (Fs'', res) :=
            loop env Cs' Rs' Fs' qmcharges qmpositions energy qmforces in
          (F :: Fs'', res)
      end
  | _, _, _ => (Fs, Ok (energy, qmforces))
  end.

(** [calculate(self, qmcharges, qmpositions)], as the new state of the
    object and what the call returns or raises.  Without positions,
    [zip] raises TypeError on [None] ([mmforces] is by then the 0-d array
    [zeros_like(None)], modelled as an array without rows). *)
Definition calculate (env : Env) (self : PointChargePotential)
    (qmcharges : list R) (qmpositions : list vec3)
  : PointChargePotential * result (R * list vec3) :=
  match mmpositions self with
  | None =>
      ({| mmcharges := mmcharges self; mmpositions := None;
          mmforces := Some [] |}, Raise TypeError)
  | Some P =>
      let (F, res) :=
        loop env (mmcharges self) P (zeros_like P) qmcharges qmpositions
          0 (zeros_like qmpositions) in
      match res with
      | Ok r =>
          ({| mmcharges := mmcharges self; mmpositions := None;
              mmforces := Some F |}, Ok r)
      | Raise ex =>
          ({| mmcharges := mmcharges self; mmpositions := Some P;
              mmforces := Some F |}, Raise ex)
      end
  end.

Definition get_forces (self : PointChargePotential) : option (list vec3) :=
  mmforces self.

End PCP.

(* ================================================================== *)
(** ** class ACN *)

(** [self.results]: the two implemented properties, written together. *)
Record Results : Type := {
  energy : R;
  forces : list vec3
}.

Record ACN : Type := {
  rc : R;
  width : R;
  pcpot : option PointChargePotential;
  self_atoms : option Atoms;
  self_forces : option (list vec3);
  self_nm : option nat;
  self_n : option nat;
  self_me : option nat;
  results : option Results
}.

Module Calc.

(** [ACN(rc=5.0, width=1.0)] *)
Definition init (rc width : R) : ACN :=
  {| rc := rc; width := width; pcpot := None; self_atoms := None;
     self_forces := None; self_nm := None; self_n := None; self_me := None;
     results := None |}.

(** [embed(self, charges)]: embed atoms in point-charges. *)
Definition embed (self : ACN) (charges : list R) : ACN :=
  {| rc := rc self; width := width self;
     pcpot := Some (PCP.init charges); self_atoms := self_atoms self;
     self_forces := self_forces self; self_nm := self_nm self;
     self_n := self_n self; self_me := self_me self;
     results := results self |}.

(** [cutoff(self, d)].  With [width = 0] the source raises
    ZeroDivisionError at [6.0 / self.width]: the definition is [cutoff]
    for [width <> 0] only. *)
Definition cutoff (self : ACN) (d : list R) : list R * list R :=
  let x1 := map (fun di => Rgtb di (rc self - width self)) d in
  let x2 := map (fun di => Rltb di (rc self)) d in
  let x12 := map2 andb x1 x2 in
  let y := map (fun di => (di - rc self + width self) / width self)
             (compress x12 d) in
  let cut := repeat 0 (length d) in
  let cut := mask_fill x2 1 cut in
  let cut := mask_upd Rminus x12 (map (fun yi => yi ^ 2 * (3 - 2 * yi)) y) cut in
  let dtdd := repeat 0 (length d) in
  let dtdd :=
    mask_upd Rminus x12 (map (fun yi => 6 / width self * yi * (1 - yi)) y)
      dtdd in
  (cut, dtdd).

(** [redistribute_forces(self, n, me, f_old)], Ciccotti et al., Molecular
    Physics, 1982.  [f_old] has three rows per molecule, so the three
    strided slices have one length. *)
Definition redistribute_forces (env : Env) (n me : nat) (f_old : list vec3)
  : list vec3 :=
  let f_new := zeros_like f_old in
  let fN := stride3 n f_old in
  let fMe := stride3 me f_old in
  let fC := stride3 1 f_old in
  (* N *)
  let f_new :=
    stride3_upd (fun _ v => v) n
      (map2 vadd
         (map2 vsub
            (map (vscale (1 - NN env * MMeC env * CN)) fN)
            (map (vscale (NN env * MCN env * CMe)) fMe))
         (map (vscale (NN env * MMeN env)) fC))
      f_new in
  (* Me *)
  let f_new :=
    stride3_upd (fun _ v => v) me
      (map2 vadd
         (map2 vsub
            (map (vscale (1 - NMe env * MCN env * CMe)) fMe)
            (map (vscale (NMe env * MMeC env * CN)) fN))
         (map (vscale (NMe env * MMeN env)) fC))
      f_new in
  f_new.

(** A one-dimensional array of three entries read by site offset. *)
Definition tri_of_list (l : list R) : tri R :=
  T3 (nth 0 l 0) (nth 1 l 0) (nth 2 l 0).

(** [np.dot(cut, e)] for [cut] of shape (k,) and [e] of shape (k, 3). *)
Definition dot (cut : list R) (e : list (tri R)) : tri R :=
  T3 (rsum (map2 Rmult cut (map (@t0 R) e)))
     (rsum (map2 Rmult cut (map (@t1 R) e)))
     (rsum (map2 Rmult cut (map (@t2 R) e))).

(** [F.sum(axis=0)] for [F] of shape (k, 3, 3). *)
Definition sum_axis0 (F : list (tri vec3)) : tri vec3 :=
  T3 (vsum (map (@t0 vec3) F)) (vsum (map (@t1 vec3) F))
     (vsum (map (@t2 vec3) F)).

(** The four in-place updates of [self.forces] that follow each of the
    two interaction terms. *)
Definition accumulate (m j : nat) (F : list (tri vec3)) (Fmm : list vec3)
    (forces : list vec3) : list vec3 :=
  let forces := tail_upd vadd ((m + 1) * 3) (flatten3 F) forces in
  let forces :=
    upd_at (fun f => vsub f (tsumV (sum_axis0 F))) (m * 3 + j) forces in
  let forces := stride3_upd vadd ((m + 1) * 3 + 1) Fmm forces in
  upd_at (fun f => vsub f (vsum Fmm)) (m * 3 + 1) forces.

(** [-(e.sum(1) * dcut / d)[:, np.newaxis] * Dmm] *)
Definition cutoff_force (e : list (tri R)) (dcut d : list R)
    (Dmm : list vec3) : list vec3 :=
  map2 (fun k Dp => vscale k Dp)
    (map2 (fun ed di => - (ed / di))
       (map2 Rmult (map tsumR e) dcut) d)
    Dmm.

Definition mol0 : tri vec3 := T3 vzero vzero vzero.

(** The body of [for j in range(3)].  The divisions by [r], [r2] and
    [d] are those of the source as long as no two sites of the two
    molecules are at one place. *)
Definition site_body (env : Env) (Rm : list (tri vec3)) (charges : list R)
    (m : nat) (shift Dmm : list vec3) (cut dcut d : list R)
    (sigma_c epsilon_c : list (list R)) (st : R * list vec3) (j : nat)
  : R * list vec3 :=
  let (energy, forces) := st in
  let q := tri_of_list charges in
  let D :=
    map2 (fun mol sh => tmap (fun x => vadd (vsub x (tget j (nth m Rm mol0))) sh)
                          mol)
      (skipn (m + 1) Rm) shift in
  let r2 := map (tmap sqnorm) D in
  let r := map (tmap sqrt) r2 in
  (* Coulomb interactions *)
  let e := map (fun rp => tmap2 (fun qi ri => tget j q * qi / ri * k_c env) q rp)
             r in
  let energy := energy + tsumR (dot cut e) in
  let F :=
    map2 (fun (w : tri R) Dp => tmap2 vscale w Dp)
      (map2 (fun (er : tri R) cp => tmap (fun x => x * cp) er)
         (map2 (tmap2 Rdiv) e r2) cut)
      D in
  let Fmm := cutoff_force e dcut d Dmm in
  let forces := accumulate m j F Fmm forces in
  (* LJ interactions *)
  let sc := tri_of_list (mcol j sigma_c) in
  let ec := tri_of_list (mcol j epsilon_c) in
  let c6 := map (fun r2p => tmap2 (fun s x => (s ^ 2 / x) ^ 3) sc r2p) r2 in
  let c12 := map (tmap (fun x => x ^ 2)) c6 in
  let e :=
    map2 (fun c12p c6p =>
            tmap2 (fun eps x => 4 * eps * x) ec (tmap2 Rminus c12p c6p))
      c12 c6 in
  let energy := energy + tsumR (dot cut e) in
  let F :=
    map2 (fun (w : tri R) Dp => tmap2 vscale w Dp)
      (map2 (fun (er : tri R) cp => tmap (fun x => x * cp) er)
         (map2 (tmap2 Rdiv)
            (map2 (fun c12p c6p =>
                     tmap2 (fun eps x => 24 * eps * x) ec
                       (tmap2 (fun a b => 2 * a - b) c12p c6p))
               c12 c6)
            r2)
         cut)
      D in
  let Fmm := cutoff_force e dcut d Dmm in
  let forces := accumulate m j F Fmm forces in
  (energy, forces).

(** The body of [for m in range(nm - 1)]. *)
Definition molecule_body (env : Env) (self : ACN) (Rm : list (tri vec3))
    (cell : vec3) (pbc : tri bool) (charges : list R)
    (st : R * list vec3) (m : nat) : R * list vec3 :=
  (* distances between the carbon of molecule m and of m+1 .. nm-1 *)
  let Dmm := map (fun mol => vsub (t1 mol) (t1 (nth m Rm mol0)))
               (skipn (m + 1) Rm) in
  (* MIC PBCs *)
  let shift := wrap Dmm cell pbc in
  (* Smooth cutoff *)
  let Dmm := map2 vadd Dmm shift in
  let d2 := map sqnorm Dmm in
  let d := map sqrt d2 in
  let (cut, dcut) := cutoff self d in
  (* LJ parameters *)
  let (sigma_c, epsilon_c) :=
    CombineLJ_lorenz_berthelot sigma (epsilon env) in
  fold_left
    (site_body env Rm charges m shift Dmm cut dcut d sigma_c epsilon_c)
    (seq 0 3) st.

(** The pair loop of [calculate]: energy and [self.forces] as they stand
    before the point charges and the redistribution. *)
Definition pair_loop (env : Env) (self : ACN) (Rm : list (tri vec3))
    (cell : vec3) (pbc : tri bool) (charges : list R) : R * list vec3 :=
  let nm := length Rm in
  fold_left (molecule_body env self Rm cell pbc charges)
    (seq 0 (nm - 1))
    (0, repeat vzero (3 * nm)).

(** [calculate] up to and including the point-charge contribution: the
    orderings [n] and [me], the energy, the accumulated [self.forces], and
    the point-charge object after its call.  [Calculator.calculate] of the
    base class stores a copy of [atoms] in [self.atoms]. *)
Definition unconstrained (env : Env) (self : ACN) (atoms : Atoms)
  : result (nat * nat * R * list vec3 * option PointChargePotential) :=
  Rm <- reshape3 (positions atoms) ;;
  let Zs := numbers atoms in
  let pbc := pbc atoms in
  let atoms_cell := cell atoms in
  let cell := diagonal atoms_cell in
  let nm := length Rm in
  _ <- py_assert
         (PyBool (ndarray_all (mat_eqb atoms_cell (np_diag cell))))
         "not orthorhombic" ;;
  z0 <- index Zs 0 ;;
  let (n, me) := if Z.eqb z0 7 then (0, 2)%nat else (2, 0)%nat in
  _ <- py_assert
         (PyBool (ndarray_all (map (fun z => Z.eqb z 7) (stride3 n Zs))))
         seq_msg ;;
  _ <- py_assert
         (PyBoundMethod (map (fun z => Z.eqb z 6) (stride3 1 Zs)) "all")
         seq_msg ;;
  let charges := get_initial_charges (atoms_prefix 3 atoms) in
  let (energy, forces) := pair_loop env self Rm cell pbc charges in
  match pcpot self with
  | Some pc =>
      let (pc', res) :=
        PCP.calculate env pc (concat (repeat charges nm)) (positions atoms) in
      ef <- res ;;
      let (e, f) := ef in
      Ok (n, me, energy + e, map2 vadd forces f, Some pc')
  | None => Ok (n, me, energy, forces, None)
  end.

(** [calculate(self, atoms)]: the calculator after the call, or the
    exception raised. *)
Definition calculate (env : Env) (self : ACN) (atoms : Atoms) : result ACN :=
  u <- unconstrained env self atoms ;;
  let '(n, me, energy, forces, pc) := u in
  let f_new := redistribute_forces env n me forces in
  Ok {| rc := rc self; width := width self; pcpot := pc;
        self_atoms := Some atoms; self_forces := Some f_new;
        self_nm := Some (length (positions atoms) / 3)%nat;
        self_n := Some n; self_me := Some me;
        results := Some {| energy := energy; forces := f_new |} |}.

(** [check_state(self, atoms, tol)]; [system_changes] is the list that
    [Calculator.check_state] of the base class returns for [atoms] (the
    base class is not part of this module). *)
Definition check_state (self : ACN) (system_changes : list string)
  : list string :=
  match pcpot self with
  | Some pc =>
      match mmpositions pc with
      | Some _ => system_changes ++ ["positions"%string]
      | None => system_changes
      end
  | None => system_changes
  end.

End Calc.

(* ================================================================== *)
(** ** Vocabulary of the statements

    Nothing below is part of the module: these are the entry-by-entry
    readings of the array code, the notion of a valid snapshot, and the
    sample inputs at which statements are evaluated. *)

(** The weight and the derivative [cutoff] computes for one distance. *)
Definition cut1 (self : ACN) (d : R) : R :=
  if Rltb d (rc self) then
    if Rgtb d (rc self - width self) then
      let y := (d - rc self + width self) / width self in
      1 - y ^ 2 * (3 - 2 * y)
    else 1
  else 0.

Definition dcut1 (self : ACN) (d : R) : R :=
  if Rgtb d (rc self - width self) && Rltb d (rc self) then
    let y := (d - rc self + width self) / width self in
    0 - 6 / width self * y * (1 - y)
  else 0.

(** The correction [wrap] computes along one periodic axis, and for one
    row. *)
Definition correction (d L : R) : R := npmod (d + L / 2) L - L / 2 - d.

Definition wrap_row (cell : vec3) (pbc : tri bool) (row : vec3) : vec3 :=
  V3 (if t0 pbc then correction (vx row) (vx cell) else 0)
     (if t1 pbc then correction (vy row) (vy cell) else 0)
     (if t2 pbc then correction (vz row) (vz cell) else 0).

(** Entry [(i, j)] of a two-dimensional array given by rows. *)
Definition entry (M : list (list R)) (i j : nat) : R := nth j (nth i M []) 0.

(** [M] has [k] rows of [k] entries. *)
Definition square (k : nat) (M : list (list R)) : Prop :=
  length M = k /\ Forall (fun row => length row = k) M.

(** The two permitted orderings, by atomic number: nitrogen 7, carbon 6,
    and the methyl group, a united atom carried by a carbon. *)
Definition NCMe : tri Z := T3 7%Z 6%Z 6%Z.
Definition MeCN : tri Z := T3 6%Z 6%Z 7%Z.

(** Correct atom sequence: NCMeNCMe ... NCMe or MeCNMeCN ... MeCN, for
    at least one molecule. *)
Definition valid_sequence (Zs : list Z) : Prop :=
  exists k, (0 < k)%nat /\
    (Zs = flatten3 (repeat NCMe k) \/ Zs = flatten3 (repeat MeCN k)).

(** The cell is axis-aligned. *)
Definition orthorhombic (c : tri vec3) : Prop := c = np_diag (diagonal c).

Definition valid_snapshot (a : Atoms) : Prop :=
  valid_sequence (numbers a) /\ orthorhombic (cell a).

(** The masses of the three sites are positive. *)
Definition positive_masses (env : Env) : Prop :=
  0 < atomic_masses env 1 /\ 0 < atomic_masses env 6 /\
  0 < atomic_masses env 7.

(** The two rows [redistribute_forces] writes for one molecule, from its
    three unconstrained forces. *)
Definition new_N (env : Env) (fN fC fMe : vec3) : vec3 :=
  vadd (vsub (vscale (1 - NN env * MMeC env * CN) fN)
             (vscale (NN env * MCN env * CMe) fMe))
       (vscale (NN env * MMeN env) fC).

Definition new_Me (env : Env) (fN fC fMe : vec3) : vec3 :=
  vadd (vsub (vscale (1 - NMe env * MCN env * CMe) fMe)
             (vscale (NMe env * MMeC env * CN) fN))
       (vscale (NMe env * MMeN env) fC).

(** The forces of one molecule after redistribution, in the ordering
    N, C, Me ([n = 0]) and in the ordering Me, C, N ([n = 2]). *)
Definition redistributed (env : Env) (n : nat) (f : tri vec3) : tri vec3 :=
  match n with
  | O => T3 (new_N env (t0 f) (t1 f) (t2 f)) vzero
            (new_Me env (t0 f) (t1 f) (t2 f))
  | _ => T3 (new_Me env (t2 f) (t1 f) (t0 f)) vzero
            (new_N env (t2 f) (t1 f) (t0 f))
  end.

(** The weights with which the unconstrained forces on N, C and Me enter
    the sum of the redistributed forces of a molecule. *)
Definition coef_N (env : Env) : R := 1 - (NN env + NMe env) * MMeC env * CN.
Definition coef_C (env : Env) : R := (NN env + NMe env) * MMeN env.
Definition coef_Me (env : Env) : R := 1 - (NN env + NMe env) * MCN env * CMe.

(** The weight of site offset [i] in the ordering N, C, Me. *)
Definition coef (env : Env) (i : nat) : R :=
  match i with
  | O => coef_N env
  | S O => coef_C env
  | _ => coef_Me env
  end.

(** The Lennard-Jones factor that multiplies the displacement: see the
    second [F] of the site loop. *)
Definition lj_factor (eps s r2 cut : R) : R :=
  24 * eps * (2 * ((s ^ 2 / r2) ^ 3) ^ 2 - (s ^ 2 / r2) ^ 3) / r2 * cut.

(** For two uncharged molecules [A] and [B]: the x component that round
    [j] of the site loop adds to the total of the redistributed forces. *)
Definition site_increment (env : Env) (A B : tri vec3) (sh : vec3) (cv : R)
    (sigma_c epsilon_c : list (list R)) (j : nat) : R :=
  let w i :=
    lj_factor (nth i (mcol j epsilon_c) 0) (nth i (mcol j sigma_c) 0)
      (sqnorm (vadd (vsub (tget i B) (tget j A)) sh)) cv in
  (coef env 0 - coef env j) * (w 0%nat * vx (vadd (vsub (t0 B) (tget j A)) sh))
  + (coef env 1 - coef env j) * (w 1%nat * vx (vadd (vsub (t1 B) (tget j A)) sh))
  + (coef env 2 - coef env j) * (w 2%nat * vx (vadd (vsub (t2 B) (tget j A)) sh)).

(** Sample values of what the module imports: the units of [ase.units]
    (CODATA 2014, rounded) and the standard atomic weights of hydrogen,
    carbon and nitrogen. *)
Definition ase_env : Env :=
  {| Hartree := 27.211386;
     Bohr := 0.52917721;
     kJ := 1000 / 1.6021766208e-19;
     mol := 6.022140857e23;
     atomic_masses := fun z =>
       match z with
       | 1%nat => 1.008
       | 6%nat => 12.011
       | 7%nat => 14.007
       | _ => 0
       end |}.

(** A snapshot with oxygen where the carbon of the triplet should be. *)
Definition wrong_carbon : Atoms :=
  {| atom_list :=
       [ {| number := 7; position := V3 0 0 0; initial_charge := 0 |};
         {| number := 8; position := V3 1.157 0 0; initial_charge := 0 |};
         {| number := 6; position := V3 2.615 0 0; initial_charge := 0 |} ];
     cell := T3 vzero vzero vzero;
     pbc := T3 false false false |}.

(** A snapshot without any nitrogen. *)
Definition no_nitrogen : Atoms :=
  {| atom_list :=
       [ {| number := 6; position := V3 0 0 0; initial_charge := 0 |};
         {| number := 8; position := V3 1.157 0 0; initial_charge := 0 |};
         {| number := 6; position := V3 2.615 0 0; initial_charge := 0 |} ];
     cell := T3 vzero vzero vzero;
     pbc := T3 false false false |}.

(** One molecule with the charges of the force field. *)
Definition one_molecule : Atoms :=
  {| atom_list :=
       [ {| number := 7; position := V3 0 0 0; initial_charge := qN |};
         {| number := 6; position := V3 1.157 0 0; initial_charge := qC |};
         {| number := 6; position := V3 2.615 0 0; initial_charge := qMe |} ];
     cell := T3 vzero vzero vzero;
     pbc := T3 false false false |}.

(** Two molecules; the charges of the second one are free. *)
Definition two_molecules (q3 q4 q5 : R) : Atoms :=
  {| atom_list :=
       [ {| number := 7; position := V3 0 0 0; initial_charge := qN |};
         {| number := 6; position := V3 1.157 0 0; initial_charge := qC |};
         {| number := 6; position := V3 2.615 0 0; initial_charge := qMe |};
         {| number := 7; position := V3 0 6 0; initial_charge := q3 |};
         {| number := 6; position := V3 1.157 6 0; initial_charge := q4 |};
         {| number := 6; position := V3 2.615 6 0; initial_charge := q5 |} ];
     cell := T3 vzero vzero vzero;
     pbc := T3 false false false |}.

Definition molA : tri vec3 := T3 (V3 0 0 0) (V3 1.157 0 0) (V3 2.615 0 0).
Definition molB : tri vec3 :=
  T3 (V3 0 4.5 0) (V3 1.157 4.5 0) (V3 2.615 4.5 0).

(** Two molecules in the ordering N, C, Me, both along x, the second one
    4.5 length units from the first along y; no initial charges, no
    periodicity. *)
Definition uncharged_pair : Atoms :=
  {| atom_list :=
       [ {| number := 7; position := t0 molA; initial_charge := 0 |};
         {| number := 6; position := t1 molA; initial_charge := 0 |};
         {| number := 6; position := t2 molA; initial_charge := 0 |};
         {| number := 7; position := t0 molB; initial_charge := 0 |};
         {| number := 6; position := t1 molB; initial_charge := 0 |};
         {| number := 6; position := t2 molB; initial_charge := 0 |} ];
     cell := T3 vzero vzero vzero;
     pbc := T3 false false false |}.

(** The distances between the carbon of molecule [m] and the carbons of
    the later molecules, as the pair loop computes them (minimum image
    applied). *)
Definition carbon_distances (Rm : list (tri vec3)) (cell : vec3)
    (pbc : tri bool) (m : nat) : list R :=
  let Dmm := map (fun mol => vsub (t1 mol) (t1 (nth m Rm Calc.mol0)))
               (skipn (m + 1) Rm) in
  map sqrt (map sqnorm (map2 vadd Dmm (wrap Dmm cell pbc))).

(** The snapshot with every atom moved by [t]. *)
Definition translate (t : vec3) (a : Atoms) : Atoms :=
  {| atom_list :=
       map (fun at_ => {| number := number at_;
                          position := vadd (position at_) t;
                          initial_charge := initial_charge at_ |})
         (atom_list a);
     cell := cell a; pbc := pbc a |}.

(** [embed] returns the very object it stores in [self.pcpot]: what a
    call of [set_positions] on that handle does to the calculator. *)
Definition handle_set_positions (self : ACN) (mmpositions : list vec3) : ACN :=
  {| rc := rc self; width := width self;
     pcpot := option_map (fun pc => PCP.set_positions pc mmpositions)
                (pcpot self);
     self_atoms := self_atoms self; self_forces := self_forces self;
     self_nm := self_nm self; self_n := self_n self; self_me := self_me self;
     results := results self |}.

(** The molecules of a snapshot moved by [t]. *)
Definition shifted (t : vec3) (Rm : list (tri vec3)) : list (tri vec3) :=
  map (tmap (fun x => vadd x t)) Rm.

(** The energy of one pair of sites at squared distance [r2]: site
    offset [j] of the reference molecule, site offset [i] of the partner.
    Coulomb with the charges [q] of the first triplet, Lennard-Jones with
    the combined parameters of the offsets [j] and [i]. *)
Definition site_pair_energy (env : Env) (q : tri R) (j i : nat) (r2 : R) : R :=
  tget j q * tget i q / sqrt r2 * k_c env
  + 4 * sqrt (nth j (epsilon env) 0 * nth i (epsilon env) 0)
    * (((((nth j sigma 0 + nth i sigma 0) / 2) ^ 2 / r2) ^ 3) ^ 2
       - (((nth j sigma 0 + nth i sigma 0) / 2) ^ 2 / r2) ^ 3).

(** The nine site pairs of two molecules [A] and [B], the partner moved
    by [sh]. *)
Definition pair_energy (env : Env) (q : tri R) (A B : tri vec3) (sh : vec3)
  : R :=
  rsum (map (fun j =>
         rsum (map (fun i =>
                site_pair_energy env q j i
                  (sqnorm (vadd (vsub (tget i B) (tget j A)) sh)))
              (seq 0 3)))
       (seq 0 3)).

(** The energy of the molecules [A] and [B]: the minimum-image shift and
    the switching weight are those of the two carbons. *)
Definition molecule_pair_energy (env : Env) (self : ACN) (cell : vec3)
    (pbc : tri bool) (q : tri R) (A B : tri vec3) : R :=
  let sh := wrap_row cell pbc (vsub (t1 B) (t1 A)) in
  cut1 self (sqrt (sqnorm (vadd (vsub (t1 B) (t1 A)) sh)))
  * pair_energy env q A B sh.

(** The sum over the pairs [m < m']. *)
Definition total_energy (env : Env) (self : ACN) (cell : vec3)
    (pbc : tri bool) (q : tri R) (Rm : list (tri vec3)) : R :=
  rsum (map (fun m =>
         rsum (map (molecule_pair_energy env self cell pbc q
                      (nth m Rm Calc.mol0))
                 (skipn (m + 1) Rm)))
       (seq 0 (length Rm - 1))).

(** The energy [site_body] adds for site offset [j] of molecule [m], with
    the parameter matrices it is given. *)
Definition site_energy (env : Env) (q : tri R)
    (sigma_c epsilon_c : list (list R)) (j : nat) (A B : tri vec3)
    (sh : vec3) : R :=
  let r2 := tmap sqnorm (tmap (fun x => vadd (vsub x (tget j A)) sh) B) in
  tsumR (tmap2 (fun qi ri => tget j q * qi / ri * k_c env) q (tmap sqrt r2))
  + tsumR (tmap2 (fun eps x => 4 * eps * x)
             (Calc.tri_of_list (mcol j epsilon_c))
             (tmap2 Rminus
                (tmap (fun x => x ^ 2)
                   (tmap2 (fun s x => (s ^ 2 / x) ^ 3)
                      (Calc.tri_of_list (mcol j sigma_c)) r2))
                (tmap2 (fun s x => (s ^ 2 / x) ^ 3)
                   (Calc.tri_of_list (mcol j sigma_c)) r2))).

(** The pair of [uncharged_pair] in the ordering Me, C, N: the same
    positions, the species read from the other end. *)
Definition relabelled_pair : Atoms :=
  {| atom_list :=
       [ {| number := 6; position := t0 molA; initial_charge := 0 |};
         {| number := 6; position := t1 molA; initial_charge := 0 |};
         {| number := 7; position := t2 molA; initial_charge := 0 |};
         {| number := 6; position := t0 molB; initial_charge := 0 |};
         {| number := 6; position := t1 molB; initial_charge := 0 |};
         {| number := 7; position := t2 molB; initial_charge := 0 |} ];
     cell := T3 vzero vzero vzero;
     pbc := T3 false false false |}.

(** No cell length along a periodic axis is zero: [wrap] takes the
    remainder by these lengths. *)
Definition nonzero_periodic_lengths (cell : vec3) (pbc : tri bool) : Prop :=
  forall i, (i < 3)%nat -> tget i pbc = true -> vget i cell <> 0.

(** No site of a molecule is at the place of a site of a later one, the
    minimum-image correction of the two carbons applied: none of the
    distances the pair loop divides by is zero. *)
Definition distinct_sites (Rm : list (tri vec3)) (cell : vec3)
    (pbc : tri bool) : Prop :=
  forall m m' j i, (m < m' < length Rm)%nat -> (j < 3)%nat -> (i < 3)%nat ->
    vadd (vsub (tget i (nth m' Rm Calc.mol0)) (tget j (nth m Rm Calc.mol0)))
      (wrap_row cell pbc
         (vsub (t1 (nth m' Rm Calc.mol0)) (t1 (nth m Rm Calc.mol0))))
    <> vzero.

(* ================================================================== *)
(** * Lemmas and theorems *)

(* ================================================================== *)
(** ** Vector and comparison lemmas *)

Lemma vec3_eq (a b : vec3) :
  vx a = vx b -> vy a = vy b -> vz a = vz b -> a = b.
Proof. destruct a, b; simpl; intros; subst; reflexivity. Qed.

Ltac vec := apply vec3_eq; simpl; try ring.

Lemma Reqb_refl x : Reqb x x = true.
Proof. unfold Reqb; destruct (Req_dec_T x x); congruence. Qed.

Lemma Reqb_true x y : Reqb x y = true <-> x = y.
Proof. unfold Reqb; destruct (Req_dec_T x y); split; congruence. Qed.

Lemma Rltb_true x y : Rltb x y = true <-> x < y.
Proof. unfold Rltb; destruct (Rlt_dec x y); split; intros; try easy. Qed.

Lemma Rltb_false x y : Rltb x y = false <-> y <= x.
Proof. unfold Rltb; destruct (Rlt_dec x y); split; intros; try easy; lra. Qed.

Lemma vadd_zero_r a : vadd a vzero = a.
Proof. vec. Qed.

Lemma vadd_zero_l a : vadd vzero a = a.
Proof. vec. Qed.

Lemma vadd_comm a b : vadd a b = vadd b a.
Proof. vec. Qed.

Lemma vadd_assoc a b c : vadd (vadd a b) c = vadd a (vadd b c).
Proof. vec. Qed.

Lemma vscale_zero k : vscale k vzero = vzero.
Proof. vec. Qed.

(* ================================================================== *)
(** ** The switching function, entry by entry *)

Lemma cutoff_map (self : ACN) (d : list R) :
  Calc.cutoff self d = (map (cut1 self) d, map (dcut1 self) d).
Proof.
  unfold Calc.cutoff. f_equal.
  - induction d as [|a d IH]; [reflexivity|].
    cbn [map map2 compress mask_fill mask_upd repeat length].
    unfold cut1 at 1.
    destruct (Rgtb a (rc self - width self)), (Rltb a (rc self));
      cbn [map map2 compress mask_fill mask_upd repeat length andb];
      rewrite IH; f_equal; ring.
  - induction d as [|a d IH]; [reflexivity|].
    cbn [map map2 compress mask_fill mask_upd repeat length].
    unfold dcut1 at 1.
    destruct (Rgtb a (rc self - width self)), (Rltb a (rc self));
      cbn [map map2 compress mask_fill mask_upd repeat length andb];
      rewrite IH; reflexivity.
Qed.

Lemma smoothstep_range (y : R) :
  0 <= y <= 1 -> 0 <= 1 - y ^ 2 * (3 - 2 * y) <= 1.
Proof.
  intros [H0 H1]. simpl.
  assert (0 <= y * y) by nra.
  assert (y * y <= 1) by nra.
  assert (0 <= (1 - y) * (1 - y) * (1 + 2 * y)).
  { apply Rmult_le_pos; nra. }
  split; nra.
Qed.

Lemma shell_coordinate (rc w d : R) :
  0 < w -> rc - w < d < rc -> 0 < (d - rc + w) / w < 1.
Proof.
  intros Hw [H1 H2]. split.
  - apply Rdiv_lt_0_compat; lra.
  - apply Rmult_lt_reg_r with w; [lra|].
    unfold Rdiv. rewrite Rmult_assoc, Rinv_l by lra. lra.
Qed.

(** C4. For a cutoff radius [rc] and a width [w] with [rc > w > 0], and an
    array [d] of distances, [cutoff] returns two arrays of the length of
    [d]; entry by entry the weight and the derivative are 0 and 0 when
    [d >= rc], 1 and 0 when [d <= rc - w], and in between, with
    [y = (d - rc + w) / w] (which lies strictly between 0 and 1), the
    weight is [1 - y^2 (3 - 2 y)], a number of [0, 1], and the derivative
    is [- (6 / w) y (1 - y)].  At the two boundaries [rc - w] and [rc] the
    weights are 1 and 0 and both derivatives are 0. *)
Theorem cutoff_piecewise (self : ACN) (d : list R) :
  0 < width self < rc self ->
  length (fst (Calc.cutoff self d)) = length d /\
  length (snd (Calc.cutoff self d)) = length d /\
  (forall i di, nth_error d i = Some di ->
     exists c dc,
       nth_error (fst (Calc.cutoff self d)) i = Some c /\
       nth_error (snd (Calc.cutoff self d)) i = Some dc /\
       (rc self <= di -> c = 0 /\ dc = 0) /\
       (di <= rc self - width self -> c = 1 /\ dc = 0) /\
       (rc self - width self < di < rc self ->
          let y := (di - rc self + width self) / width self in
          0 < y < 1 /\
          c = 1 - y ^ 2 * (3 - 2 * y) /\
          0 <= c <= 1 /\
          dc = - (6 / width self) * y * (1 - y))) /\
  Calc.cutoff self [rc self - width self; rc self] = ([1; 0], [0; 0]).
Proof.
  intros [Hw Hrc]. rewrite !cutoff_map. simpl fst; simpl snd.
  rewrite !length_map. repeat split.
  - intros i di Hi.
    exists (cut1 self di), (dcut1 self di).
    rewrite !nth_error_map, Hi. simpl option_map.
    repeat split; unfold cut1, dcut1, Rgtb.
    + assert (E : Rltb di (rc self) = false) by (apply Rltb_false; lra).
      rewrite E. reflexivity.
    + assert (E : Rltb di (rc self) = false) by (apply Rltb_false; lra).
      rewrite E, andb_false_r. reflexivity.
    + assert (E1 : Rltb di (rc self) = true) by (apply Rltb_true; lra).
      assert (E2 : Rltb (rc self - width self) di = false)
        by (apply Rltb_false; lra).
      rewrite E1, E2. reflexivity.
    + assert (E2 : Rltb (rc self - width self) di = false)
        by (apply Rltb_false; lra).
      rewrite E2. reflexivity.
    + apply shell_coordinate; assumption.
    + apply shell_coordinate; assumption.
    + assert (E1 : Rltb di (rc self) = true) by (apply Rltb_true; lra).
      assert (E2 : Rltb (rc self - width self) di = true)
        by (apply Rltb_true; lra).
      rewrite E1, E2. reflexivity.
    + assert (E1 : Rltb di (rc self) = true) by (apply Rltb_true; lra).
      assert (E2 : Rltb (rc self - width self) di = true)
        by (apply Rltb_true; lra).
      rewrite E1, E2.
      apply smoothstep_range.
      pose proof (shell_coordinate Hw H) as Hy. lra.
    + assert (E1 : Rltb di (rc self) = true) by (apply Rltb_true; lra).
      assert (E2 : Rltb (rc self - width self) di = true)
        by (apply Rltb_true; lra).
      rewrite E1, E2.
      apply smoothstep_range.
      pose proof (shell_coordinate Hw H) as Hy. lra.
    + assert (E1 : Rltb di (rc self) = true) by (apply Rltb_true; lra).
      assert (E2 : Rltb (rc self - width self) di = true)
        by (apply Rltb_true; lra).
      rewrite E1, E2. cbn [andb]. cbv zeta iota. ring.
  - simpl map. unfold cut1, dcut1, Rgtb.
    assert (E1 : Rltb (rc self - width self) (rc self) = true)
      by (apply Rltb_true; lra).
    assert (E2 : Rltb (rc self - width self) (rc self - width self) = false)
      by (apply Rltb_false; lra).
    assert (E3 : Rltb (rc self) (rc self) = false)
      by (apply Rltb_false; lra).
    rewrite E1, E2, E3. cbn [andb]. reflexivity.
Qed.

Lemma cutoff_piecewise_witness :
  let self := Calc.init 5 1 in
  0 < width self < rc self /\
  Calc.cutoff self [rc self - width self; rc self] = ([1; 0], [0; 0]).
Proof.
  split.
  - simpl. lra.
  - apply (cutoff_piecewise (Calc.init 5 1) [4.5]). simpl. lra.
Defined.

(* ================================================================== *)
(** ** Minimum-image wrap, row by row *)

Lemma set_col_map (i : nat) (f : R -> R) (g : vec3 -> vec3) (D : list vec3) :
  set_col i (map f (col i D)) (map g D)
  = map (fun row => vset i (f (vget i row)) (g row)) D.
Proof.
  unfold set_col, col.
  induction D as [|a D IH]; simpl; [reflexivity|].
  f_equal. exact IH.
Qed.

Lemma wrap_rows (D : list vec3) (cell : vec3) (pbc : tri bool) :
  wrap D cell pbc = map (wrap_row cell pbc) D.
Proof.
  unfold wrap, enumerate, tlist, zeros_like.
  cbn [length seq combine fold_left].
  destruct pbc as [p0 p1 p2]; cbn [t0 t1 t2].
  destruct p0, p1, p2; rewrite ?set_col_map;
    apply map_ext; intros row; unfold wrap_row, correction; reflexivity.
Qed.

Lemma npmod_range (x L : R) : 0 < L -> 0 <= npmod x L < L.
Proof.
  intros HL. unfold npmod.
  destruct (Zfloor_bound (x / L)) as [H1 H2].
  assert (E : x = x / L * L) by (field; lra).
  split.
  - assert (IZR (Zfloor (x / L)) * L <= x / L * L)
      by (apply Rmult_le_compat_r; lra).
    lra.
  - assert (x / L * L < (IZR (Zfloor (x / L)) + 1) * L)
      by (apply Rmult_lt_compat_r; lra).
    lra.
Qed.

Lemma correction_range (d L : R) :
  0 < L -> Rabs (d + correction d L) <= L / 2.
Proof.
  intros HL. unfold correction.
  pose proof (npmod_range (d + L / 2) HL) as [H1 H2].
  apply Rabs_le. lra.
Qed.

(** C5. For every array [D] of displacement vectors (of any length),
    cell lengths that are positive along the periodic axes, and
    periodicity flags, [wrap] returns one correction per displacement;
    along each periodic axis it is [((d + L/2) mod L) - L/2 - d] and the
    wrapped value [d + correction] has magnitude at most [L/2]; along
    each non-periodic axis it is 0.  ([wrap] is a function of its
    arguments: it returns a fresh array and changes no state.) *)
Theorem wrap_minimum_image (D : list vec3) (cell : vec3) (pbc : tri bool) :
  (forall i, (i < 3)%nat -> tget i pbc = true -> 0 < vget i cell) ->
  length (wrap D cell pbc) = length D /\
  forall r row, nth_error D r = Some row ->
    exists s, nth_error (wrap D cell pbc) r = Some s /\
      forall i, (i < 3)%nat ->
        (tget i pbc = true ->
           vget i s
           = npmod (vget i row + vget i cell / 2) (vget i cell)
             - vget i cell / 2 - vget i row /\
           Rabs (vget i row + vget i s) <= vget i cell / 2) /\
        (tget i pbc = false -> vget i s = 0).
Proof.
  intros Hpos. rewrite wrap_rows. split; [apply length_map|].
  intros r row Hr. exists (wrap_row cell pbc row).
  rewrite nth_error_map, Hr. split; [reflexivity|].
  intros i Hi.
  destruct i as [|[|[|i]]]; [| | |lia];
    (split; intros Hp; cbn [tget] in Hp; unfold wrap_row; cbn [vget vx vy vz];
     rewrite Hp;
     [ split; [reflexivity|];
       apply correction_range; apply (Hpos _ Hi); exact Hp
     | reflexivity ]).
Qed.

Lemma wrap_minimum_image_witness :
  length (wrap [V3 3 0 (-7); V3 (-1) 4 2] (V3 4 4 0) (T3 true false false))
  = 2%nat.
Proof.
  apply (@wrap_minimum_image [V3 3 0 (-7); V3 (-1) 4 2] (V3 4 4 0)
           (T3 true false false)).
  intros i Hi Hp.
  destruct i as [|[|[|i]]]; simpl in Hp; try discriminate; simpl; lra.
Defined.

(** At a displacement of exactly half a cell the corrections of [d] and
    of [- d] are [- L] and [0]: both wrap to [- L/2]. *)
Lemma correction_half_cell :
  correction 1 2 = -2 /\ correction (-1) 2 = 0.
Proof.
  unfold correction, npmod. split.
  - replace ((1 + 2 / 2) / 2) with (IZR 1) by lra.
    rewrite ZfloorZ. lra.
  - replace ((-1 + 2 / 2) / 2) with (IZR 0) by lra.
    rewrite ZfloorZ. lra.
Qed.

(** C6, refuted as stated: in a periodic cell of length 2 the corrections
    of the displacements [(1, 0, 0)] and [(-1, 0, 0)] are [(-2, 0, 0)] and
    [(0, 0, 0)], which are not negatives of each other. *)
Lemma wrap_neg_half_cell :
  wrap [V3 1 0 0] (V3 2 2 2) (T3 true false false) = [V3 (-2) 0 0] /\
  wrap (map vopp [V3 1 0 0]) (V3 2 2 2) (T3 true false false) = [V3 0 0 0] /\
  wrap (map vopp [V3 1 0 0]) (V3 2 2 2) (T3 true false false)
  <> map vopp (wrap [V3 1 0 0] (V3 2 2 2) (T3 true false false)).
Proof.
  destruct correction_half_cell as [E1 E2].
  assert (W1 : wrap [V3 1 0 0] (V3 2 2 2) (T3 true false false)
               = [V3 (-2) 0 0]).
  { rewrite wrap_rows. cbn [map]; unfold wrap_row; cbn [t0 t1 t2 vx vy vz].
    rewrite E1. reflexivity. }
  assert (W2 : wrap (map vopp [V3 1 0 0]) (V3 2 2 2) (T3 true false false)
               = [V3 0 0 0]).
  { rewrite wrap_rows. cbn [map]; unfold wrap_row, vopp; cbn [t0 t1 t2 vx vy vz].
    replace (- (1)) with (-1) by lra.
    rewrite E2. reflexivity. }
  repeat split; [exact W1 | exact W2 |].
  rewrite W1, W2. cbn [map vopp vx vy vz].
  intros H. injection H as Hx _ _. lra.
Qed.

Lemma Zfloor_one_minus (u : R) :
  IZR (Zfloor u) <> u -> Zfloor (1 - u) = (- Zfloor u)%Z.
Proof.
  intros Hn. destruct (Zfloor_bound u) as [H1 H2].
  apply Zfloor_eq. rewrite opp_IZR. lra.
Qed.

Lemma correction_neg (d L : R) :
  L <> 0 ->
  (forall k : Z, d <> IZR (2 * k + 1) * (L / 2)) ->
  correction (- d) L = - correction d L.
Proof.
  intros HL Hodd. unfold correction, npmod.
  replace ((- d + L / 2) / L) with (1 - (d + L / 2) / L) by (field; exact HL).
  rewrite Zfloor_one_minus.
  - rewrite opp_IZR. lra.
  - intros E. apply (Hodd (Zfloor ((d + L / 2) / L) - 1)%Z).
    rewrite plus_IZR, mult_IZR, minus_IZR, E. field. exact HL.
Qed.

Lemma correction_neg_odd (d L : R) (k : Z) :
  L <> 0 ->
  d = IZR (2 * k + 1) * (L / 2) ->
  correction (- d) L = - correction d L - L.
Proof.
  intros HL E. unfold correction, npmod.
  assert (E1 : (d + L / 2) / L = IZR (k + 1)).
  { rewrite E, !plus_IZR, mult_IZR. field. exact HL. }
  assert (E2 : (- d + L / 2) / L = IZR (- k)).
  { rewrite E, opp_IZR, !plus_IZR, mult_IZR. field. exact HL. }
  rewrite E1, E2, !ZfloorZ.
  rewrite E, opp_IZR, !plus_IZR, mult_IZR. lra.
Qed.

(** C6, amended.  For every array [D], cell and flags, row by row and
    along every periodic axis with a nonzero cell length [L]: when the
    displacement [d] is not an odd multiple of [L/2], the corrections of
    [D] and of [-D] are exact negatives; when it is one, they add up to
    [- L] instead.  Along a non-periodic axis both are 0. *)
Theorem wrap_neg (D : list vec3) (cell : vec3) (pbc : tri bool)
    (r : nat) (row : vec3) :
  nth_error D r = Some row ->
  exists s s',
    nth_error (wrap D cell pbc) r = Some s /\
    nth_error (wrap (map vopp D) cell pbc) r = Some s' /\
    forall i, (i < 3)%nat ->
      (tget i pbc = true -> vget i cell <> 0 ->
         ((forall k : Z, vget i row <> IZR (2 * k + 1) * (vget i cell / 2)) ->
            vget i s' = - vget i s) /\
         (forall k : Z, vget i row = IZR (2 * k + 1) * (vget i cell / 2) ->
            vget i s' = - vget i s - vget i cell)) /\
      (tget i pbc = false -> vget i s' = 0 /\ vget i s = 0).
Proof.
  intros Hr.
  exists (wrap_row cell pbc row), (wrap_row cell pbc (vopp row)).
  rewrite !wrap_rows, !nth_error_map, Hr. cbn [option_map].
  split; [reflexivity|]. split; [reflexivity|].
  intros i Hi.
  destruct i as [|[|[|i]]]; [| | |lia];
    (split; intros Hp; cbn [tget] in Hp;
     unfold wrap_row, vopp; cbn [vget vx vy vz] in *; rewrite Hp;
     [ intros HL; split;
       [ intros Hodd; apply correction_neg; assumption
       | intros k Hk; apply correction_neg_odd with k; assumption ]
     | split; reflexivity ]).
Qed.

Lemma wrap_neg_witness :
  exists s s',
    nth_error (wrap [V3 1 0 0] (V3 4 4 4) (T3 true false false)) 0 = Some s /\
    nth_error (wrap (map vopp [V3 1 0 0]) (V3 4 4 4) (T3 true false false)) 0
    = Some s' /\
    vget 0 s' = - vget 0 s.
Proof.
  destruct (@wrap_neg [V3 1 0 0] (V3 4 4 4) (T3 true false false) 0%nat
              (V3 1 0 0) eq_refl) as (s & s' & H1 & H2 & H3).
  exists s, s'. split; [exact H1|]. split; [exact H2|].
  apply (H3 0%nat); [lia | reflexivity | simpl; lra |].
  intros k. cbn [vget vx].
  intros E.
  assert (E' : IZR (2 * k + 1) = IZR 0 + / 2) by lra.
  rewrite plus_IZR, mult_IZR in E'.
  assert (H : IZR (4 * k + 1) = 0).
  { rewrite plus_IZR, mult_IZR. lra. }
  apply eq_IZR in H. lia.
Defined.

(* ================================================================== *)
(** ** Lorenz-Berthelot combination *)

Lemma row_set_length i v row : length (row_set i v row) = length row.
Proof.
  revert i; induction row as [|x row IH]; intros [|i]; simpl; auto.
Qed.

Lemma row_set_nth i v row j :
  (i < length row)%nat ->
  nth j (row_set i v row) 0 = if Nat.eqb j i then v else nth j row 0.
Proof.
  revert i j; induction row as [|x row IH]; intros i j Hi; simpl in Hi; [lia|].
  destruct i as [|i], j as [|j]; simpl; try reflexivity.
  apply IH. lia.
Qed.

Lemma map2_length {A B C} (f : A -> B -> C) (a : list A) (b : list B) :
  length (map2 f a b) = Nat.min (length a) (length b).
Proof.
  revert b; induction a as [|x a IH]; intros [|y b]; simpl; auto.
Qed.

Lemma map2_nth_error {A B C} (f : A -> B -> C) (a : list A) (b : list B)
    (i : nat) (x : A) (y : B) :
  nth_error a i = Some x -> nth_error b i = Some y ->
  nth_error (map2 f a b) i = Some (f x y).
Proof.
  revert b i; induction a as [|x0 a IH]; intros [|y0 b] [|i]; simpl;
    try discriminate.
  - intros [= ->] [= ->]. reflexivity.
  - apply IH.
Qed.

Lemma mset_col_rows w c vals M :
  Forall (fun row => length row = w) M ->
  Forall (fun row => length row = w) (mset_col c vals M).
Proof.
  unfold mset_col. intros HF.
  revert vals; induction HF as [|row M Hrow HF IH]; intros [|v vals]; simpl;
    constructor.
  - rewrite row_set_length. exact Hrow.
  - apply IH.
Qed.

Lemma mset_col_square k c vals M :
  square k M -> length vals = k -> square k (mset_col c vals M).
Proof.
  intros [HL HF] Hv. split.
  - unfold mset_col. rewrite map2_length. lia.
  - apply mset_col_rows. exact HF.
Qed.

Lemma nth_nth_error {A} (l : list A) (i : nat) (d : A) :
  (i < length l)%nat -> nth_error l i = Some (nth i l d).
Proof.
  revert i; induction l as [|x l IH]; intros [|i] H; simpl in *;
    try lia; auto.
  apply IH. lia.
Qed.

Lemma mset_col_entry k c vals M i j :
  square k M -> length vals = k -> (i < k)%nat -> (c < k)%nat ->
  entry (mset_col c vals M) i j
  = if Nat.eqb j c then nth i vals 0 else entry M i j.
Proof.
  intros [HL HF] Hv Hi Hc. unfold entry, mset_col.
  assert (Hrow : nth_error M i = Some (nth i M [])).
  { apply nth_nth_error. lia. }
  assert (Hval : nth_error vals i = Some (nth i vals 0)).
  { apply nth_nth_error. lia. }
  pose proof (map2_nth_error (fun row v => row_set c v row) _ _ _ Hrow Hval)
    as E.
  rewrite (nth_error_nth _ _ _ E).
  apply row_set_nth.
  rewrite Forall_forall in HF.
  rewrite (HF (nth i M [])); [exact Hc|].
  apply nth_In. lia.
Qed.

Lemma zeros2_square k : square k (zeros2 k).
Proof.
  unfold square, zeros2. split; [apply repeat_length|].
  apply Forall_forall. intros row H. apply repeat_spec in H. subst.
  apply repeat_length.
Qed.

(** The loop of [CombineLJ_lorenz_berthelot] over a list of column
    indices: afterwards the visited columns hold the combined values and
    the others are untouched. *)
Lemma combine_loop (f g : nat -> list R) k (cols : list nat)
    (M1 M2 : list (list R)) :
  (forall c, length (f c) = k) -> (forall c, length (g c) = k) ->
  square k M1 -> square k M2 ->
  Forall (fun c => (c < k)%nat) cols ->
  let res :=
    fold_left
      (fun (acc : list (list R) * list (list R)) (ii : nat) =>
         let (sigma_c, epsilon_c) := acc in
         (mset_col ii (f ii) sigma_c, mset_col ii (g ii) epsilon_c))
      cols (M1, M2) in
  square k (fst res) /\ square k (snd res) /\
  forall i j, (i < k)%nat ->
    entry (fst res) i j = (if existsb (Nat.eqb j) cols then nth i (f j) 0
                           else entry M1 i j) /\
    entry (snd res) i j = (if existsb (Nat.eqb j) cols then nth i (g j) 0
                           else entry M2 i j).
Proof.
  intros Hf Hg. revert M1 M2.
  induction cols as [|c cols IH]; intros M1 M2 H1 H2 Hcols; cbn zeta.
  - simpl. auto.
  - inversion Hcols as [|? ? Hc Hcols']; subst.
    cbn [fold_left].
    specialize (IH (mset_col c (f c) M1) (mset_col c (g c) M2)
                  (@mset_col_square k c (f c) M1 H1 (Hf c))
                  (@mset_col_square k c (g c) M2 H2 (Hg c)) Hcols').
    cbn zeta in IH. destruct IH as (IH1 & IH2 & IH3).
    split; [exact IH1|]. split; [exact IH2|].
    intros i j Hi. destruct (IH3 i j Hi) as [I1 I2].
    rewrite I1, I2. cbn [existsb].
    rewrite (@mset_col_entry k c (f c) M1 i j H1 (Hf c) Hi Hc).
    rewrite (@mset_col_entry k c (g c) M2 i j H2 (Hg c) Hi Hc).
    destruct (existsb (Nat.eqb j) cols) eqn:Ex.
    + rewrite orb_true_r. auto.
    + rewrite orb_false_r.
      destruct (Nat.eqb j c) eqn:Ejc; [|auto].
      apply Nat.eqb_eq in Ejc. subst. auto.
Qed.

Lemma nth_map_lt (f : R -> R) (l : list R) (i : nat) :
  (i < length l)%nat -> nth i (map f l) 0 = f (nth i l 0).
Proof.
  intros H. rewrite (nth_indep _ 0 (f 0)) by (rewrite length_map; exact H).
  apply map_nth.
Qed.

Lemma existsb_seq j k : (j < k)%nat -> existsb (Nat.eqb j) (seq 0 k) = true.
Proof.
  intros H. apply existsb_exists. exists j. split.
  - apply in_seq. lia.
  - apply Nat.eqb_refl.
Qed.

(** C7. For per-species vectors [sigma] and [epsilon] of one length [k],
    no product [epsilon_i * epsilon_j] being negative,
    [CombineLJ_lorenz_berthelot] returns two arrays of [k] rows of [k]
    entries with [sigma_c[i,j] = (sigma_i + sigma_j) / 2] and
    [epsilon_c[i,j] = sqrt (epsilon_i * epsilon_j)] for all [i, j < k];
    both arrays are symmetric. *)
Theorem CombineLJ_entries (sigma epsilon : list R) (k : nat) :
  length sigma = k -> length epsilon = k ->
  (forall i j, (i < k)%nat -> (j < k)%nat ->
     0 <= nth i epsilon 0 * nth j epsilon 0) ->
  let sigma_c := fst (CombineLJ_lorenz_berthelot sigma epsilon) in
  let epsilon_c := snd (CombineLJ_lorenz_berthelot sigma epsilon) in
  square k sigma_c /\ square k epsilon_c /\
  forall i j, (i < k)%nat -> (j < k)%nat ->
    entry sigma_c i j = (nth i sigma 0 + nth j sigma 0) / 2 /\
    entry epsilon_c i j = sqrt (nth i epsilon 0 * nth j epsilon 0) /\
    entry sigma_c i j = entry sigma_c j i /\
    entry epsilon_c i j = entry epsilon_c j i.
Proof.
  intros Hs He _. cbn zeta. unfold CombineLJ_lorenz_berthelot. rewrite Hs.
  pose proof (@combine_loop
                (fun ii => map (fun s => (nth ii sigma 0 + s) / 2) sigma)
                (fun ii => map (fun e => sqrt (nth ii epsilon 0 * e)) epsilon)
                k (seq 0 k) (zeros2 k) (zeros2 k)) as L.
  cbn zeta in L.
  destruct L as (L1 & L2 & L3).
  - intros c. rewrite length_map. exact Hs.
  - intros c. rewrite length_map. exact He.
  - apply zeros2_square.
  - apply zeros2_square.
  - apply Forall_forall. intros c Hc. apply in_seq in Hc. lia.
  - split; [exact L1|]. split; [exact L2|].
    assert (Hent : forall i j, (i < k)%nat -> (j < k)%nat ->
      entry (fst (fold_left
        (fun (acc : list (list R) * list (list R)) (ii : nat) =>
           let (sigma_c, epsilon_c) := acc in
           (mset_col ii (map (fun s => (nth ii sigma 0 + s) / 2) sigma) sigma_c,
            mset_col ii (map (fun e => sqrt (nth ii epsilon 0 * e)) epsilon)
              epsilon_c)) (seq 0 k) (zeros2 k, zeros2 k))) i j
      = (nth i sigma 0 + nth j sigma 0) / 2 /\
      entry (snd (fold_left
        (fun (acc : list (list R) * list (list R)) (ii : nat) =>
           let (sigma_c, epsilon_c) := acc in
           (mset_col ii (map (fun s => (nth ii sigma 0 + s) / 2) sigma) sigma_c,
            mset_col ii (map (fun e => sqrt (nth ii epsilon 0 * e)) epsilon)
              epsilon_c)) (seq 0 k) (zeros2 k, zeros2 k))) i j
      = sqrt (nth i epsilon 0 * nth j epsilon 0)).
    { intros i j Hi Hj. destruct (L3 i j Hi) as [E1 E2].
      rewrite E1, E2, (existsb_seq Hj).
      rewrite !nth_map_lt by lia.
      split; [lra|]. f_equal. ring. }
    intros i j Hi Hj.
    destruct (Hent i j Hi Hj) as [A1 A2].
    destruct (Hent j i Hj Hi) as [B1 B2].
    repeat split.
    + exact A1.
    + exact A2.
    + rewrite A1, B1. lra.
    + rewrite A2, B2. f_equal. ring.
Qed.

Lemma CombineLJ_entries_witness :
  entry (fst (CombineLJ_lorenz_berthelot [3; 5] [4; 9])) 0 1 = (3 + 5) / 2 /\
  entry (snd (CombineLJ_lorenz_berthelot [3; 5] [4; 9])) 0 1 = sqrt (4 * 9).
Proof.
  destruct (@CombineLJ_entries [3; 5] [4; 9] 2 eq_refl eq_refl)
    as (_ & _ & H).
  { intros [|[|i]] [|[|j]] Hi Hj; simpl; first [lra | lia]. }
  destruct (H 0%nat 1%nat) as (H1 & H2 & _); [lia | lia |].
  split; [exact H1 | exact H2].
Defined.

(* ================================================================== *)
(** ** The point-charge potential *)

Lemma pcp_loop_returns env Cs Rs Fs qc qp e0 f0 :
  length qc = length qp ->
  exists r, snd (PCP.loop env Cs Rs Fs qc qp e0 f0) = Ok r.
Proof.
  intros Hlen.
  revert Rs Fs e0 f0; induction Cs as [|C Cs IH]; intros Rs Fs e0 f0.
  - simpl. eauto.
  - destruct Rs as [|Rp Rs]; [simpl; eauto|].
    destruct Fs as [|F Fs]; [simpl; eauto|].
    cbn [PCP.loop]. unfold PCP.broadcast.
    rewrite !length_map.
    rewrite (proj2 (Nat.eqb_eq _ _) Hlen).
    match goal with
    | |- context [PCP.loop env Cs Rs Fs qc qp ?e ?f] =>
        destruct (IH Rs Fs e f) as [r Hr];
        destruct (PCP.loop env Cs Rs Fs qc qp e f) as [Fs'' res]
    end.
    simpl in *. eauto.
Qed.

(** C9. For a point-charge potential whose positions have been set, one
    call of [calculate] with as many charges as positions returns an
    energy and forces, and leaves the object with its position buffer
    cleared ([None]) and its charges unchanged; a second call without
    [set_positions] in between raises instead of reusing the positions.
    More generally every call that returns leaves the buffer cleared,
    and no call changes the charges. *)
Theorem pcp_calculate_clears_positions (env : Env)
    (self : PointChargePotential) (P : list vec3)
    (qmcharges : list R) (qmpositions : list vec3) :
  mmpositions self = Some P ->
  length qmcharges = length qmpositions ->
  let self' := fst (PCP.calculate env self qmcharges qmpositions) in
  (exists e f,
     snd (PCP.calculate env self qmcharges qmpositions) = Ok (e, f)) /\
  mmpositions self' = None /\
  mmcharges self' = mmcharges self /\
  (forall qc qp, snd (PCP.calculate env self' qc qp) = Raise TypeError) /\
  (forall s qc qp r,
     snd (PCP.calculate env s qc qp) = Ok r ->
     mmpositions (fst (PCP.calculate env s qc qp)) = None) /\
  (forall s qc qp,
     mmcharges (fst (PCP.calculate env s qc qp)) = mmcharges s).
Proof.
  intros HP Hlen. cbn zeta.
  assert (Hclear : forall s qc qp r,
            snd (PCP.calculate env s qc qp) = Ok r ->
            mmpositions (fst (PCP.calculate env s qc qp)) = None).
  { intros s qc qp r. unfold PCP.calculate.
    destruct (mmpositions s) as [P'|]; [|discriminate].
    destruct (PCP.loop env (mmcharges s) P' (zeros_like P') qc qp 0
                (zeros_like qp)) as [F [r'|ex]]; simpl; [auto|discriminate]. }
  assert (Hch : forall s qc qp,
            mmcharges (fst (PCP.calculate env s qc qp)) = mmcharges s).
  { intros s qc qp. unfold PCP.calculate.
    destruct (mmpositions s) as [P'|]; [|reflexivity].
    destruct (PCP.loop env (mmcharges s) P' (zeros_like P') qc qp 0
                (zeros_like qp)) as [F [r'|ex]]; reflexivity. }
  assert (Hret : exists e f,
            snd (PCP.calculate env self qmcharges qmpositions) = Ok (e, f)).
  { unfold PCP.calculate. rewrite HP.
    destruct (@pcp_loop_returns env (mmcharges self) P (zeros_like P)
                qmcharges qmpositions 0 (zeros_like qmpositions) Hlen)
      as [[e f] Hr].
    destruct (PCP.loop env (mmcharges self) P (zeros_like P) qmcharges
                qmpositions 0 (zeros_like qmpositions)) as [F res].
    simpl in Hr. subst res. simpl. eauto. }
  destruct Hret as (e & f & Hret).
  pose proof (Hclear _ _ _ _ Hret) as Hnone.
  split; [eauto|]. split; [exact Hnone|]. split; [apply Hch|].
  split; [|split; [exact Hclear | exact Hch]].
  intros qc qp. unfold PCP.calculate at 1. rewrite Hnone. reflexivity.
Qed.

Lemma pcp_calculate_clears_positions_witness :
  let self := PCP.set_positions (PCP.init [1; -1]) [V3 0 0 3; V3 0 3 0] in
  mmpositions
    (fst (PCP.calculate (Build_Env 1 1 1 1 (fun _ => 1)) self
            [0.5; 0.25] [V3 0 0 0; V3 1 0 0])) = None.
Proof.
  apply (@pcp_calculate_clears_positions (Build_Env 1 1 1 1 (fun _ => 1))
           (PCP.set_positions (PCP.init [1; -1]) [V3 0 0 3; V3 0 3 0])
           [V3 0 0 3; V3 0 3 0] [0.5; 0.25] [V3 0 0 0; V3 1 0 0]
           eq_refl eq_refl).
Defined.

(* ================================================================== *)
(** ** Snapshots *)

Lemma stride3_flatten3 {A} (l : list (tri A)) :
  stride3 0 (flatten3 l) = map (@t0 A) l /\
  stride3 1 (flatten3 l) = map (@t1 A) l /\
  stride3 2 (flatten3 l) = map (@t2 A) l.
Proof.
  induction l as [|t l (I0 & I1 & I2)]; simpl; [auto|].
  rewrite I0, I1, I2. auto.
Qed.

Lemma flatten3_length {A} (l : list (tri A)) :
  length (flatten3 l) = (3 * length l)%nat.
Proof. induction l as [|t l IH]; simpl; [reflexivity|]. rewrite IH. lia. Qed.

Lemma reshape3_flatten3 {A} (l : list (tri A)) :
  reshape3 (flatten3 l) = Ok l.
Proof.
  induction l as [|[a b c] l IH]; simpl; [reflexivity|].
  rewrite IH. reflexivity.
Qed.

Lemma reshape3_inv {A} (l : list A) (Rm : list (tri A)) :
  reshape3 l = Ok Rm -> l = flatten3 Rm.
Proof.
  revert l; induction Rm as [|t Rm IH]; intros l;
    destruct l as [|a [|b [|c l]]]; simpl; try discriminate.
  - reflexivity.
  - destruct (reshape3 l); simpl; discriminate.
  - destruct (reshape3 l) as [r|] eqn:E; simpl; [|discriminate].
    intros [= <- <-]. simpl. rewrite (IH l E). reflexivity.
Qed.

Lemma reshape3_multiple {A} (l : list A) (k : nat) :
  length l = (3 * k)%nat ->
  exists Rm, reshape3 l = Ok Rm /\ length Rm = k /\ l = flatten3 Rm.
Proof.
  revert l; induction k as [|k IH]; intros l H.
  - destruct l; [|simpl in H; lia]. exists []. auto.
  - destruct l as [|a [|b [|c l]]]; simpl in H; try lia.
    destruct (IH l) as (Rm & E & HL & HF); [lia|].
    exists (T3 a b c :: Rm). simpl. rewrite E. simpl.
    repeat split; [lia|]. rewrite HF at 1. reflexivity.
Qed.

Lemma orthorhombic_check (c : tri vec3) :
  orthorhombic c ->
  ndarray_all (mat_eqb c (np_diag (diagonal c))) = true.
Proof.
  unfold orthorhombic. intros <-. unfold mat_eqb, veqb. simpl.
  rewrite !Reqb_refl. reflexivity.
Qed.

Lemma all_eq_repeat (z : Z) (k : nat) :
  ndarray_all (map (fun x => Z.eqb x z) (repeat z k)) = true.
Proof.
  induction k as [|k IH]; simpl; [reflexivity|].
  rewrite Z.eqb_refl. exact IH.
Qed.

(** What the three checks of [calculate] come to on a valid sequence. *)
Lemma valid_sequence_checks (Zs : list Z) :
  valid_sequence Zs ->
  exists z0 n me,
    index Zs 0 = Ok z0 /\
    (if Z.eqb z0 7 then (0, 2)%nat else (2, 0)%nat) = (n, me) /\
    ((n = 0 /\ me = 2) \/ (n = 2 /\ me = 0))%nat /\
    ndarray_all (map (fun z => Z.eqb z 7) (stride3 n Zs)) = true.
Proof.
  intros (k & Hk & [E|E]); subst Zs.
  - exists 7%Z, 0%nat, 2%nat.
    destruct k as [|k]; [lia|]. repeat split; auto.
    destruct (stride3_flatten3 (repeat NCMe (S k))) as (-> & _ & _).
    rewrite map_repeat. apply all_eq_repeat.
  - exists 6%Z, 2%nat, 0%nat.
    destruct k as [|k]; [lia|]. repeat split; auto.
    destruct (stride3_flatten3 (repeat MeCN (S k))) as (_ & _ & ->).
    rewrite map_repeat. apply all_eq_repeat.
Qed.

Lemma positions_length a : length (positions a) = length (numbers a).
Proof. unfold positions, numbers. rewrite !length_map. reflexivity. Qed.

Lemma prefix_charges (k : nat) (a : Atoms) :
  get_initial_charges (atoms_prefix k a) = firstn k (get_initial_charges a).
Proof. unfold get_initial_charges, atoms_prefix. simpl. symmetry. apply firstn_map. Qed.

(** On a valid snapshot without point charges, [calculate] passes its
    checks and reaches the redistribution with the result of the pair
    loop. *)
Lemma unconstrained_valid (env : Env) (self : ACN) (atoms : Atoms) :
  pcpot self = None ->
  valid_snapshot atoms ->
  exists Rm n me,
    reshape3 (positions atoms) = Ok Rm /\
    (0 < length Rm)%nat /\
    ((n = 0 /\ me = 2) \/ (n = 2 /\ me = 0))%nat /\
    Calc.unconstrained env self atoms
    = Ok (n, me,
          fst (Calc.pair_loop env self Rm (diagonal (cell atoms)) (pbc atoms)
                 (firstn 3 (get_initial_charges atoms))),
          snd (Calc.pair_loop env self Rm (diagonal (cell atoms)) (pbc atoms)
                 (firstn 3 (get_initial_charges atoms))),
          None).
Proof.
  intros Hpc [Hseq Horth].
  destruct (@valid_sequence_checks _ Hseq) as (z0 & n & me & Hz & Hnm & Hor & Hall).
  destruct Hseq as (k & Hk & Hs).
  assert (HL : length (positions atoms) = (3 * k)%nat).
  { rewrite positions_length.
    destruct Hs as [-> | ->]; rewrite flatten3_length, repeat_length;
      reflexivity. }
  destruct (@reshape3_multiple _ _ _ HL) as (Rm & ERm & HRm & _).
  exists Rm, n, me. split; [exact ERm|]. split; [lia|]. split; [exact Hor|].
  unfold Calc.unconstrained. rewrite ERm. cbn [bind].
  unfold py_assert at 1. cbn [truth].
  rewrite (@orthorhombic_check _ Horth). cbn [bind].
  rewrite Hz. cbn [bind]. rewrite Hnm.
  unfold py_assert. cbn [truth]. rewrite Hall. cbn [bind].
  rewrite prefix_charges, Hpc.
  destruct (Calc.pair_loop env self Rm (diagonal (cell atoms)) (pbc atoms)
              (firstn 3 (get_initial_charges atoms))) as [e f].
  reflexivity.
Qed.

Lemma redistribute_zero (env : Env) (n me : nat) :
  ((n = 0 /\ me = 2) \/ (n = 2 /\ me = 0))%nat ->
  Calc.redistribute_forces env n me [vzero; vzero; vzero]
  = [vzero; vzero; vzero].
Proof.
  intros [[-> ->] | [-> ->]]; unfold Calc.redistribute_forces; simpl;
    repeat f_equal; vec.
Qed.

(** C8. For every valid snapshot of exactly one molecule, with no point
    charges attached, [calculate] returns; the energy is 0 and the force
    on each of the three atoms is the zero vector, both as accumulated
    before [redistribute_forces] and as returned after it. *)
Theorem single_molecule_zero (env : Env) (self : ACN) (atoms : Atoms) :
  pcpot self = None ->
  valid_snapshot atoms ->
  length (atom_list atoms) = 3%nat ->
  (exists n me,
     Calc.unconstrained env self atoms
     = Ok (n, me, 0, [vzero; vzero; vzero], None)) /\
  (exists self',
     Calc.calculate env self atoms = Ok self' /\
     results self' = Some {| energy := 0; forces := [vzero; vzero; vzero] |}).
Proof.
  intros Hpc Hv H3.
  destruct (@unconstrained_valid env self atoms Hpc Hv)
    as (Rm & n & me & ERm & HRm & Hor & Hu).
  assert (HL : length Rm = 1%nat).
  { apply reshape3_inv in ERm.
    assert (E : length (positions atoms) = 3%nat)
      by (unfold positions; rewrite length_map; exact H3).
    rewrite ERm, flatten3_length in E. lia. }
  destruct Rm as [|mol [|? ?]]; simpl in HL; try lia.
  unfold Calc.pair_loop in Hu. simpl in Hu.
  split; [exists n, me; exact Hu|].
  unfold Calc.calculate. rewrite Hu. cbn [bind].
  eexists. split; [reflexivity|]. cbn [results].
  rewrite (@redistribute_zero env n me Hor). reflexivity.
Qed.

Lemma one_molecule_valid : valid_snapshot one_molecule.
Proof.
  split.
  - exists 1%nat. split; [lia|]. left. reflexivity.
  - reflexivity.
Qed.

Lemma single_molecule_zero_witness :
  exists self',
    Calc.calculate (Build_Env 1 1 1 1 (fun _ => 1)) (Calc.init 5 1)
      one_molecule = Ok self' /\
    results self' = Some {| energy := 0; forces := [vzero; vzero; vzero] |}.
Proof.
  apply (@single_molecule_zero (Build_Env 1 1 1 1 (fun _ => 1))
           (Calc.init 5 1) one_molecule eq_refl one_molecule_valid eq_refl).
Defined.

(** C10. Two snapshots that agree in everything but the initial charges
    of the atoms from index 3 on give the same outcome of [calculate]:
    the same energy, forces and point-charge state when it returns, the
    same exception when it raises. *)
Theorem charges_beyond_first_triplet_unread (env : Env) (self : ACN)
    (a1 a2 : Atoms) :
  numbers a1 = numbers a2 ->
  positions a1 = positions a2 ->
  cell a1 = cell a2 ->
  pbc a1 = pbc a2 ->
  firstn 3 (get_initial_charges a1) = firstn 3 (get_initial_charges a2) ->
  Calc.unconstrained env self a1 = Calc.unconstrained env self a2 /\
  match Calc.calculate env self a1, Calc.calculate env self a2 with
  | Ok c1, Ok c2 => results c1 = results c2 /\ pcpot c1 = pcpot c2
  | Raise e1, Raise e2 => e1 = e2
  | _, _ => False
  end.
Proof.
  intros HZ HP HC HB HQ.
  assert (HU : Calc.unconstrained env self a1 = Calc.unconstrained env self a2).
  { unfold Calc.unconstrained.
    rewrite !prefix_charges, HZ, HP, HC, HB, HQ. reflexivity. }
  split; [exact HU|].
  unfold Calc.calculate. rewrite HU.
  destruct (Calc.unconstrained env self a2) as [[[[[n me] e] f] pc]|ex];
    cbn [bind results pcpot]; auto.
Qed.

Lemma charges_beyond_first_triplet_unread_witness :
  Calc.unconstrained (Build_Env 1 1 1 1 (fun _ => 1)) (Calc.init 5 1)
    (two_molecules qN qC qMe)
  = Calc.unconstrained (Build_Env 1 1 1 1 (fun _ => 1)) (Calc.init 5 1)
      (two_molecules 1 2 3).
Proof.
  apply (@charges_beyond_first_triplet_unread
           (Build_Env 1 1 1 1 (fun _ => 1)) (Calc.init 5 1)
           (two_molecules qN qC qMe) (two_molecules 1 2 3)
           eq_refl eq_refl eq_refl eq_refl eq_refl).
Defined.

(** C1, evaluated where the claim fails.  A snapshot with oxygen at
    offset 1 of its triplet passes the checks of [calculate], which
    returns an energy and forces; [set_acn_charges] accepts it too and
    writes the charges, and it accepts as well a snapshot without any
    nitrogen.  Neither raises.  (The one check that is called, on the
    nitrogen offset in [calculate], does raise.) *)
Theorem carbon_offset_unchecked (env : Env) (garbage : nat -> R) :
  (exists self',
     Calc.calculate env (Calc.init 5 1) wrong_carbon = Ok self' /\
     results self' = Some {| energy := 0; forces := [vzero; vzero; vzero] |}) /\
  (exists atoms',
     set_acn_charges garbage wrong_carbon 0 = Ok atoms' /\
     get_initial_charges atoms' = [qN; qC; qMe]) /\
  (exists atoms',
     set_acn_charges garbage no_nitrogen 0 = Ok atoms' /\
     get_initial_charges atoms' = [qMe; qC; qN]) /\
  Calc.calculate env (Calc.init 5 1) no_nitrogen
  = Raise (AssertionError seq_msg).
Proof.
  split; [|split; [|split]].
  - unfold Calc.calculate, Calc.unconstrained. simpl.
    unfold py_assert, mat_eqb, veqb; simpl. rewrite !Reqb_refl. simpl.
    eexists. split; [reflexivity|]. cbn [results].
    rewrite (@redistribute_zero env 0 2) by auto. reflexivity.
  - eexists. split; reflexivity.
  - eexists. split; reflexivity.
  - unfold Calc.calculate, Calc.unconstrained. simpl.
    unfold py_assert, mat_eqb, veqb; simpl. rewrite !Reqb_refl. simpl.
    reflexivity.
Qed.

(* ================================================================== *)
(** ** Redistribution, molecule by molecule *)

Section Redistribution.
Variable env : Env.

Lemma redistribute_cons_NCMe (a b c : vec3) (l : list vec3) :
  Calc.redistribute_forces env 0 2 (a :: b :: c :: l)
  = new_N env a b c :: vzero :: new_Me env a b c
    :: Calc.redistribute_forces env 0 2 l.
Proof. reflexivity. Qed.

Lemma redistribute_cons_MeCN (a b c : vec3) (l : list vec3) :
  Calc.redistribute_forces env 2 0 (a :: b :: c :: l)
  = new_Me env c b a :: vzero :: new_N env c b a
    :: Calc.redistribute_forces env 2 0 l.
Proof. reflexivity. Qed.

Lemma redistribute_molecules (n me : nat) (mols : list (tri vec3)) :
  ((n = 0 /\ me = 2) \/ (n = 2 /\ me = 0))%nat ->
  Calc.redistribute_forces env n me (flatten3 mols)
  = flatten3 (map (redistributed env n) mols).
Proof.
  intros [[-> ->] | [-> ->]];
    induction mols as [|[a b c] mols IH]; try reflexivity;
    cbn [flatten3 flat_map tlist app map redistributed t0 t1 t2].
  - rewrite redistribute_cons_NCMe. fold (flatten3 mols). rewrite IH.
    reflexivity.
  - rewrite redistribute_cons_MeCN. fold (flatten3 mols). rewrite IH.
    reflexivity.
Qed.

Lemma bond_ratios : 0 < CMe /\ 0 < CN /\ CMe + CN = 1.
Proof. unfold CMe, CN, rMeN, rMeC, rCN. repeat split; lra. Qed.

Lemma denominator_pos :
  positive_masses env -> 0 < CMe ^ 2 * MCN env + CN ^ 2 * MMeC env + MMeN env.
Proof.
  intros (H1 & H6 & H7). destruct bond_ratios as (Ha & Hb & _).
  unfold MCN, MMeC, MMeN, mC, mN, mMe.
  assert (0 < atomic_masses env 6 + 3 * atomic_masses env 1) by lra.
  assert (0 < CMe ^ 2) by (apply pow_lt; exact Ha).
  assert (0 < CN ^ 2) by (apply pow_lt; exact Hb).
  assert (0 < atomic_masses env 6 * atomic_masses env 7)
    by (apply Rmult_lt_0_compat; lra).
  assert (0 < atomic_masses env 6 *
              (atomic_masses env 6 + 3 * atomic_masses env 1))
    by (apply Rmult_lt_0_compat; lra).
  assert (0 < atomic_masses env 7 *
              (atomic_masses env 6 + 3 * atomic_masses env 1))
    by (apply Rmult_lt_0_compat; lra).
  repeat apply Rplus_lt_0_compat; try apply Rmult_lt_0_compat; assumption.
Qed.

Lemma mass_weighted_sum (fN fC fMe : vec3) :
  positive_masses env ->
  vadd (vscale (1 + mC env * CN / mN env) (new_N env fN fC fMe))
       (vscale (1 + mC env * CMe / mMe env) (new_Me env fN fC fMe))
  = vadd (vadd fN fC) fMe.
Proof.
  intros HP. pose proof (denominator_pos HP) as HD.
  destruct HP as (H1 & H6 & H7).
  destruct bond_ratios as (Ha & Hb & Hab).
  assert (HmN : mN env <> 0) by (unfold mN; lra).
  assert (HmMe : mMe env <> 0) by (unfold mMe; lra).
  unfold new_N, new_Me, NN, NMe.
  set (D := CMe ^ 2 * MCN env + CN ^ 2 * MMeC env + MMeN env) in *.
  assert (HD' : D <> 0) by lra.
  assert (E : D = CMe ^ 2 * MCN env + CN ^ 2 * MMeC env + MMeN env)
    by reflexivity.
  unfold MCN, MMeC, MMeN in *.
  replace CN with (1 - CMe) in * by lra.
  clearbody D.
  apply vec3_eq; simpl; (field_simplify_eq; [|auto]); subst D; ring.
Qed.

Lemma plain_sum (fN fC fMe : vec3) :
  vadd (vadd (new_N env fN fC fMe) vzero) (new_Me env fN fC fMe)
  = vadd (vadd (vscale (1 - (NN env + NMe env) * MMeC env * CN) fN)
               (vscale ((NN env + NMe env) * MMeN env) fC))
         (vscale (1 - (NN env + NMe env) * MCN env * CMe) fMe).
Proof. unfold new_N, new_Me. vec. Qed.

(** Whatever the positive masses, a force on the nitrogen alone is not
    returned with its sum: the coefficient
    [1 - (NN + NMe) * MMeC * CN] is smaller than 1. *)
Lemma nitrogen_coefficient :
  positive_masses env -> 1 - (NN env + NMe env) * MMeC env * CN < 1.
Proof.
  intros HP. pose proof (denominator_pos HP) as HD.
  destruct HP as (H1 & H6 & H7).
  destruct bond_ratios as (Ha & Hb & Hab).
  assert (HC : 0 < MMeC env).
  { unfold MMeC, mC, mMe. apply Rmult_lt_0_compat; lra. }
  assert (HN : 0 < NN env + NMe env).
  { unfold NN, NMe.
    replace (CN / _ + CMe / _)
      with ((CN + CMe) / (CMe ^ 2 * MCN env + CN ^ 2 * MMeC env + MMeN env))
      by (field; lra).
    apply Rdiv_lt_0_compat; lra. }
  assert (0 < (NN env + NMe env) * MMeC env * CN).
  { apply Rmult_lt_0_compat; [apply Rmult_lt_0_compat|]; assumption. }
  lra.
Qed.

End Redistribution.

Lemma ase_env_masses : positive_masses ase_env.
Proof. unfold positive_masses. simpl. repeat split; lra. Qed.

(** C2, refuted as stated: for one molecule in the ordering N, C, Me
    with the unconstrained forces [(1, 0, 0)] on the nitrogen and zero
    on the two other sites, the three redistributed forces do not add up
    to the sum of the three unconstrained ones. *)
Lemma net_force_not_preserved :
  vsum (Calc.redistribute_forces ase_env 0 2 [V3 1 0 0; vzero; vzero])
  <> vsum [V3 1 0 0; vzero; vzero].
Proof.
  rewrite redistribute_cons_NCMe. intros H.
  apply (f_equal vx) in H.
  pose proof (nitrogen_coefficient ase_env_masses) as Hc.
  unfold Calc.redistribute_forces, new_N, new_Me in H.
  cbn [vsum fold_right vadd vsub vscale vzero vx vy vz zeros_like map
       stride3 stride3_upd map2] in H.
  lra.
Qed.

(** C2, amended.  For every molecule [m] of an array of unconstrained
    forces, in either ordering, [redistribute_forces] leaves the carbon
    row zero and the three output rows add up to
    [(1 - (NN + NMe) MMeC CN) F_N + (NN + NMe) MMeN F_C
     + (1 - (NN + NMe) MCN CMe) F_Me];
    what equals the sum [F_N + F_C + F_Me] of the inputs, for positive
    masses, is the weighted sum
    [(1 + mC CN / mN) F'_N + (1 + mC CMe / mMe) F'_Me] of the outputs. *)
Theorem redistribute_forces_sum (env : Env) (n me : nat)
    (mols : list (tri vec3)) (m : nat) (f : tri vec3) :
  ((n = 0 /\ me = 2) \/ (n = 2 /\ me = 0))%nat ->
  nth_error mols m = Some f ->
  exists out g,
    reshape3 (Calc.redistribute_forces env n me (flatten3 mols)) = Ok out /\
    nth_error out m = Some g /\
    t1 g = vzero /\
    tsumV g
    = vadd (vadd (vscale (1 - (NN env + NMe env) * MMeC env * CN) (tget n f))
                 (vscale ((NN env + NMe env) * MMeN env) (t1 f)))
           (vscale (1 - (NN env + NMe env) * MCN env * CMe) (tget me f)) /\
    (positive_masses env ->
       vadd (vscale (1 + mC env * CN / mN env) (tget n g))
            (vscale (1 + mC env * CMe / mMe env) (tget me g))
       = tsumV f).
Proof.
  intros Hor Hm.
  exists (map (redistributed env n) mols), (redistributed env n f).
  rewrite (@redistribute_molecules env n me mols Hor), reshape3_flatten3.
  rewrite nth_error_map, Hm.
  split; [reflexivity|]. split; [reflexivity|].
  destruct Hor as [[-> ->] | [-> ->]]; cbn [redistributed tget t0 t1 t2 tsumV].
  - split; [reflexivity|]. split; [apply plain_sum|].
    intros HP. apply (mass_weighted_sum _ _ _ HP).
  - split; [reflexivity|]. split.
    + rewrite <- plain_sum. vec.
    + intros HP. rewrite (mass_weighted_sum _ _ _ HP). vec.
Qed.

Lemma redistribute_forces_sum_witness :
  exists out g,
    reshape3 (Calc.redistribute_forces ase_env 0 2
                (flatten3 [T3 (V3 1 0 0) vzero vzero])) = Ok out /\
    nth_error out 0 = Some g /\
    t1 g = vzero.
Proof.
  destruct (@redistribute_forces_sum ase_env 0 2 [T3 (V3 1 0 0) vzero vzero]
              0 (T3 (V3 1 0 0) vzero vzero) (or_introl (conj eq_refl eq_refl))
              eq_refl) as (out & g & H1 & H2 & H3 & _).
  exists out, g. auto.
Defined.

(* ================================================================== *)
(** ** Newton's third law in the pair loop *)

Lemma vsum_app (a b : list vec3) : vsum (a ++ b) = vadd (vsum a) (vsum b).
Proof.
  induction a as [|x a IH]; simpl.
  - rewrite vadd_zero_l. reflexivity.
  - rewrite IH. apply vec3_eq; simpl; ring.
Qed.

Lemma vsum_map2_vadd (a b : list vec3) :
  length a = length b ->
  vsum (map2 vadd a b) = vadd (vsum a) (vsum b).
Proof.
  revert b; induction a as [|x a IH]; intros [|y b] H; simpl in *;
    try discriminate.
  - vec.
  - rewrite IH by lia. vec.
Qed.

Lemma firstn_skipn_vsum (s : nat) (l : list vec3) :
  vadd (vsum (firstn s l)) (vsum (skipn s l)) = vsum l.
Proof. rewrite <- vsum_app, firstn_skipn. reflexivity. Qed.

Lemma tail_upd_vsum (s : nat) (xs l : list vec3) :
  (s + length xs = length l)%nat ->
  vsum (tail_upd vadd s xs l) = vadd (vsum l) (vsum xs).
Proof.
  intros H. unfold tail_upd.
  rewrite vsum_app, vsum_map2_vadd by (rewrite length_skipn; lia).
  rewrite <- (firstn_skipn_vsum s l). vec.
Qed.

Lemma tail_upd_length (s : nat) (xs l : list vec3) :
  (s + length xs = length l)%nat ->
  length (tail_upd vadd s xs l) = length l.
Proof.
  intros H. unfold tail_upd.
  rewrite length_app, map2_length, length_firstn, length_skipn. lia.
Qed.

Lemma upd_at_length {A} (f : A -> A) (i : nat) (l : list A) :
  length (upd_at f i l) = length l.
Proof.
  revert i; induction l as [|x l IH]; intros [|i]; simpl; auto.
Qed.

Lemma upd_at_vsum (v : vec3) (i : nat) (l : list vec3) :
  (i < length l)%nat ->
  vsum (upd_at (fun f => vsub f v) i l) = vsub (vsum l) v.
Proof.
  revert i; induction l as [|x l IH]; intros [|i] H; simpl in *; try lia.
  - vec.
  - rewrite IH by lia. vec.
Qed.

Lemma stride3_upd_length {A B} (f : A -> B -> A) (s : nat) (xs : list B)
    (l : list A) :
  length (stride3_upd f s xs l) = length l.
Proof.
  revert s xs; induction l as [|x l IH]; intros s xs; simpl; [reflexivity|].
  destruct s as [|s]; [destruct xs as [|y xs]|]; simpl; auto.
Qed.

Lemma stride3_upd_vsum (s : nat) (xs l : list vec3) :
  (s + 3 * length xs <= length l + 2)%nat ->
  vsum (stride3_upd vadd s xs l) = vadd (vsum l) (vsum xs).
Proof.
  revert s xs; induction l as [|x l IH]; intros s xs H.
  - destruct xs as [|y xs]; simpl in *; [vec | lia].
  - destruct s as [|s].
    + destruct xs as [|y xs].
      * simpl. vec.
      * cbn [stride3_upd vsum fold_right]. fold (vsum (stride3_upd vadd 2 xs l)).
        fold (vsum l). fold (vsum xs).
        rewrite IH by (simpl in *; lia). vec.
    + cbn [stride3_upd vsum fold_right]. fold (vsum (stride3_upd vadd s xs l)).
      fold (vsum l).
      rewrite IH by (simpl in *; lia). vec.
Qed.

Lemma sum_axis0_flatten3 (F : list (tri vec3)) :
  tsumV (Calc.sum_axis0 F) = vsum (flatten3 F).
Proof.
  unfold Calc.sum_axis0, tsumV. cbn [t0 t1 t2].
  induction F as [|[a b c] F IH]; [vec|].
  cbn [map vsum fold_right flatten3 flat_map tlist app t0 t1 t2].
  fold (vsum (map (@t0 vec3) F)). fold (vsum (map (@t1 vec3) F)).
  fold (vsum (map (@t2 vec3) F)). fold (flatten3 F).
  fold (vsum (flatten3 F)).
  rewrite <- IH. vec.
Qed.

(** One round of the four updates adds nothing to the total force. *)
Lemma accumulate_balanced (nm m j : nat) (F : list (tri vec3))
    (Fmm : list vec3) (forces : list vec3) :
  length forces = (3 * nm)%nat ->
  (m + 1 + length F = nm)%nat ->
  length Fmm = length F ->
  (j < 3)%nat ->
  length (Calc.accumulate m j F Fmm forces) = (3 * nm)%nat /\
  vsum (Calc.accumulate m j F Fmm forces) = vsum forces.
Proof.
  intros HL HF HM Hj. unfold Calc.accumulate.
  assert (L1 : length (tail_upd vadd ((m + 1) * 3) (flatten3 F) forces)
               = (3 * nm)%nat).
  { rewrite tail_upd_length; rewrite ?flatten3_length; lia. }
  split.
  - rewrite upd_at_length, stride3_upd_length, upd_at_length. exact L1.
  - rewrite upd_at_vsum
      by (rewrite stride3_upd_length, upd_at_length, L1; lia).
    rewrite stride3_upd_vsum by (rewrite upd_at_length, L1; lia).
    rewrite upd_at_vsum by (rewrite L1; lia).
    rewrite tail_upd_vsum by (rewrite flatten3_length; lia).
    rewrite sum_axis0_flatten3. vec.
Qed.

Lemma cutoff_force_length (e : list (tri R)) (dcut d : list R)
    (Dmm : list vec3) (k : nat) :
  length e = k -> length dcut = k -> length d = k -> length Dmm = k ->
  length (Calc.cutoff_force e dcut d Dmm) = k.
Proof.
  intros. unfold Calc.cutoff_force.
  rewrite !map2_length, length_map. lia.
Qed.

Lemma site_body_balanced (env : Env) (Rm : list (tri vec3))
    (charges : list R) (m : nat) (shift Dmm : list vec3) (cut dcut d : list R)
    (sigma_c epsilon_c : list (list R)) (st : R * list vec3) (j : nat) :
  (m + 1 < length Rm + 1)%nat ->
  length shift = (length Rm - (m + 1))%nat ->
  length Dmm = (length Rm - (m + 1))%nat ->
  length cut = (length Rm - (m + 1))%nat ->
  length dcut = (length Rm - (m + 1))%nat ->
  length d = (length Rm - (m + 1))%nat ->
  (j < 3)%nat ->
  length (snd st) = (3 * length Rm)%nat ->
  let st' := Calc.site_body env Rm charges m shift Dmm cut dcut d
               sigma_c epsilon_c st j in
  length (snd st') = (3 * length Rm)%nat /\ vsum (snd st') = vsum (snd st).
Proof.
  intros Hm Hs HD Hc Hdc Hd Hj HL. destruct st as [energy forces].
  cbn [snd] in HL. cbn zeta. unfold Calc.site_body.
  set (k := (length Rm - (m + 1))%nat) in *.
  set (D := map2 _ (skipn (m + 1) Rm) shift).
  assert (LD : length D = k).
  { unfold D. rewrite map2_length, length_skipn. lia. }
  set (r2 := map (tmap sqnorm) D).
  assert (Lr2 : length r2 = k) by (unfold r2; rewrite length_map; exact LD).
  set (r := map (tmap sqrt) r2).
  assert (Lr : length r = k) by (unfold r; rewrite length_map; exact Lr2).
  set (e1 := map _ r).
  assert (Le1 : length e1 = k) by (unfold e1; rewrite length_map; exact Lr).
  set (F1 := map2 _ (map2 _ (map2 (tmap2 Rdiv) e1 r2) cut) D).
  assert (LF1 : length F1 = k).
  { unfold F1. rewrite !map2_length. lia. }
  set (c6 := map _ r2).
  assert (Lc6 : length c6 = k) by (unfold c6; rewrite length_map; exact Lr2).
  set (c12 := map _ c6).
  assert (Lc12 : length c12 = k)
    by (unfold c12; rewrite length_map; exact Lc6).
  set (e2 := map2 _ c12 c6).
  assert (Le2 : length e2 = k) by (unfold e2; rewrite map2_length; lia).
  set (F2 := map2 _ (map2 _ (map2 (tmap2 Rdiv) _ r2) cut) D).
  assert (LF2 : length F2 = k).
  { unfold F2. rewrite !map2_length. lia. }
  cbn [snd].
  destruct (@accumulate_balanced (length Rm) m j F1
              (Calc.cutoff_force e1 dcut d Dmm) forces HL)
    as [A1 A2]; [lia | | exact Hj |].
  { rewrite LF1. apply cutoff_force_length; assumption. }
  destruct (@accumulate_balanced (length Rm) m j F2
              (Calc.cutoff_force e2 dcut d Dmm)
              (Calc.accumulate m j F1 (Calc.cutoff_force e1 dcut d Dmm) forces)
              A1)
    as [B1 B2]; [lia | | exact Hj |].
  { rewrite LF2. apply cutoff_force_length; assumption. }
  split; [exact B1|]. rewrite B2. exact A2.
Qed.

Lemma molecule_body_balanced (env : Env) (self : ACN) (Rm : list (tri vec3))
    (cell : vec3) (pbc : tri bool) (charges : list R)
    (st : R * list vec3) (m : nat) :
  (m + 1 < length Rm + 1)%nat ->
  length (snd st) = (3 * length Rm)%nat ->
  let st' := Calc.molecule_body env self Rm cell pbc charges st m in
  length (snd st') = (3 * length Rm)%nat /\ vsum (snd st') = vsum (snd st).
Proof.
  intros Hm HL. cbn zeta. unfold Calc.molecule_body.
  rewrite cutoff_map.
  destruct (CombineLJ_lorenz_berthelot sigma (epsilon env))
    as [sigma_c epsilon_c].
  set (Dmm0 := map _ (skipn (m + 1) Rm)).
  assert (L0 : length Dmm0 = (length Rm - (m + 1))%nat).
  { unfold Dmm0. rewrite length_map, length_skipn. reflexivity. }
  assert (Ls : length (wrap Dmm0 cell pbc) = (length Rm - (m + 1))%nat).
  { rewrite wrap_rows, length_map. exact L0. }
  set (Dmm := map2 vadd Dmm0 (wrap Dmm0 cell pbc)).
  assert (LD : length Dmm = (length Rm - (m + 1))%nat).
  { unfold Dmm. rewrite map2_length. lia. }
  set (d := map sqrt (map sqnorm Dmm)).
  assert (Ld : length d = (length Rm - (m + 1))%nat).
  { unfold d. rewrite !length_map. exact LD. }
  assert (step : forall js st0,
            Forall (fun j => (j < 3)%nat) js ->
            length (snd st0) = (3 * length Rm)%nat ->
            let st1 :=
              fold_left
                (Calc.site_body env Rm charges m (wrap Dmm0 cell pbc) Dmm
                   (map (cut1 self) d) (map (dcut1 self) d) d
                   sigma_c epsilon_c) js st0 in
            length (snd st1) = (3 * length Rm)%nat /\
            vsum (snd st1) = vsum (snd st0)).
  { induction js as [|j js IH]; intros st0 Hjs H0; cbn zeta.
    - simpl. auto.
    - inversion Hjs as [|? ? Hj Hjs']; subst. cbn [fold_left].
      destruct (@site_body_balanced env Rm charges m (wrap Dmm0 cell pbc)
                  Dmm (map (cut1 self) d) (map (dcut1 self) d) d
                  sigma_c epsilon_c st0 j Hm Ls LD)
        as [S1 S2]; rewrite ?length_map; auto.
      destruct (IH _ Hjs' S1) as [I1 I2].
      split; [exact I1|]. rewrite I2. exact S2. }
  apply step; [|exact HL].
  repeat constructor.
Qed.

(** The forces accumulated by the pair loop: three rows per molecule,
    adding up to the zero vector. *)
Lemma pair_loop_balanced (env : Env) (self : ACN) (Rm : list (tri vec3))
    (cell : vec3) (pbc : tri bool) (charges : list R) :
  length (snd (Calc.pair_loop env self Rm cell pbc charges))
  = (3 * length Rm)%nat /\
  vsum (snd (Calc.pair_loop env self Rm cell pbc charges)) = vzero.
Proof.
  unfold Calc.pair_loop.
  assert (step : forall ms st0,
            Forall (fun m => (m + 1 < length Rm + 1)%nat) ms ->
            length (snd st0) = (3 * length Rm)%nat ->
            let st1 :=
              fold_left (Calc.molecule_body env self Rm cell pbc charges)
                ms st0 in
            length (snd st1) = (3 * length Rm)%nat /\
            vsum (snd st1) = vsum (snd st0)).
  { induction ms as [|m ms IH]; intros st0 Hms H0; cbn zeta.
    - simpl. auto.
    - inversion Hms as [|? ? Hm Hms']; subst. cbn [fold_left].
      destruct (@molecule_body_balanced env self Rm cell pbc charges st0 m
                  Hm H0) as [S1 S2].
      destruct (IH _ Hms' S1) as [I1 I2].
      split; [exact I1|]. rewrite I2. exact S2. }
  destruct (step (seq 0 (length Rm - 1)) (0, repeat vzero (3 * length Rm)))
    as [P1 P2].
  - apply Forall_forall. intros m Hin. apply in_seq in Hin. lia.
  - cbn [snd]. apply repeat_length.
  - split; [exact P1|]. rewrite P2. cbn [snd].
    generalize (3 * length Rm)%nat. intros n.
    induction n as [|n IH]; simpl; [reflexivity|].
    fold (vsum (repeat vzero n)). rewrite IH. vec.
Qed.

(* ================================================================== *)
(** ** The total of the redistributed forces *)

Section TwoMolecules.
Variable env : Env.
Variables A B : tri vec3.
Variables sh Dm : vec3.
Variables cv dcv dd : R.
Variables sigma_c epsilon_c : list (list R).

Lemma site_body_total_x (e : R) (f0 f1 f2 f3 f4 f5 : vec3) (j : nat) :
  (j < 3)%nat ->
  vx (vsum (Calc.redistribute_forces env 0 2
       (snd (Calc.site_body env [A; B] [0; 0; 0] 0 [sh] [Dm] [cv] [dcv] [dd]
               sigma_c epsilon_c (e, [f0; f1; f2; f3; f4; f5]) j))))
  = vx (vsum (Calc.redistribute_forces env 0 2 [f0; f1; f2; f3; f4; f5]))
    + site_increment env A B sh cv sigma_c epsilon_c j.
Proof.
  intros Hj.
  unfold site_increment, lj_factor, coef, coef_N, coef_C, coef_Me.
  destruct A as [[a0x a0y a0z] [a1x a1y a1z] [a2x a2y a2z]].
  destruct B as [[b0x b0y b0z] [b1x b1y b1z] [b2x b2y b2z]].
  destruct sh as [sx sy sz]. destruct Dm as [mx my mz].
  destruct f0 as [p0 q0 r0], f1 as [p1 q1 r1], f2 as [p2 q2 r2],
    f3 as [p3 q3 r3], f4 as [p4 q4 r4], f5 as [p5 q5 r5].
  destruct j as [|[|[|j]]]; [| | |lia];
    cbv beta iota zeta delta
      [Calc.site_body Calc.accumulate Calc.cutoff_force Calc.tri_of_list
       Calc.dot Calc.sum_axis0 Calc.mol0 Calc.redistribute_forces
       zeros_like new_N new_Me stride3
       fold_left seq map2 skipn length repeat app flat_map map nth
       flatten3 tlist tmap tmap2 tget t0 t1 t2 tsumR tsumV
       tail_upd upd_at stride3_upd firstn Nat.mul Nat.add Nat.sub
       fst snd vsum fold_right vadd vsub vscale vzero vx vy vz];
    unfold Rdiv; ring.
Qed.

Lemma site_body_six (st : R * list vec3) (j : nat) :
  (j < 3)%nat ->
  length (snd st) = 6%nat ->
  exists e f0 f1 f2 f3 f4 f5,
    Calc.site_body env [A; B] [0; 0; 0] 0 [sh] [Dm] [cv] [dcv] [dd]
      sigma_c epsilon_c st j
    = (e, [f0; f1; f2; f3; f4; f5]).
Proof.
  intros Hj HL.
  destruct (@site_body_balanced env [A; B] [0; 0; 0] 0 [sh] [Dm] [cv] [dcv]
              [dd] sigma_c epsilon_c st j) as [L _];
    try reflexivity; try exact Hj; try exact HL; [simpl; lia|].
  destruct (Calc.site_body env [A; B] [0; 0; 0] 0 [sh] [Dm] [cv] [dcv] [dd]
              sigma_c epsilon_c st j) as [e l].
  cbn [snd length] in L.
  destruct l as [|f0 [|f1 [|f2 [|f3 [|f4 [|f5 [|f6 l]]]]]]];
    simpl in L; try discriminate.
  exists e, f0, f1, f2, f3, f4, f5. reflexivity.
Qed.

(** The whole site loop for the pair, started from zero forces. *)
Lemma site_loop_total_x :
  vx (vsum (Calc.redistribute_forces env 0 2
       (snd (fold_left
               (Calc.site_body env [A; B] [0; 0; 0] 0 [sh] [Dm] [cv] [dcv]
                  [dd] sigma_c epsilon_c)
               (seq 0 3)
               (0, [vzero; vzero; vzero; vzero; vzero; vzero])))))
  = site_increment env A B sh cv sigma_c epsilon_c 0
    + site_increment env A B sh cv sigma_c epsilon_c 1
    + site_increment env A B sh cv sigma_c epsilon_c 2.
Proof.
  cbn [seq fold_left].
  destruct (@site_body_six (0, [vzero; vzero; vzero; vzero; vzero; vzero])
              0) as (e1 & a0 & a1 & a2 & a3 & a4 & a5 & E1);
    [lia | reflexivity |].
  pose proof (@site_body_total_x 0 vzero vzero vzero vzero vzero vzero 0)
    as T1.
  rewrite E1 in T1 |- *. cbn [snd] in T1.
  destruct (@site_body_six (e1, [a0; a1; a2; a3; a4; a5]) 1)
    as (e2 & b0 & b1 & b2 & b3 & b4 & b5 & E2); [lia | reflexivity |].
  pose proof (@site_body_total_x e1 a0 a1 a2 a3 a4 a5 1) as T2.
  rewrite E2 in T2 |- *. cbn [snd] in T2.
  pose proof (@site_body_total_x e2 b0 b1 b2 b3 b4 b5 2) as T3.
  rewrite T3, T2, T1 by lia.
  assert (Z : vx (vsum (Calc.redistribute_forces env 0 2
                          [vzero; vzero; vzero; vzero; vzero; vzero])) = 0).
  { rewrite !redistribute_cons_NCMe. unfold new_N, new_Me. simpl. ring. }
  rewrite Z. ring.
Qed.

End TwoMolecules.

(* ================================================================== *)
(** ** Two uncharged molecules side by side *)

Lemma uncharged_pair_valid : valid_snapshot uncharged_pair.
Proof.
  split.
  - exists 2%nat. split; [lia|]. left. reflexivity.
  - reflexivity.
Qed.

Lemma unit_width (rc : R) : width (Calc.init rc 1) <> 0.
Proof. simpl. lra. Qed.

Lemma uncharged_pair_distinct :
  distinct_sites [molA; molB] (diagonal (cell uncharged_pair))
    (pbc uncharged_pair).
Proof.
  intros m m' j i Hm Hj Hi H. cbn [length] in Hm.
  assert (m = 0%nat) by lia. assert (m' = 1%nat) by lia. subst m m'.
  apply (f_equal vy) in H.
  destruct i as [|[|[|i]]]; [| | |lia];
    (destruct j as [|[|[|j]]]; [| | |lia]); simpl in H; lra.
Qed.

Lemma uncharged_pair_lengths :
  nonzero_periodic_lengths (diagonal (cell uncharged_pair))
    (pbc uncharged_pair).
Proof. intros [|[|i]] _ H; discriminate H. Qed.

(** Beyond the minimum of the Lennard-Jones pair energy the factor is
    negative (attraction). *)
Lemma lj_factor_neg (eps s r2 cut : R) :
  0 < eps -> 0 < s <= 3.775 -> 20.25 <= r2 -> 0 < cut ->
  lj_factor eps s r2 cut < 0.
Proof.
  intros He [Hs1 Hs2] Hr Hc. unfold lj_factor.
  set (u := s ^ 2 / r2).
  assert (Hu : 0 < u <= 0.704).
  { unfold u. split.
    - apply Rdiv_lt_0_compat; [simpl; nra | lra].
    - apply Rmult_le_reg_r with r2; [lra|].
      unfold Rdiv. rewrite Rmult_assoc, Rinv_l by lra. simpl. nra. }
  assert (H3 : 0 < u ^ 3 < 1 / 2).
  { split; [apply pow_lt; lra | simpl; nra]. }
  set (c6 := u ^ 3) in *.
  assert (Hn : 2 * c6 ^ 2 - c6 < 0) by (simpl; nra).
  assert (Hi : 0 < / r2) by (apply Rinv_0_lt_compat; lra).
  unfold Rdiv.
  assert (0 < 24 * eps * / r2 * cut).
  { repeat apply Rmult_lt_0_compat; lra. }
  nra.
Qed.

Lemma mcol_entries (M : list (list R)) (i j : nat) :
  nth i (mcol j M) 0 = nth j (nth i M []) 0.
Proof.
  unfold mcol.
  rewrite <- (map_nth (fun row => nth j row 0) M []) at 1.
  destruct j; reflexivity.
Qed.

(** The combined parameters of the three sites: positive, and no
    [sigma] above the largest of the three. *)
Lemma combined_parameters (env : Env) (i j : nat) :
  0 < kJ env / mol env ->
  (i < 3)%nat -> (j < 3)%nat ->
  let (sigma_c, epsilon_c) :=
    CombineLJ_lorenz_berthelot sigma (epsilon env) in
  0 < nth i (mcol j sigma_c) 0 <= 3.775 /\
  0 < nth i (mcol j epsilon_c) 0.
Proof.
  intros Hu Hi Hj.
  assert (E1 : 0 < epsilonMe env) by (unfold epsilonMe, Rdiv in *; nra).
  assert (E2 : 0 < epsilonC env) by (unfold epsilonC, Rdiv in *; nra).
  assert (E3 : 0 < epsilonN env) by (unfold epsilonN, Rdiv in *; nra).
  cbv beta iota zeta delta
    [CombineLJ_lorenz_berthelot sigma epsilon fold_left seq length
     mset_col map2 row_set zeros2 repeat map nth].
  rewrite !mcol_entries.
  destruct i as [|[|[|i]]]; [| | |lia];
    (destruct j as [|[|[|j]]]; [| | |lia]);
    cbn [nth];
    (split;
     [ unfold sigmaMe, sigmaC, sigmaN; lra
     | apply sqrt_lt_R0; apply Rmult_lt_0_compat; assumption ]).
Qed.

Lemma coef_order (env : Env) :
  positive_masses env ->
  CMe * mN env < CN * mMe env ->
  coef_N env < coef_C env < coef_Me env.
Proof.
  intros HP Hk. pose proof (denominator_pos HP) as HD.
  destruct HP as (H1 & H6 & H7).
  destruct bond_ratios as (Ha & Hb & Hab).
  unfold coef_N, coef_C, coef_Me.
  assert (HS : NN env + NMe env
               = / (CMe ^ 2 * MCN env + CN ^ 2 * MMeC env + MMeN env)).
  { unfold NN, NMe.
    replace (CN / _ + CMe / _)
      with ((CN + CMe) / (CMe ^ 2 * MCN env + CN ^ 2 * MMeC env + MMeN env))
      by (field; lra).
    replace (CN + CMe) with 1 by lra. unfold Rdiv. ring. }
  rewrite HS.
  set (D := CMe ^ 2 * MCN env + CN ^ 2 * MMeC env + MMeN env) in *.
  assert (HI : 0 < / D) by (apply Rinv_0_lt_compat; exact HD).
  assert (HmC : 0 < mC env) by (unfold mC; lra).
  assert (K1 : D - MMeC env * CN - MMeN env
               = - (CMe * mC env * (CN * mMe env - CMe * mN env))).
  { unfold D, MCN, MMeC, MMeN. replace CN with (1 - CMe) by lra. ring. }
  assert (K2 : D - MCN env * CMe - MMeN env
               = CN * mC env * (CN * mMe env - CMe * mN env)).
  { unfold D, MCN, MMeC, MMeN. replace CMe with (1 - CN) by lra. ring. }
  assert (P1 : 0 < CMe * mC env * (CN * mMe env - CMe * mN env)).
  { apply Rmult_lt_0_compat; [apply Rmult_lt_0_compat; assumption | lra]. }
  assert (P2 : 0 < CN * mC env * (CN * mMe env - CMe * mN env)).
  { apply Rmult_lt_0_compat; [apply Rmult_lt_0_compat; assumption | lra]. }
  assert (ID : / D * D = 1) by (apply Rinv_l; lra).
  split.
  - apply Rmult_lt_reg_r with D; [exact HD|].
    replace ((1 - / D * MMeC env * CN) * D)
      with (D - (/ D * D) * (MMeC env * CN)) by ring.
    replace (/ D * MMeN env * D) with ((/ D * D) * MMeN env) by ring.
    rewrite ID. lra.
  - apply Rmult_lt_reg_r with D; [exact HD|].
    replace ((1 - / D * MCN env * CMe) * D)
      with (D - (/ D * D) * (MCN env * CMe)) by ring.
    replace (/ D * MMeN env * D) with ((/ D * D) * MMeN env) by ring.
    rewrite ID. lra.
Qed.

Lemma ase_env_coef_order :
  coef_N ase_env < coef_C ase_env < coef_Me ase_env.
Proof.
  apply coef_order; [exact ase_env_masses|].
  unfold CMe, CN, rMeN, rMeC, rCN, mN, mMe. simpl. lra.
Qed.

Lemma half_way_cutoff :
  cut1 (Calc.init 5 1)
    (sqrt (sqnorm (vadd (vsub (t1 molB) (t1 molA)) vzero))) = 1 / 2.
Proof.
  replace (sqnorm (vadd (vsub (t1 molB) (t1 molA)) vzero)) with (4.5 * 4.5)
    by (unfold sqnorm; simpl; lra).
  rewrite sqrt_square by lra.
  unfold cut1, Rgtb. cbn [rc width Calc.init].
  assert (E1 : Rltb 4.5 5 = true) by (apply Rltb_true; lra).
  assert (E2 : Rltb (5 - 1) 4.5 = true) by (apply Rltb_true; lra).
  rewrite E1, E2. simpl. lra.
Qed.

Lemma pair_separation (i j : nat) :
  20.25 <= sqnorm (vadd (vsub (tget i molB) (tget j molA)) vzero).
Proof.
  destruct i as [|[|i]]; destruct j as [|[|j]];
    unfold sqnorm; simpl; nra.
Qed.

(** The x component of the total of the final forces of the pair. *)
Lemma pair_total_x :
  vx (vsum (Calc.redistribute_forces ase_env 0 2
       (snd (Calc.pair_loop ase_env (Calc.init 5 1) [molA; molB] vzero
               (T3 false false false) [0; 0; 0])))) < 0.
Proof.
  assert (HU : 0 < kJ ase_env / mol ase_env) by (simpl; lra).
  assert (HP : forall i j, (i < 3)%nat -> (j < 3)%nat ->
            let (sigma_c, epsilon_c) :=
              CombineLJ_lorenz_berthelot sigma (epsilon ase_env) in
            0 < nth i (mcol j sigma_c) 0 <= 3.775 /\
            0 < nth i (mcol j epsilon_c) 0).
  { intros i j Hi Hj. apply combined_parameters; assumption. }
  unfold Calc.pair_loop.
  cbn [length Nat.sub seq fold_left Nat.mul Nat.add repeat].
  unfold Calc.molecule_body.
  rewrite wrap_rows, cutoff_map.
  destruct (CombineLJ_lorenz_berthelot sigma (epsilon ase_env))
    as [sigma_c epsilon_c].
  cbn [Nat.add skipn map map2 nth].
  change (wrap_row vzero (T3 false false false) (vsub (t1 molB) (t1 molA)))
    with vzero.
  rewrite site_loop_total_x, half_way_cutoff.
  pose proof ase_env_coef_order as [Hac Hcb].
  assert (W : forall i j, (i < 3)%nat -> (j < 3)%nat ->
            lj_factor (nth i (mcol j epsilon_c) 0) (nth i (mcol j sigma_c) 0)
              (sqnorm (vadd (vsub (tget i molB) (tget j molA)) vzero))
              (1 / 2) < 0).
  { intros i j Hi Hj. destruct (HP i j Hi Hj) as [Hs He].
    apply lj_factor_neg; [exact He | exact Hs | apply pair_separation | lra]. }
  unfold site_increment. cbv zeta.
  pose proof (W 0%nat 1%nat) as W01. pose proof (W 0%nat 2%nat) as W02.
  pose proof (W 1%nat 0%nat) as W10. pose proof (W 1%nat 2%nat) as W12.
  pose proof (W 2%nat 0%nat) as W20. pose proof (W 2%nat 1%nat) as W21.
  pose proof (W 0%nat 0%nat) as W00. pose proof (W 1%nat 1%nat) as W11.
  pose proof (W 2%nat 2%nat) as W22.
  clear W HP.
  cbn [tget coef] in *.
  revert W00 W01 W02 W10 W11 W12 W20 W21 W22.
  generalize (lj_factor (nth 0 (mcol 0 epsilon_c) 0) (nth 0 (mcol 0 sigma_c) 0)
                (sqnorm (vadd (vsub (t0 molB) (t0 molA)) vzero)) (1 / 2)).
  generalize (lj_factor (nth 0 (mcol 1 epsilon_c) 0) (nth 0 (mcol 1 sigma_c) 0)
                (sqnorm (vadd (vsub (t0 molB) (t1 molA)) vzero)) (1 / 2)).
  generalize (lj_factor (nth 0 (mcol 2 epsilon_c) 0) (nth 0 (mcol 2 sigma_c) 0)
                (sqnorm (vadd (vsub (t0 molB) (t2 molA)) vzero)) (1 / 2)).
  generalize (lj_factor (nth 1 (mcol 0 epsilon_c) 0) (nth 1 (mcol 0 sigma_c) 0)
                (sqnorm (vadd (vsub (t1 molB) (t0 molA)) vzero)) (1 / 2)).
  generalize (lj_factor (nth 1 (mcol 1 epsilon_c) 0) (nth 1 (mcol 1 sigma_c) 0)
                (sqnorm (vadd (vsub (t1 molB) (t1 molA)) vzero)) (1 / 2)).
  generalize (lj_factor (nth 1 (mcol 2 epsilon_c) 0) (nth 1 (mcol 2 sigma_c) 0)
                (sqnorm (vadd (vsub (t1 molB) (t2 molA)) vzero)) (1 / 2)).
  generalize (lj_factor (nth 2 (mcol 0 epsilon_c) 0) (nth 2 (mcol 0 sigma_c) 0)
                (sqnorm (vadd (vsub (t2 molB) (t0 molA)) vzero)) (1 / 2)).
  generalize (lj_factor (nth 2 (mcol 1 epsilon_c) 0) (nth 2 (mcol 1 sigma_c) 0)
                (sqnorm (vadd (vsub (t2 molB) (t1 molA)) vzero)) (1 / 2)).
  generalize (lj_factor (nth 2 (mcol 2 epsilon_c) 0) (nth 2 (mcol 2 sigma_c) 0)
                (sqnorm (vadd (vsub (t2 molB) (t2 molA)) vzero)) (1 / 2)).
  intros w22 w21 w20 w12 w11 w10 w02 w01 w00.
  intros W00 W01 W02 W10 W11 W12 W20 W21 W22.
  specialize (W00 ltac:(lia) ltac:(lia)). specialize (W01 ltac:(lia) ltac:(lia)).
  specialize (W02 ltac:(lia) ltac:(lia)). specialize (W10 ltac:(lia) ltac:(lia)).
  specialize (W11 ltac:(lia) ltac:(lia)). specialize (W12 ltac:(lia) ltac:(lia)).
  specialize (W20 ltac:(lia) ltac:(lia)). specialize (W21 ltac:(lia) ltac:(lia)).
  specialize (W22 ltac:(lia) ltac:(lia)).
  unfold molA, molB. cbn [t0 t1 t2 vadd vsub vzero vx vy vz].
  generalize dependent (coef_N ase_env).
  generalize dependent (coef_C ase_env).
  generalize dependent (coef_Me ase_env).
  intros b c Hcb a Hac.
  assert (P10 : (c - a) * w10 < 0) by nra.
  assert (P20 : (b - a) * w20 < 0) by nra.
  assert (P01 : (c - a) * w01 < 0) by nra.
  assert (P21 : (b - c) * w21 < 0) by nra.
  assert (P02 : (b - a) * w02 < 0) by nra.
  assert (P12 : (b - c) * w12 < 0) by nra.
  nra.
Qed.

Lemma uncharged_pair_unconstrained (env : Env) (self : ACN) :
  pcpot self = None ->
  Calc.unconstrained env self uncharged_pair
  = Ok (0%nat, 2%nat,
        fst (Calc.pair_loop env self [molA; molB] vzero (T3 false false false)
               [0; 0; 0]),
        snd (Calc.pair_loop env self [molA; molB] vzero (T3 false false false)
               [0; 0; 0]),
        None).
Proof.
  intros Hpc. unfold Calc.unconstrained.
  change (reshape3 (positions uncharged_pair)) with (Ok [molA; molB]).
  cbn [bind]. unfold py_assert at 1. cbn [truth].
  rewrite (@orthorhombic_check (cell uncharged_pair))
    by (apply uncharged_pair_valid).
  cbn [bind]. rewrite Hpc.
  change (diagonal (cell uncharged_pair)) with vzero.
  change (get_initial_charges (atoms_prefix 3 uncharged_pair))
    with [0; 0; 0].
  change (pbc uncharged_pair) with (T3 false false false).
  destruct (Calc.pair_loop env self [molA; molB] vzero (T3 false false false)
              [0; 0; 0]) as [e f].
  reflexivity.
Qed.

(** C3, refuted as stated: for two uncharged molecules side by side, not
    periodic and without point charges, the forces that [calculate]
    returns do not add up to zero: the x component of their sum is
    negative. *)
Lemma final_forces_unbalanced :
  exists self',
    Calc.calculate ase_env (Calc.init 5 1) uncharged_pair = Ok self' /\
    match results self' with
    | Some r => vx (vsum (forces r)) < 0
    | None => False
    end.
Proof.
  unfold Calc.calculate.
  rewrite (@uncharged_pair_unconstrained ase_env (Calc.init 5 1) eq_refl).
  cbn [bind]. eexists. split; [reflexivity|].
  cbn [results forces]. exact pair_total_x.
Qed.

Lemma redistributed_total (env : Env) (n me : nat) (mols : list (tri vec3)) :
  ((n = 0 /\ me = 2) \/ (n = 2 /\ me = 0))%nat ->
  vsum (flatten3 (map (redistributed env n) mols))
  = vadd (vadd (vscale (coef_N env) (vsum (map (tget n) mols)))
               (vscale (coef_C env) (vsum (map (@t1 vec3) mols))))
         (vscale (coef_Me env) (vsum (map (tget me) mols))).
Proof.
  intros Hor. induction mols as [|[a b c] mols IH].
  - simpl. vec.
  - cbn [map flatten3 flat_map tlist app vsum fold_right].
    fold (flatten3 (map (redistributed env n) mols)).
    fold (vsum (flatten3 (map (redistributed env n) mols))).
    fold (vsum (map (tget n) mols)). fold (vsum (map (@t1 vec3) mols)).
    fold (vsum (map (tget me) mols)).
    rewrite IH.
    destruct Hor as [[-> ->] | [-> ->]];
      cbn [redistributed tget t0 t1 t2];
      unfold new_N, new_Me, coef_N, coef_C, coef_Me; vec.
Qed.

(** C3, amended.  For every valid snapshot with all periodicity flags
    false and without point charges, the width of the switching shell not
    zero and no two sites of different molecules at one place,
    [calculate] returns; the forces accumulated before
    [redistribute_forces] add up to the zero vector; the forces returned
    after it add up to
    [coef_N * (sum of F_N) + coef_C * (sum of F_C) + coef_Me * (sum of F_Me)]
    of the accumulated forces (with [coef_N = 1 - (NN + NMe) MMeC CN],
    [coef_C = (NN + NMe) MMeN], [coef_Me = 1 - (NN + NMe) MCN CMe]),
    which is not zero in general. *)
Theorem newton_third_law (env : Env) (self : ACN) (atoms : Atoms)
    (Rm : list (tri vec3)) :
  pcpot self = None ->
  valid_snapshot atoms ->
  pbc atoms = T3 false false false ->
  width self <> 0 ->
  reshape3 (positions atoms) = Ok Rm ->
  distinct_sites Rm (diagonal (cell atoms)) (pbc atoms) ->
  exists n me e raw self',
    Calc.unconstrained env self atoms = Ok (n, me, e, raw, None) /\
    vsum raw = vzero /\
    Calc.calculate env self atoms = Ok self' /\
    results self'
    = Some {| energy := e;
              forces := Calc.redistribute_forces env n me raw |} /\
    vsum (Calc.redistribute_forces env n me raw)
    = vadd (vadd (vscale (coef_N env) (vsum (stride3 n raw)))
                 (vscale (coef_C env) (vsum (stride3 1 raw))))
           (vscale (coef_Me env) (vsum (stride3 me raw))).
Proof.
  intros Hpc Hv _ _ ERm0 _.
  destruct (@unconstrained_valid env self atoms Hpc Hv)
    as (Rm' & n & me & ERm & HRm & Hor & Hu).
  rewrite ERm0 in ERm. injection ERm as <-.
  destruct (pair_loop_balanced env self Rm (diagonal (cell atoms))
              (pbc atoms) (firstn 3 (get_initial_charges atoms)))
    as [HL HS].
  set (e := fst (Calc.pair_loop env self Rm (diagonal (cell atoms))
                   (pbc atoms) (firstn 3 (get_initial_charges atoms)))) in *.
  set (raw := snd (Calc.pair_loop env self Rm (diagonal (cell atoms))
                     (pbc atoms) (firstn 3 (get_initial_charges atoms)))) in *.
  exists n, me, e, raw.
  eexists. split; [exact Hu|]. split; [exact HS|].
  unfold Calc.calculate. rewrite Hu. cbn [bind].
  split; [reflexivity|]. split; [reflexivity|].
  destruct (@reshape3_multiple _ raw (length Rm) HL) as (mols & _ & _ & Emols).
  rewrite Emols.
  rewrite (@redistribute_molecules env n me mols Hor).
  rewrite (@redistributed_total env n me mols Hor).
  destruct (stride3_flatten3 mols) as (S0 & S1 & S2).
  destruct Hor as [[-> ->] | [-> ->]]; rewrite S0, S1, S2; reflexivity.
Qed.

Lemma newton_third_law_witness :
  exists n me e raw,
    Calc.unconstrained ase_env (Calc.init 5 1) uncharged_pair
    = Ok (n, me, e, raw, None) /\
    vsum raw = vzero.
Proof.
  destruct (@newton_third_law ase_env (Calc.init 5 1) uncharged_pair
              [molA; molB] eq_refl uncharged_pair_valid eq_refl
              (@unit_width 5) eq_refl uncharged_pair_distinct)
    as (n & me & e & raw & self' & H1 & H2 & _).
  exists n, me, e, raw. split; assumption.
Defined.

(* ================================================================== *)
(** ** The point charges inside [calculate] *)

Lemma tile_length (charges : list R) (nm : nat) :
  length (concat (repeat charges nm)) = (nm * length charges)%nat.
Proof.
  induction nm as [|nm IH]; simpl; [reflexivity|].
  rewrite length_app, IH. reflexivity.
Qed.

(** An attached potential with positions set goes through [calculate] on
    a valid snapshot, and comes out with the positions cleared and the
    charges unchanged. *)
Lemma attached_potential_cleared (env : Env) (self : ACN) (atoms : Atoms)
    (pc : PointChargePotential) (P : list vec3) :
  pcpot self = Some pc ->
  mmpositions pc = Some P ->
  valid_snapshot atoms ->
  exists self' pc',
    Calc.calculate env self atoms = Ok self' /\
    pcpot self' = Some pc' /\
    mmpositions pc' = None /\
    mmcharges pc' = mmcharges pc.
Proof.
  intros Hpc HP [Hseq Horth].
  destruct (@valid_sequence_checks _ Hseq)
    as (z0 & n & me & Hz & Hnm & Hor & Hall).
  destruct Hseq as (k & Hk & Hs).
  assert (HZ : length (numbers atoms) = (3 * k)%nat).
  { destruct Hs as [-> | ->]; rewrite flatten3_length, repeat_length;
      reflexivity. }
  assert (HL : length (positions atoms) = (3 * k)%nat)
    by (rewrite positions_length; exact HZ).
  destruct (@reshape3_multiple _ _ _ HL) as (Rm & ERm & HRm & _).
  assert (HQ : length (concat (repeat (firstn 3 (get_initial_charges atoms))
                                 (length Rm)))
               = length (positions atoms)).
  { rewrite tile_length, length_firstn, HL, HRm.
    unfold get_initial_charges. rewrite length_map.
    unfold numbers in HZ. rewrite length_map in HZ.
    replace (Nat.min 3 (length (atom_list atoms))) with 3%nat by lia.
    lia. }
  unfold Calc.calculate, Calc.unconstrained. rewrite ERm. cbn [bind].
  unfold py_assert at 1. cbn [truth].
  rewrite (@orthorhombic_check _ Horth). cbn [bind].
  rewrite Hz. cbn [bind]. rewrite Hnm.
  unfold py_assert. cbn [truth]. rewrite Hall. cbn [bind].
  rewrite prefix_charges, Hpc.
  destruct (Calc.pair_loop env self Rm (diagonal (cell atoms)) (pbc atoms)
              (firstn 3 (get_initial_charges atoms))) as [e f].
  unfold PCP.calculate. rewrite HP.
  destruct (@pcp_loop_returns env (mmcharges pc) P (zeros_like P)
              (concat (repeat (firstn 3 (get_initial_charges atoms))
                         (length Rm)))
              (positions atoms) 0 (zeros_like (positions atoms)) HQ)
    as [[e' f'] Hr].
  destruct (PCP.loop env (mmcharges pc) P (zeros_like P)
              (concat (repeat (firstn 3 (get_initial_charges atoms))
                         (length Rm)))
              (positions atoms) 0 (zeros_like (positions atoms)))
    as [F res].
  cbn [snd] in Hr. subst res. cbn [bind].
  eexists. eexists. split; [reflexivity|].
  cbn [pcpot mmpositions mmcharges]. auto.
Qed.

(* ================================================================== *)
(** ** The switching function as a function of the distance *)

(** The three regimes of one entry, in the shell coordinate [y]. *)
Lemma cut1_regimes (self : ACN) (d : R) :
  0 < width self ->
  let y := (d - rc self + width self) / width self in
  (y <= 0 /\ cut1 self d = 1 /\ dcut1 self d = 0) \/
  (0 < y < 1 /\ cut1 self d = 1 - y ^ 2 * (3 - 2 * y) /\
   dcut1 self d = - (6 / width self) * y * (1 - y)) \/
  (1 <= y /\ cut1 self d = 0 /\ dcut1 self d = 0).
Proof.
  intros Hw. cbv zeta.
  assert (Ey : (d - rc self + width self) / width self * width self
               = d - rc self + width self) by (field; lra).
  set (y := (d - rc self + width self) / width self) in *.
  unfold cut1, dcut1, Rgtb. fold y.
  destruct (Rlt_dec d (rc self)) as [H1|H1];
    destruct (Rlt_dec (rc self - width self) d) as [H2|H2].
  - right; left.
    rewrite (proj2 (Rltb_true _ _) H1), (proj2 (Rltb_true _ _) H2).
    cbn [andb]. repeat split; first [nra | ring].
  - left.
    rewrite (proj2 (Rltb_true _ _) H1).
    rewrite (proj2 (Rltb_false _ _)) by lra.
    cbn [andb]. repeat split; first [nra | ring].
  - right; right.
    rewrite (proj2 (Rltb_false d (rc self))) by lra.
    rewrite andb_false_r. repeat split; first [nra | ring].
  - exfalso. lra.
Qed.

(** Second-order bound of the smoothstep around any point. *)
Lemma cut1_taylor (self : ACN) (d h : R) :
  0 < width self ->
  Rabs (cut1 self (d + h) - cut1 self d - dcut1 self d * h)
  <= 3 * (h / width self) ^ 2.
Proof.
  intros Hw.
  pose proof (cut1_regimes self d Hw) as Hd.
  pose proof (cut1_regimes self (d + h) Hw) as Hh.
  cbv zeta in Hd, Hh.
  assert (Ek : (d + h - rc self + width self) / width self
               = (d - rc self + width self) / width self + h / width self)
    by (field; lra).
  rewrite Ek in Hh.
  assert (Eh : h = h / width self * width self) by (field; lra).
  set (y := (d - rc self + width self) / width self) in *.
  set (k := h / width self) in *.
  assert (El : - (6 / width self) * y * (1 - y) * h
               = - 6 * y * (1 - y) * k).
  { unfold k. field. lra. }
  clearbody y k. clear Ek Eh.
  apply Rabs_le.
  destruct Hd as [(Hy & -> & ->) | [(Hy & -> & ->) | (Hy & -> & ->)]];
    destruct Hh as [(Hk & -> & _) | [(Hk & -> & _) | (Hk & -> & _)]];
    try rewrite El; clear El; simpl.
  - split; nra.
  - (* from the plateau into the shell *)
    set (u := y + k) in *.
    assert (0 <= u * u * (3 - 2 * u)) by (apply Rmult_le_pos; nra).
    assert (u * u * (3 - 2 * u) <= 3 * (u * u)) by nra.
    assert (u * u <= k * k) by (unfold u in *; nra).
    split; nra.
  - split; nra.
  - (* from the shell back to the plateau *)
    set (t := - k - y).
    assert (Ht : 0 <= t) by (unfold t; lra).
    replace k with (- y - t) by (unfold t; ring).
    assert (0 <= y * (1 - y) * t) by (repeat apply Rmult_le_pos; lra).
    assert (0 <= y * y * t) by (repeat apply Rmult_le_pos; lra).
    assert (0 <= y * y * y) by (repeat apply Rmult_le_pos; lra).
    assert (y * y * y <= y * y) by nra.
    split; nra.
  - (* inside the shell *)
    assert (0 <= k * k) by nra.
    assert (Hc : k * k * (3 - 6 * y - 2 * k) <= k * k * 3).
    { apply Rmult_le_compat_l; nra. }
    assert (Hd : - (3 * (k * k)) <= k * k * (3 - 6 * y - 2 * k)).
    { replace (- (3 * (k * k))) with (k * k * (-3)) by ring.
      apply Rmult_le_compat_l; nra. }
    split; nra.
  - (* from the shell past the cutoff *)
    set (z := 1 - y) in *.
    set (t := k - z).
    assert (Ht : 0 <= t) by (unfold t, z; lra).
    replace y with (1 - z) by (unfold z; ring).
    replace k with (z + t) by (unfold t; ring).
    assert (Hz : 0 < z < 1) by (unfold z; lra).
    assert (0 <= z * (1 - z) * t) by (repeat apply Rmult_le_pos; lra).
    assert (0 <= z * z * t) by (repeat apply Rmult_le_pos; lra).
    assert (0 <= z * z * z) by (repeat apply Rmult_le_pos; lra).
    assert (z * z * z <= z * z) by nra.
    split; nra.
  - split; nra.
  - (* from beyond the cutoff into the shell *)
    set (u := y + k) in *.
    assert (E : 1 - u * (u * 1) * (3 - 2 * u)
                = (1 - u) * (1 - u) * (1 + 2 * u)) by ring.
    rewrite E.
    assert (0 <= (1 - u) * (1 - u) * (1 + 2 * u))
      by (apply Rmult_le_pos; nra).
    assert ((1 - u) * (1 - u) * (1 + 2 * u) <= 3 * ((1 - u) * (1 - u)))
      by nra.
    assert ((1 - u) * (1 - u) <= k * k) by (unfold u in *; nra).
    split; nra.
  - split; nra.
Qed.

(** X1. For a positive width, at every distance [d] the entry of the
    second array [cutoff] returns is the derivative, with respect to the
    distance, of the entry of the first: the weight is differentiable
    everywhere, the two boundaries of the shell included. *)
Theorem cutoff_derivative (self : ACN) (d : R) :
  0 < width self ->
  derivable_pt_lim (fun x => nth 0 (fst (Calc.cutoff self [x])) 0) d
    (nth 0 (snd (Calc.cutoff self [d])) 0).
Proof.
  intros Hw. unfold derivable_pt_lim. intros eps Heps.
  assert (Hd : 0 < eps * (width self * width self) / 3).
  { apply Rdiv_lt_0_compat; [|lra].
    repeat apply Rmult_lt_0_compat; assumption. }
  exists (mkposreal _ Hd). intros h Hh Hlt. cbn [pos] in Hlt.
  rewrite !cutoff_map. cbn [fst snd map nth].
  pose proof (cut1_taylor self d h Hw) as T.
  replace ((cut1 self (d + h) - cut1 self d) / h - dcut1 self d)
    with ((cut1 self (d + h) - cut1 self d - dcut1 self d * h) / h)
    by (field; exact Hh).
  unfold Rdiv at 1. rewrite Rabs_mult, Rabs_inv.
  assert (Ha : 0 < Rabs h) by (apply Rabs_pos_lt; exact Hh).
  apply Rmult_lt_reg_r with (Rabs h); [exact Ha|].
  rewrite Rmult_assoc, Rinv_l, Rmult_1_r by lra.
  eapply Rle_lt_trans; [exact T|].
  assert (E : 3 * (h / width self) ^ 2
              = 3 * (Rabs h * Rabs h) / (width self * width self)).
  { rewrite <- Rabs_mult, Rabs_right by nra. field. lra. }
  rewrite E.
  apply Rmult_lt_reg_r with (width self * width self); [nra|].
  unfold Rdiv. rewrite Rmult_assoc, Rinv_l, Rmult_1_r by nra.
  assert (Rabs h * (width self * width self)
          < eps * (width self * width self) / 3 * (width self * width self)).
  { apply Rmult_lt_compat_r; [nra | exact Hlt]. }
  assert (Hb : Rabs h * 3 < eps * (width self * width self)) by lra.
  replace (3 * (Rabs h * Rabs h)) with (Rabs h * (Rabs h * 3)) by ring.
  replace (eps * Rabs h * (width self * width self))
    with (Rabs h * (eps * (width self * width self))) by ring.
  apply Rmult_lt_compat_l; assumption.
Qed.

Lemma cutoff_derivative_witness :
  derivable_pt_lim
    (fun x => nth 0 (fst (Calc.cutoff (Calc.init 5 1) [x])) 0) 4.5
    (nth 0 (snd (Calc.cutoff (Calc.init 5 1) [4.5])) 0).
Proof.
  apply (@cutoff_derivative (Calc.init 5 1) 4.5). simpl. lra.
Defined.

Lemma cut1_monotone (self : ACN) (d1 d2 : R) :
  0 < width self -> d1 <= d2 ->
  0 <= cut1 self d2 /\ cut1 self d2 <= cut1 self d1 /\ cut1 self d1 <= 1.
Proof.
  intros Hw Hle.
  pose proof (cut1_regimes self d1 Hw) as H1.
  pose proof (cut1_regimes self d2 Hw) as H2.
  cbv zeta in H1, H2.
  assert (Hy : (d1 - rc self + width self) / width self
               <= (d2 - rc self + width self) / width self).
  { unfold Rdiv. apply Rmult_le_compat_r; [|lra].
    apply Rlt_le, Rinv_0_lt_compat, Hw. }
  set (y1 := (d1 - rc self + width self) / width self) in *.
  set (y2 := (d2 - rc self + width self) / width self) in *.
  clearbody y1 y2.
  assert (S : forall y, 0 < y < 1 -> 0 <= 1 - y ^ 2 * (3 - 2 * y) <= 1).
  { intros y Hy'. apply smoothstep_range. lra. }
  destruct H1 as [(A1 & -> & _) | [(A1 & -> & _) | (A1 & -> & _)]];
    destruct H2 as [(A2 & -> & _) | [(A2 & -> & _) | (A2 & -> & _)]];
    try (pose proof (S y1 A1)); try (pose proof (S y2 A2));
    try lra.
  (* both in the shell *)
  assert (0 <= (y2 - y1) * (y1 * (3 - 2 * y1 - y2) + y2 * (3 - 2 * y2 - y1))).
  { apply Rmult_le_pos; [lra|].
    apply Rplus_le_le_0_compat; apply Rmult_le_pos; lra. }
  simpl. repeat split; nra.
Qed.

Lemma dcut1_nonpos (self : ACN) (d : R) :
  0 < width self -> dcut1 self d <= 0.
Proof.
  intros Hw. pose proof (cut1_regimes self d Hw) as H. cbv zeta in H.
  destruct H as [(_ & _ & ->) | [(A & _ & ->) | (_ & _ & ->)]]; try lra.
  assert (0 < 6 / width self) by (apply Rdiv_lt_0_compat; lra).
  assert (0 <= 6 / width self *
               ((d - rc self + width self) / width self) *
               (1 - (d - rc self + width self) / width self)).
  { apply Rmult_le_pos; [apply Rmult_le_pos|]; lra. }
  lra.
Qed.

(** X2. For a positive width and any array of distances, the weights
    [cutoff] returns never increase with the distance (a larger distance
    never has a larger weight), all lie between 0 and 1, and no entry of
    the derivative array is positive. *)
Theorem cutoff_monotone (self : ACN) (d : list R) (i j : nat) (di dj : R) :
  0 < width self ->
  nth_error d i = Some di ->
  nth_error d j = Some dj ->
  di <= dj ->
  (exists ci cj,
     nth_error (fst (Calc.cutoff self d)) i = Some ci /\
     nth_error (fst (Calc.cutoff self d)) j = Some cj /\
     0 <= cj /\ cj <= ci /\ ci <= 1) /\
  Forall (fun x => x <= 0) (snd (Calc.cutoff self d)).
Proof.
  intros Hw Hi Hj Hle. rewrite cutoff_map. cbn [fst snd]. split.
  - exists (cut1 self di), (cut1 self dj).
    rewrite !nth_error_map, Hi, Hj. cbn [option_map].
    split; [reflexivity|]. split; [reflexivity|].
    apply cut1_monotone; assumption.
  - apply Forall_forall. intros x Hx. apply in_map_iff in Hx.
    destruct Hx as (dx & <- & _). apply dcut1_nonpos. exact Hw.
Qed.

Lemma cutoff_monotone_witness :
  Forall (fun x => x <= 0) (snd (Calc.cutoff (Calc.init 5 1) [3; 4.5; 6])).
Proof.
  apply (@cutoff_monotone (Calc.init 5 1) [3; 4.5; 6] 0 1 3 4.5);
    try reflexivity; simpl; lra.
Defined.

(* ================================================================== *)
(** ** The minimum image as a lattice operation *)

Lemma correction_lattice (d L : R) :
  correction d L = IZR (- Zfloor ((d + L / 2) / L)) * L.
Proof. unfold correction, npmod. rewrite opp_IZR. ring. Qed.

Lemma correction_shift (d L : R) (k : Z) :
  L <> 0 ->
  d + IZR k * L + correction (d + IZR k * L) L = d + correction d L.
Proof.
  intros HL. rewrite !correction_lattice.
  replace ((d + IZR k * L + L / 2) / L) with ((d + L / 2) / L + IZR k)
    by (field; exact HL).
  rewrite Zfloor_addz, !opp_IZR, plus_IZR. ring.
Qed.

Lemma correction_wrapped (d L : R) :
  0 < L -> correction (d + correction d L) L = 0.
Proof.
  intros HL.
  pose proof (npmod_range (d + L / 2) HL) as [H1 H2].
  assert (E : d + correction d L = npmod (d + L / 2) L - L / 2)
    by (unfold correction; ring).
  rewrite E. rewrite correction_lattice.
  replace ((npmod (d + L / 2) L - L / 2 + L / 2) / L)
    with (npmod (d + L / 2) L / L) by (field; lra).
  rewrite (@Zfloor_eq 0).
  - simpl. ring.
  - simpl. split.
    + apply Rmult_le_pos; [exact H1|]. apply Rlt_le, Rinv_0_lt_compat, HL.
    + apply Rmult_lt_reg_r with L; [exact HL|].
      unfold Rdiv. rewrite Rmult_assoc, Rinv_l by lra. lra.
Qed.

(** X3. With a nonzero cell length along every periodic axis, the
    correction [wrap] returns is, along every axis, a whole number of
    cell lengths, and zero of them along a non-periodic axis: a
    displacement is only ever moved by a lattice vector of the periodic
    axes. *)
Theorem wrap_lattice_vector (D : list vec3) (cell : vec3) (pbc : tri bool)
    (r : nat) (s : vec3) :
  (forall i, (i < 3)%nat -> tget i pbc = true -> vget i cell <> 0) ->
  nth_error (wrap D cell pbc) r = Some s ->
  exists kx ky kz : Z,
    s = V3 (IZR kx * vx cell) (IZR ky * vy cell) (IZR kz * vz cell) /\
    (t0 pbc = false -> kx = 0%Z) /\
    (t1 pbc = false -> ky = 0%Z) /\
    (t2 pbc = false -> kz = 0%Z).
Proof.
  intros _. rewrite wrap_rows, nth_error_map.
  destruct (nth_error D r) as [row|]; [|discriminate].
  cbn [option_map]. intros [= <-]. unfold wrap_row.
  exists (if t0 pbc then - Zfloor ((vx row + vx cell / 2) / vx cell) else 0)%Z,
         (if t1 pbc then - Zfloor ((vy row + vy cell / 2) / vy cell) else 0)%Z,
         (if t2 pbc then - Zfloor ((vz row + vz cell / 2) / vz cell) else 0)%Z.
  destruct (t0 pbc), (t1 pbc), (t2 pbc);
    rewrite ?correction_lattice;
    (split; [f_equal; ring|]);
    repeat split; intros H; first [discriminate H | reflexivity].
Qed.

Lemma wrap_lattice_vector_witness :
  exists kx ky kz : Z,
    V3 (-4) 0 0 = V3 (IZR kx * 4) (IZR ky * 4) (IZR kz * 4) /\
    ky = 0%Z /\ kz = 0%Z.
Proof.
  destruct (@wrap_lattice_vector [V3 3 0 0] (V3 4 4 4) (T3 true false false)
              0 (V3 (-4) 0 0)) as (kx & ky & kz & H & _ & Hy & Hz);
    [| | exists kx, ky, kz;
         split; [exact H | split; [apply Hy | apply Hz]; reflexivity]].
  { intros [|[|i]] _ _; simpl; lra. }
  rewrite wrap_rows. cbn [map nth_error]. unfold wrap_row.
  cbn [t0 t1 t2 vx vy vz]. rewrite correction_lattice.
  rewrite (@Zfloor_eq 1 ((3 + 4 / 2) / 4)) by (simpl; lra).
  do 2 f_equal. simpl. lra.
Defined.

(** X4. Moving every displacement by a lattice vector (whole numbers of
    cell lengths along periodic axes with a nonzero cell length, nothing
    along the others) does not change the wrapped displacements
    [D + wrap(D)]. *)
Theorem wrap_lattice_invariant (D : list vec3) (cell : vec3) (pbc : tri bool)
    (kx ky kz : Z) :
  (forall i, (i < 3)%nat -> tget i pbc = true -> vget i cell <> 0) ->
  (t0 pbc = false -> kx = 0%Z) ->
  (t1 pbc = false -> ky = 0%Z) ->
  (t2 pbc = false -> kz = 0%Z) ->
  let t := V3 (IZR kx * vx cell) (IZR ky * vy cell) (IZR kz * vz cell) in
  let D' := map (fun d => vadd d t) D in
  map2 vadd D' (wrap D' cell pbc) = map2 vadd D (wrap D cell pbc).
Proof.
  intros HL H0 H1 H2. cbv zeta. rewrite !wrap_rows.
  induction D as [|d D IH]; [reflexivity|].
  cbn [map map2]. rewrite IH. f_equal.
  unfold wrap_row. cbn [vadd vx vy vz].
  pose proof (HL 0%nat) as L0. pose proof (HL 1%nat) as L1.
  pose proof (HL 2%nat) as L2. cbn [tget vget] in L0, L1, L2.
  apply vec3_eq; cbn [vx vy vz].
  - destruct (t0 pbc).
    + apply correction_shift. apply L0; [lia | reflexivity].
    + rewrite (H0 eq_refl). simpl. ring.
  - destruct (t1 pbc).
    + apply correction_shift. apply L1; [lia | reflexivity].
    + rewrite (H1 eq_refl). simpl. ring.
  - destruct (t2 pbc).
    + apply correction_shift. apply L2; [lia | reflexivity].
    + rewrite (H2 eq_refl). simpl. ring.
Qed.

Lemma wrap_lattice_invariant_witness :
  let t := V3 (IZR 2 * 4) (IZR 0 * 4) (IZR 0 * 4) in
  let D' := map (fun d => vadd d t) [V3 1 2 3] in
  map2 vadd D' (wrap D' (V3 4 4 4) (T3 true false false))
  = map2 vadd [V3 1 2 3] (wrap [V3 1 2 3] (V3 4 4 4) (T3 true false false)).
Proof.
  apply (@wrap_lattice_invariant [V3 1 2 3] (V3 4 4 4) (T3 true false false)
           2 0 0); try (intros; first [reflexivity | discriminate]).
  intros i Hi _. destruct i as [|[|[|i]]]; simpl; lra.
Defined.

(** X5. With positive cell lengths along the periodic axes, wrapping is
    idempotent: the wrapped displacements [D + wrap(D)] need no further
    correction. *)
Theorem wrap_idempotent (D : list vec3) (cell : vec3) (pbc : tri bool) :
  (forall i, (i < 3)%nat -> tget i pbc = true -> 0 < vget i cell) ->
  wrap (map2 vadd D (wrap D cell pbc)) cell pbc = zeros_like D.
Proof.
  intros HL. rewrite !wrap_rows. unfold zeros_like.
  pose proof (HL 0%nat) as L0. pose proof (HL 1%nat) as L1.
  pose proof (HL 2%nat) as L2. cbn [tget vget] in L0, L1, L2.
  induction D as [|d D IH]; [reflexivity|].
  cbn [map map2]. rewrite IH. f_equal.
  unfold wrap_row, vzero. cbn [vadd vx vy vz].
  apply vec3_eq; cbn [vx vy vz].
  - destruct (t0 pbc); [|reflexivity].
    apply correction_wrapped. apply L0; [lia | reflexivity].
  - destruct (t1 pbc); [|reflexivity].
    apply correction_wrapped. apply L1; [lia | reflexivity].
  - destruct (t2 pbc); [|reflexivity].
    apply correction_wrapped. apply L2; [lia | reflexivity].
Qed.

Lemma wrap_idempotent_witness :
  wrap (map2 vadd [V3 3 0 (-7)]
          (wrap [V3 3 0 (-7)] (V3 4 4 0) (T3 true false false)))
    (V3 4 4 0) (T3 true false false)
  = zeros_like [V3 3 0 (-7)].
Proof.
  apply (@wrap_idempotent [V3 3 0 (-7)] (V3 4 4 0) (T3 true false false)).
  intros i Hi Hp.
  destruct i as [|[|[|i]]]; simpl in Hp; try discriminate; simpl; lra.
Defined.

(* ================================================================== *)
(** ** Like pairs in the combination rule *)

Lemma CombineLJ_entry (sigma epsilon : list R) (i j : nat) :
  length epsilon = length sigma ->
  (i < length sigma)%nat -> (j < length sigma)%nat ->
  entry (fst (CombineLJ_lorenz_berthelot sigma epsilon)) i j
  = (nth j sigma 0 + nth i sigma 0) / 2 /\
  entry (snd (CombineLJ_lorenz_berthelot sigma epsilon)) i j
  = sqrt (nth j epsilon 0 * nth i epsilon 0).
Proof.
  intros He Hi Hj. unfold CombineLJ_lorenz_berthelot.
  pose proof (@combine_loop
                (fun ii => map (fun s => (nth ii sigma 0 + s) / 2) sigma)
                (fun ii => map (fun e => sqrt (nth ii epsilon 0 * e)) epsilon)
                (length sigma) (seq 0 (length sigma))
                (zeros2 (length sigma)) (zeros2 (length sigma))) as L.
  cbn zeta in L.
  destruct L as (_ & _ & L3).
  - intros c. rewrite length_map. reflexivity.
  - intros c. rewrite length_map. exact He.
  - apply zeros2_square.
  - apply zeros2_square.
  - apply Forall_forall. intros c Hc. apply in_seq in Hc. lia.
  - destruct (L3 i j Hi) as [E1 E2].
    rewrite E1, E2, (existsb_seq Hj).
    rewrite !nth_map_lt by lia. split; reflexivity.
Qed.

(** X6. For vectors of one length and an index [i] in range, the
    diagonal of the combined arrays gives back the species' own
    parameters: [sigma_c[i,i] = sigma_i], and [epsilon_c[i,i] = epsilon_i]
    when [epsilon_i] is not negative (its absolute value otherwise). *)
Theorem CombineLJ_diagonal (sigma epsilon : list R) (i : nat) :
  length epsilon = length sigma ->
  (i < length sigma)%nat ->
  entry (fst (CombineLJ_lorenz_berthelot sigma epsilon)) i i = nth i sigma 0 /\
  entry (snd (CombineLJ_lorenz_berthelot sigma epsilon)) i i
  = Rabs (nth i epsilon 0) /\
  (0 <= nth i epsilon 0 ->
   entry (snd (CombineLJ_lorenz_berthelot sigma epsilon)) i i
   = nth i epsilon 0).
Proof.
  intros He Hi.
  destruct (@CombineLJ_entry sigma epsilon i i He Hi Hi) as [E1 E2].
  rewrite E1, E2. split; [lra|].
  assert (A : sqrt (nth i epsilon 0 * nth i epsilon 0)
              = Rabs (nth i epsilon 0)).
  { rewrite <- sqrt_Rsqr_abs. reflexivity. }
  split; [exact A|].
  intros Hpos. rewrite A. apply Rabs_right. lra.
Qed.

Lemma CombineLJ_diagonal_witness :
  entry (fst (CombineLJ_lorenz_berthelot [3; 5] [4; 9])) 1 1 = 5.
Proof.
  destruct (@CombineLJ_diagonal [3; 5] [4; 9] 1 eq_refl) as (H & _).
  - simpl. lia.
  - exact H.
Defined.

(* ================================================================== *)
(** ** Charge assignment *)

(** Entry [i] of an array after [a[start::3] = v]. *)
Lemma stride3_fill_nth (start : nat) (v : R) (a : list R) (i : nat) :
  (i < length a)%nat ->
  nth i (stride3_fill start v a) 0 =
  if ((start <=? i)%nat && ((i - start) mod 3 =? 0)%nat)%bool
  then v else nth i a 0.
Proof.
  revert start i. induction a as [|x a IH]; intros start i Hi;
    [simpl in Hi; lia|].
  simpl in Hi. destruct start as [|s]; destruct i as [|i].
  - reflexivity.
  - cbn [stride3_fill nth]. rewrite IH by lia.
    replace ((0 <=? S i)%nat && ((S i - 0) mod 3 =? 0)%nat)%bool
      with ((2 <=? i)%nat && ((i - 2) mod 3 =? 0)%nat)%bool; [reflexivity|].
    destruct (Nat.leb_spec 2 i) as [H2|H2]; cbn [andb].
    + replace (S i - 0)%nat with ((i - 2) + 1 * 3)%nat by lia.
      rewrite Nat.Div0.mod_add. reflexivity.
    + assert (Hc : i = 0%nat \/ i = 1%nat) by lia.
      destruct Hc as [-> | ->]; reflexivity.
  - reflexivity.
  - cbn [stride3_fill nth]. rewrite IH by lia.
    replace (S s <=? S i)%nat with (s <=? i)%nat by reflexivity.
    replace (S i - S s)%nat with (i - s)%nat by reflexivity.
    reflexivity.
Qed.

Lemma stride3_fill_length (start : nat) (v : R) (a : list R) :
  length (stride3_fill start v a) = length a.
Proof.
  revert start. induction a as [|x a IH]; intros [|s]; simpl; auto.
Qed.

(** [set_initial_charges] with one charge per atom touches nothing but
    the charges. *)
Lemma set_initial_charges_frame (charges : list R) (a : Atoms) :
  length charges = length (atom_list a) ->
  numbers (set_initial_charges charges a) = numbers a /\
  positions (set_initial_charges charges a) = positions a /\
  get_initial_charges (set_initial_charges charges a) = charges.
Proof.
  unfold numbers, positions, get_initial_charges, set_initial_charges.
  cbn [atom_list]. generalize (atom_list a). intros l. revert charges.
  induction l as [|x l IH]; intros [|q qs] H; simpl in H; try discriminate.
  - repeat split.
  - injection H as H. destruct (IH qs H) as (H1 & H2 & H3).
    cbn [map2 map number position initial_charge].
    rewrite H1, H2, H3. repeat split.
Qed.

(** What [set_acn_charges] returns, when [qmidx] is an index of the
    snapshot. *)
Lemma set_acn_charges_value (garbage : nat -> R) (atoms : Atoms)
    (qmidx : nat) (z : Z) :
  nth_error (numbers atoms) qmidx = Some z ->
  set_acn_charges garbage atoms qmidx =
  Ok (set_initial_charges
        (stride3_fill (if Z.eqb z 7 then qmidx else qmidx + 2)%nat qN
           (stride3_fill (qmidx + 1) qC
              (stride3_fill (if Z.eqb z 7 then qmidx + 2 else qmidx)%nat qMe
                 (np_empty garbage (length (atom_list atoms))))))
        atoms).
Proof.
  intros Hz. unfold set_acn_charges, index. rewrite Hz. cbn [bind].
  destruct (Z.eqb z 7); reflexivity.
Qed.

Lemma np_empty_nth (garbage : nat -> R) (n i : nat) :
  (i < n)%nat -> nth i (np_empty garbage n) 0 = garbage i.
Proof.
  intros H. unfold np_empty.
  rewrite (nth_indep _ 0 (garbage 0%nat)) by (rewrite length_map, length_seq; exact H).
  rewrite map_nth. rewrite seq_nth by exact H. reflexivity.
Qed.

(** X7. [set_acn_charges] raises IndexError exactly when [qmidx] is not
    an index of the snapshot (so on every empty snapshot); for every
    other input it returns, whatever the species are. *)
Theorem set_acn_charges_index (garbage : nat -> R) (atoms : Atoms)
    (qmidx : nat) :
  ((length (atom_list atoms) <= qmidx)%nat ->
   set_acn_charges garbage atoms qmidx = Raise IndexError) /\
  ((qmidx < length (atom_list atoms))%nat ->
   exists atoms', set_acn_charges garbage atoms qmidx = Ok atoms').
Proof.
  split; intros H.
  - unfold set_acn_charges, index.
    assert (E : nth_error (numbers atoms) qmidx = None).
    { apply nth_error_None. unfold numbers. rewrite length_map. exact H. }
    rewrite E. reflexivity.
  - destruct (nth_error (numbers atoms) qmidx) as [z|] eqn:E.
    + eexists. apply (@set_acn_charges_value garbage atoms qmidx z E).
    + apply nth_error_None in E. unfold numbers in E.
      rewrite length_map in E. lia.
Qed.

Lemma set_acn_charges_index_witness :
  set_acn_charges (fun _ => 0) one_molecule 3 = Raise IndexError.
Proof.
  apply (@set_acn_charges_index (fun _ => 0) one_molecule 3).
  simpl. lia.
Defined.

(** The entries of the charge array from [qmidx] on, after the three
    strided assignments. *)
Lemma acn_charges_nth (garbage : nat -> R) (n qmidx : nat) (b : bool)
    (i : nat) :
  (qmidx <= i < n)%nat ->
  nth i
    (stride3_fill (if b then qmidx else qmidx + 2)%nat qN
       (stride3_fill (qmidx + 1) qC
          (stride3_fill (if b then qmidx + 2 else qmidx)%nat qMe
             (np_empty garbage n)))) 0 =
  match ((i - qmidx) mod 3)%nat with
  | 0%nat => if b then qN else qMe
  | 1%nat => qC
  | _ => if b then qMe else qN
  end.
Proof.
  intros [Hq Hi].
  assert (Hm : ((i - qmidx) mod 3 < 3)%nat) by (apply Nat.mod_upper_bound; lia).
  assert (Hd : (i - qmidx = 3 * ((i - qmidx) / 3) + (i - qmidx) mod 3)%nat)
    by (apply Nat.div_mod_eq).
  set (r := ((i - qmidx) mod 3)%nat) in *.
  set (k := ((i - qmidx) / 3)%nat) in *.
  assert (A0 : ((qmidx <=? i)%nat && ((i - qmidx) mod 3 =? 0)%nat)%bool
               = (r =? 0)%nat).
  { fold r. replace (qmidx <=? i)%nat with true
      by (symmetry; apply Nat.leb_le; exact Hq). reflexivity. }
  assert (A1 : ((qmidx + 1 <=? i)%nat && ((i - (qmidx + 1)) mod 3 =? 0)%nat)%bool
               = (r =? 1)%nat).
  { destruct (Nat.leb_spec (qmidx + 1) i) as [H|H]; cbn [andb].
    - destruct r as [|[|[|r]]]; try lia.
      + replace (i - (qmidx + 1))%nat with (2 + (k - 1) * 3)%nat by lia.
        rewrite Nat.Div0.mod_add. reflexivity.
      + replace (i - (qmidx + 1))%nat with (0 + k * 3)%nat by lia.
        rewrite Nat.Div0.mod_add. reflexivity.
      + replace (i - (qmidx + 1))%nat with (1 + k * 3)%nat by lia.
        rewrite Nat.Div0.mod_add. reflexivity.
    - assert (r = 0%nat) by lia. rewrite H0. reflexivity. }
  assert (A2 : ((qmidx + 2 <=? i)%nat && ((i - (qmidx + 2)) mod 3 =? 0)%nat)%bool
               = (r =? 2)%nat).
  { destruct (Nat.leb_spec (qmidx + 2) i) as [H|H]; cbn [andb].
    - destruct r as [|[|[|r]]]; try lia.
      + replace (i - (qmidx + 2))%nat with (1 + (k - 1) * 3)%nat by lia.
        rewrite Nat.Div0.mod_add. reflexivity.
      + replace (i - (qmidx + 2))%nat with (2 + (k - 1) * 3)%nat by lia.
        rewrite Nat.Div0.mod_add. reflexivity.
      + replace (i - (qmidx + 2))%nat with (0 + k * 3)%nat by lia.
        rewrite Nat.Div0.mod_add. reflexivity.
    - assert (r = 0%nat \/ r = 1%nat) by lia.
      destruct H0 as [-> | ->]; reflexivity. }
  assert (HLe : (i < length (np_empty garbage n))%nat).
  { unfold np_empty. rewrite length_map, length_seq. exact Hi. }
  destruct b;
    rewrite !stride3_fill_nth by (rewrite ?stride3_fill_length; exact HLe);
    rewrite A0, A1, A2;
    destruct r as [|[|[|r]]]; try lia; reflexivity.
Qed.

Lemma acn_charges_length (garbage : nat -> R) (n s1 s2 s3 : nat) :
  length (stride3_fill s1 qN (stride3_fill s2 qC
            (stride3_fill s3 qMe (np_empty garbage n)))) = n.
Proof.
  rewrite !stride3_fill_length. unfold np_empty.
  rewrite length_map, length_seq. reflexivity.
Qed.

Lemma flatten3_repeat_nth (t : tri R) (k i : nat) :
  (i < 3 * k)%nat ->
  nth i (flatten3 (repeat t k)) 0 = tget (i mod 3) t.
Proof.
  revert i. induction k as [|k IH]; intros i Hi; [lia|].
  destruct i as [|[|[|i]]]; try reflexivity.
  change (flatten3 (repeat t (S k)))
    with (t0 t :: t1 t :: t2 t :: flatten3 (repeat t k)).
  cbn [nth]. rewrite IH by lia.
  replace (S (S (S i))) with (i + 1 * 3)%nat by lia.
  rewrite Nat.Div0.mod_add. reflexivity.
Qed.

Lemma rsum_flatten3_repeat (t : tri R) (k : nat) :
  rsum (flatten3 (repeat t k)) = INR k * (t0 t + t1 t + t2 t).
Proof.
  induction k as [|k IH]; [simpl; ring|].
  change (flatten3 (repeat t (S k)))
    with (t0 t :: t1 t :: t2 t :: flatten3 (repeat t k)).
  unfold rsum in *. cbn [fold_right]. rewrite IH, S_INR. ring.
Qed.

(** X8. When [set_acn_charges] returns, the snapshot keeps its
    numbers, positions, cell and periodicity; from [qmidx] on the charges
    repeat with period three: [qN, qC, qMe] when the atom at [qmidx] is a
    nitrogen, [qMe, qC, qN] otherwise.  Only the species of the atom at
    [qmidx] is read. *)
Theorem set_acn_charges_pattern (garbage : nat -> R) (atoms : Atoms)
    (qmidx : nat) (z : Z) :
  nth_error (numbers atoms) qmidx = Some z ->
  exists atoms',
    set_acn_charges garbage atoms qmidx = Ok atoms' /\
    numbers atoms' = numbers atoms /\
    positions atoms' = positions atoms /\
    cell atoms' = cell atoms /\ pbc atoms' = pbc atoms /\
    length (get_initial_charges atoms') = length (atom_list atoms) /\
    forall i, (qmidx <= i < length (atom_list atoms))%nat ->
      nth i (get_initial_charges atoms') 0 =
      match ((i - qmidx) mod 3)%nat with
      | 0%nat => if Z.eqb z 7 then qN else qMe
      | 1%nat => qC
      | _ => if Z.eqb z 7 then qMe else qN
      end.
Proof.
  intros Hz. eexists. split; [apply (@set_acn_charges_value _ _ _ _ Hz)|].
  match goal with
  | |- context [set_initial_charges ?c atoms] => set (ch := c)
  end.
  assert (HL : length ch = length (atom_list atoms)).
  { subst ch. rewrite !stride3_fill_length. unfold np_empty.
    rewrite length_map, length_seq. reflexivity. }
  destruct (@set_initial_charges_frame ch atoms HL) as (H1 & H2 & H3).
  split; [exact H1|]. split; [exact H2|].
  split; [reflexivity|]. split; [reflexivity|].
  rewrite H3. split; [exact HL|].
  intros i Hi. subst ch. apply acn_charges_nth. exact Hi.
Qed.

Lemma set_acn_charges_pattern_witness :
  exists atoms',
    set_acn_charges (fun _ => 0) uncharged_pair 0 = Ok atoms' /\
    numbers atoms' = numbers uncharged_pair.
Proof.
  destruct (@set_acn_charges_pattern (fun _ => 0) uncharged_pair 0 7%Z eq_refl)
    as (atoms' & H1 & H2 & _).
  exists atoms'. split; [exact H1 | exact H2].
Defined.

(** X9. The charges of the atoms before [qmidx] are not kept:
    [set_acn_charges] replaces them by the uninitialised entries of its
    [np.empty] array. *)
Theorem set_acn_charges_before_qmidx (garbage : nat -> R) (atoms : Atoms)
    (qmidx : nat) :
  (qmidx < length (atom_list atoms))%nat ->
  exists atoms',
    set_acn_charges garbage atoms qmidx = Ok atoms' /\
    forall i, (i < qmidx)%nat ->
      nth i (get_initial_charges atoms') 0 = garbage i.
Proof.
  intros Hq.
  destruct (nth_error (numbers atoms) qmidx) as [z|] eqn:Hz.
  2:{ apply nth_error_None in Hz. unfold numbers in Hz.
      rewrite length_map in Hz. lia. }
  eexists. split; [apply (@set_acn_charges_value _ _ _ _ Hz)|].
  match goal with
  | |- context [set_initial_charges ?c atoms] => set (ch := c)
  end.
  assert (HL : length ch = length (atom_list atoms)).
  { subst ch. rewrite !stride3_fill_length. unfold np_empty.
    rewrite length_map, length_seq. reflexivity. }
  destruct (@set_initial_charges_frame ch atoms HL) as (_ & _ & H3).
  rewrite H3. intros i Hi. subst ch.
  assert (HLe : (i < length (np_empty garbage (length (atom_list atoms))))%nat).
  { unfold np_empty. rewrite length_map, length_seq. lia. }
  assert (B0 : (qmidx <=? i)%nat = false) by (apply Nat.leb_gt; lia).
  assert (B1 : (qmidx + 1 <=? i)%nat = false) by (apply Nat.leb_gt; lia).
  assert (B2 : (qmidx + 2 <=? i)%nat = false) by (apply Nat.leb_gt; lia).
  destruct (Z.eqb z 7);
    rewrite !stride3_fill_nth by (rewrite ?stride3_fill_length; exact HLe);
    rewrite B0, B1, B2; cbn [andb]; apply np_empty_nth; lia.
Qed.

Lemma set_acn_charges_before_qmidx_witness :
  exists atoms',
    set_acn_charges (fun _ => 42) (two_molecules 0 0 0) 3 = Ok atoms' /\
    nth 0 (get_initial_charges atoms') 0 = 42.
Proof.
  destruct (@set_acn_charges_before_qmidx (fun _ => 42) (two_molecules 0 0 0) 3)
    as (atoms' & H1 & H2).
  - simpl. lia.
  - exists atoms'. split; [exact H1|]. apply H2. lia.
Defined.

(** X10. On a snapshot of [k] whole triplets, [set_acn_charges] with
    the default [qmidx = 0] writes the same three charges on every
    triplet, in the order given by the species of the first atom, nothing
    of the uninitialised array is left, and the total charge is zero. *)
Theorem set_acn_charges_neutral (garbage : nat -> R) (atoms : Atoms)
    (k : nat) (z : Z) :
  length (atom_list atoms) = (3 * k)%nat ->
  nth_error (numbers atoms) 0 = Some z ->
  exists atoms',
    set_acn_charges garbage atoms 0 = Ok atoms' /\
    get_initial_charges atoms' =
      flatten3 (repeat (if Z.eqb z 7 then T3 qN qC qMe else T3 qMe qC qN) k) /\
    rsum (get_initial_charges atoms') = 0.
Proof.
  intros HL Hz.
  eexists. split; [apply (@set_acn_charges_value _ _ _ _ Hz)|].
  match goal with
  | |- context [set_initial_charges ?c atoms] => set (ch := c)
  end.
  assert (HLc : length ch = length (atom_list atoms)).
  { subst ch. apply acn_charges_length. }
  destruct (@set_initial_charges_frame ch atoms HLc) as (_ & _ & H3).
  rewrite H3.
  assert (E : ch = flatten3
                (repeat (if Z.eqb z 7 then T3 qN qC qMe else T3 qMe qC qN) k)).
  { apply (nth_ext _ _ 0 0).
    - rewrite HLc, HL, flatten3_length, repeat_length. reflexivity.
    - intros i Hi. rewrite HLc in Hi. subst ch.
      rewrite acn_charges_nth by lia.
      rewrite flatten3_repeat_nth by lia.
      rewrite Nat.sub_0_r.
      assert (Hm : (i mod 3 < 3)%nat) by (apply Nat.mod_upper_bound; lia).
      destruct (i mod 3)%nat as [|[|[|r]]]; try lia;
        destruct (Z.eqb z 7); reflexivity. }
  split; [exact E|].
  rewrite E, rsum_flatten3_repeat.
  destruct (Z.eqb z 7); cbn [t0 t1 t2]; unfold qN, qC, qMe; lra.
Qed.

Lemma set_acn_charges_neutral_witness :
  exists atoms',
    set_acn_charges (fun _ => 42) uncharged_pair 0 = Ok atoms' /\
    rsum (get_initial_charges atoms') = 0.
Proof.
  destruct (@set_acn_charges_neutral (fun _ => 42) uncharged_pair 2 7%Z
              eq_refl eq_refl) as (atoms' & H1 & _ & H3).
  exists atoms'. split; [exact H1 | exact H3].
Defined.

(* ================================================================== *)
(** ** Redistribution as a linear map and as a lever rule *)

Lemma flatten3_map2 (f : vec3 -> vec3 -> vec3) (A B : list (tri vec3)) :
  length A = length B ->
  map2 f (flatten3 A) (flatten3 B) = flatten3 (map2 (tmap2 f) A B).
Proof.
  revert B; induction A as [|a A IH]; intros [|b B] H; simpl in *;
    try discriminate; [reflexivity|].
  fold (flatten3 A). fold (flatten3 B). rewrite IH by lia. reflexivity.
Qed.

Lemma flatten3_map (f : vec3 -> vec3) (A : list (tri vec3)) :
  map f (flatten3 A) = flatten3 (map (tmap f) A).
Proof.
  induction A as [|a A IH]; simpl; [reflexivity|].
  fold (flatten3 A). rewrite IH. reflexivity.
Qed.

Lemma redistributed_add (env : Env) (n : nat) (a b : tri vec3) :
  (n = 0 \/ n = 2)%nat ->
  redistributed env n (tmap2 vadd a b)
  = tmap2 vadd (redistributed env n a) (redistributed env n b).
Proof.
  intros [-> | ->]; unfold redistributed, tmap2, new_N, new_Me;
    cbn [t0 t1 t2]; f_equal; apply vec3_eq; simpl; ring.
Qed.

Lemma redistributed_scale (env : Env) (n : nat) (k : R) (a : tri vec3) :
  (n = 0 \/ n = 2)%nat ->
  redistributed env n (tmap (vscale k) a)
  = tmap (vscale k) (redistributed env n a).
Proof.
  intros [-> | ->]; unfold redistributed, tmap, new_N, new_Me;
    cbn [t0 t1 t2]; f_equal; apply vec3_eq; simpl; ring.
Qed.

(** X11. On arrays of whole molecules, in either ordering,
    [redistribute_forces] is linear: the redistribution of a sum of two
    force arrays of one shape is the sum of the redistributions, and the
    redistribution of a scaled array is the scaled redistribution. *)
Theorem redistribute_forces_linear (env : Env) (n me : nat)
    (f g : list vec3) (nm : nat) (k : R) :
  ((n = 0 /\ me = 2) \/ (n = 2 /\ me = 0))%nat ->
  length f = (3 * nm)%nat ->
  length g = (3 * nm)%nat ->
  Calc.redistribute_forces env n me (map2 vadd f g)
  = map2 vadd (Calc.redistribute_forces env n me f)
      (Calc.redistribute_forces env n me g) /\
  Calc.redistribute_forces env n me (map (vscale k) f)
  = map (vscale k) (Calc.redistribute_forces env n me f).
Proof.
  intros Hor Hf Hg.
  destruct (@reshape3_multiple _ f nm Hf) as (A & _ & HA & ->).
  destruct (@reshape3_multiple _ g nm Hg) as (B & _ & HB & ->).
  assert (Hn : (n = 0 \/ n = 2)%nat) by (destruct Hor as [[? _]|[? _]]; auto).
  split.
  - rewrite flatten3_map2 by lia.
    rewrite !(@redistribute_molecules env n me) by exact Hor.
    rewrite flatten3_map2 by (rewrite !length_map; lia).
    f_equal.
    clear Hf Hg. revert B HB. generalize dependent nm.
    induction A as [|a A IH]; intros nm HA [|b B] HB; simpl in *;
      try reflexivity; try lia.
    rewrite (redistributed_add env a b Hn). f_equal.
    apply (IH (length A) eq_refl B). lia.
  - rewrite flatten3_map.
    rewrite !(@redistribute_molecules env n me) by exact Hor.
    rewrite flatten3_map, !map_map. f_equal.
    apply map_ext. intros a. apply redistributed_scale. exact Hn.
Qed.

Lemma redistribute_forces_linear_witness :
  Calc.redistribute_forces ase_env 0 2
    (map (vscale 2) [V3 1 0 0; V3 0 1 0; V3 0 0 1])
  = map (vscale 2)
      (Calc.redistribute_forces ase_env 0 2 [V3 1 0 0; V3 0 1 0; V3 0 0 1]).
Proof.
  apply (@redistribute_forces_linear ase_env 0 2
           [V3 1 0 0; V3 0 1 0; V3 0 0 1] [vzero; vzero; vzero] 1 2
           (or_introl (conj eq_refl eq_refl)) eq_refl eq_refl).
Defined.

Lemma lever_rule (env : Env) (fN fC fMe : vec3) :
  positive_masses env ->
  vadd (vscale (1 + mC env * CN ^ 2 / mN env) (new_N env fN fC fMe))
       (vscale (mC env * CMe * CN / mMe env) (new_Me env fN fC fMe))
  = vadd fN (vscale CN fC) /\
  vadd (vscale (1 + mC env * CMe ^ 2 / mMe env) (new_Me env fN fC fMe))
       (vscale (mC env * CMe * CN / mN env) (new_N env fN fC fMe))
  = vadd fMe (vscale CMe fC).
Proof.
  intros HP. pose proof (denominator_pos HP) as HD.
  destruct HP as (H1 & H6 & H7).
  destruct bond_ratios as (Ha & Hb & Hab).
  assert (HmN : mN env <> 0) by (unfold mN; lra).
  assert (HmMe : mMe env <> 0) by (unfold mMe; lra).
  unfold new_N, new_Me, NN, NMe.
  set (D := CMe ^ 2 * MCN env + CN ^ 2 * MMeC env + MMeN env) in *.
  assert (HD' : D <> 0) by lra.
  assert (E : D = CMe ^ 2 * MCN env + CN ^ 2 * MMeC env + MMeN env)
    by reflexivity.
  unfold MCN, MMeC, MMeN in *.
  replace CN with (1 - CMe) in * by lra.
  clearbody D.
  split; apply vec3_eq; simpl; (field_simplify_eq; [|auto]); subst D; ring.
Qed.

(** X12. For positive masses, every molecule [m] and either ordering: the
    two forces [redistribute_forces] writes are the ones that, taken
    through the mass matrix of the two end sites carrying the carbon
    ([r_C = CN r_N + CMe r_Me]), give the lever rule:
    [(1 + mC CN^2 / mN) F'_N + (mC CMe CN / mMe) F'_Me = F_N + CN F_C] and
    [(1 + mC CMe^2 / mMe) F'_Me + (mC CMe CN / mN) F'_N = F_Me + CMe F_C]. *)
Theorem redistribute_forces_lever_rule (env : Env) (n me : nat)
    (mols : list (tri vec3)) (m : nat) (f : tri vec3) :
  positive_masses env ->
  ((n = 0 /\ me = 2) \/ (n = 2 /\ me = 0))%nat ->
  nth_error mols m = Some f ->
  exists out g,
    reshape3 (Calc.redistribute_forces env n me (flatten3 mols)) = Ok out /\
    nth_error out m = Some g /\
    vadd (vscale (1 + mC env * CN ^ 2 / mN env) (tget n g))
         (vscale (mC env * CMe * CN / mMe env) (tget me g))
    = vadd (tget n f) (vscale CN (t1 f)) /\
    vadd (vscale (1 + mC env * CMe ^ 2 / mMe env) (tget me g))
         (vscale (mC env * CMe * CN / mN env) (tget n g))
    = vadd (tget me f) (vscale CMe (t1 f)).
Proof.
  intros HP Hor Hm.
  exists (map (redistributed env n) mols), (redistributed env n f).
  rewrite (@redistribute_molecules env n me mols Hor), reshape3_flatten3.
  rewrite nth_error_map, Hm.
  split; [reflexivity|]. split; [reflexivity|].
  destruct Hor as [[-> ->] | [-> ->]]; cbn [redistributed tget t0 t1 t2];
    apply lever_rule; exact HP.
Qed.

Lemma redistribute_forces_lever_rule_witness :
  exists out g,
    reshape3 (Calc.redistribute_forces ase_env 0 2
                (flatten3 [T3 (V3 1 0 0) (V3 0 1 0) vzero])) = Ok out /\
    nth_error out 0 = Some g /\
    vadd (vscale (1 + mC ase_env * CN ^ 2 / mN ase_env) (tget 0 g))
         (vscale (mC ase_env * CMe * CN / mMe ase_env) (tget 2 g))
    = vadd (V3 1 0 0) (vscale CN (V3 0 1 0)).
Proof.
  destruct (@redistribute_forces_lever_rule ase_env 0 2
              [T3 (V3 1 0 0) (V3 0 1 0) vzero] 0
              (T3 (V3 1 0 0) (V3 0 1 0) vzero) ase_env_masses
              (or_introl (conj eq_refl eq_refl)) eq_refl)
    as (out & g & H1 & H2 & H3 & _).
  exists out, g. auto.
Defined.

(* ================================================================== *)
(** ** What [calculate] rejects, and with which exception *)

Lemma reshape3_outcome {A} (l : list A) :
  (exists Rm, reshape3 l = Ok Rm /\ length l = (3 * length Rm)%nat) \/
  (reshape3 l = Raise ValueError /\ (length l mod 3 <> 0)%nat).
Proof.
  assert (G : forall k (l : list A), (length l < k)%nat ->
            (exists Rm, reshape3 l = Ok Rm /\ length l = (3 * length Rm)%nat) \/
            (reshape3 l = Raise ValueError /\ (length l mod 3 <> 0)%nat)).
  { clear l. induction k as [|k IH]; intros l Hk; [lia|].
    destruct l as [|a [|b [|c l]]].
    - left. exists []. auto.
    - right. split; [reflexivity|]. simpl. lia.
    - right. split; [reflexivity|]. simpl. lia.
    - destruct (IH l) as [(Rm & E & HL) | (E & HL)]; [simpl in Hk; lia | |].
      + left. exists (T3 a b c :: Rm). cbn [reshape3]. rewrite E.
        split; [reflexivity|]. simpl in *. lia.
      + right. cbn [reshape3]. rewrite E. split; [reflexivity|].
        change (length (a :: b :: c :: l)) with (3 + length l)%nat.
        intros H. apply HL.
        replace (3 + length l)%nat with (length l + 1 * 3)%nat in H by lia.
        rewrite Nat.Div0.mod_add in H. exact H. }
  apply (G (S (length l))). lia.
Qed.

Lemma orthorhombic_check_iff (c : tri vec3) :
  ndarray_all (mat_eqb c (np_diag (diagonal c))) = true <-> orthorhombic c.
Proof.
  split; [|apply orthorhombic_check].
  destruct c as [[a0 a1 a2] [b0 b1 b2] [c0 c1 c2]].
  unfold orthorhombic, mat_eqb, veqb, np_diag, diagonal, ndarray_all.
  cbn [t0 t1 t2 vx vy vz app forallb].
  rewrite !andb_true_iff, !Reqb_true.
  intros (_ & -> & -> & -> & _ & -> & -> & -> & _ & _). reflexivity.
Qed.

Lemma ndarray_all_Forall (z : Z) (l : list Z) :
  ndarray_all (map (fun x => Z.eqb x z) l) = true <-> Forall (fun x => x = z) l.
Proof.
  unfold ndarray_all. induction l as [|x l IH]; simpl.
  - split; auto.
  - rewrite andb_true_iff, IH, Z.eqb_eq. split.
    + intros [-> H]. constructor; auto.
    + intros H. inversion H; subst. auto.
Qed.

Lemma unconstrained_atom_count (env : Env) (self : ACN) (atoms : Atoms) :
  (length (atom_list atoms) mod 3 <> 0)%nat ->
  Calc.unconstrained env self atoms = Raise ValueError.
Proof.
  intros H. unfold Calc.unconstrained.
  destruct (reshape3_outcome (positions atoms)) as [(Rm & _ & HL) | (E & _)].
  - exfalso. apply H. unfold positions in HL. rewrite length_map in HL.
    rewrite HL, Nat.mul_comm. apply Nat.Div0.mod_mul.
  - rewrite E. reflexivity.
Qed.

(** X13. A snapshot whose number of atoms is not a multiple of three is
    rejected with ValueError (from the reshape), before any of the
    assertions, whatever its cell and species and with or without point
    charges. *)
Theorem calculate_atom_count (env : Env) (self : ACN) (atoms : Atoms) :
  (length (atom_list atoms) mod 3 <> 0)%nat ->
  Calc.calculate env self atoms = Raise ValueError.
Proof.
  intros H. unfold Calc.calculate.
  rewrite (@unconstrained_atom_count env self atoms H). reflexivity.
Qed.

Lemma calculate_atom_count_witness :
  Calc.calculate ase_env (Calc.init 5 1)
    {| atom_list := firstn 4 (atom_list uncharged_pair);
       cell := T3 vzero vzero vzero; pbc := T3 false false false |}
  = Raise ValueError.
Proof.
  apply (@calculate_atom_count ase_env (Calc.init 5 1)
           {| atom_list := firstn 4 (atom_list uncharged_pair);
              cell := T3 vzero vzero vzero; pbc := T3 false false false |}).
  simpl. lia.
Defined.

(** X14. A snapshot of whole triplets whose cell is not diagonal is
    rejected with the assertion 'not orthorhombic', whatever its species
    (an empty snapshot included). *)
Theorem calculate_not_orthorhombic (env : Env) (self : ACN) (atoms : Atoms) :
  (length (atom_list atoms) mod 3 = 0)%nat ->
  ~ orthorhombic (cell atoms) ->
  Calc.calculate env self atoms = Raise (AssertionError "not orthorhombic").
Proof.
  intros H Hn. unfold Calc.calculate, Calc.unconstrained.
  destruct (reshape3_outcome (positions atoms)) as [(Rm & E & _) | (_ & HL)].
  - rewrite E. cbn [bind]. unfold py_assert at 1. cbn [truth].
    destruct (ndarray_all (mat_eqb (cell atoms)
                (np_diag (diagonal (cell atoms))))) eqn:Eo.
    + exfalso. apply Hn. apply orthorhombic_check_iff. exact Eo.
    + reflexivity.
  - exfalso. apply HL. unfold positions. rewrite length_map. exact H.
Qed.

Lemma calculate_not_orthorhombic_witness :
  Calc.calculate ase_env (Calc.init 5 1)
    {| atom_list := atom_list uncharged_pair;
       cell := T3 (V3 10 1 0) (V3 0 10 0) (V3 0 0 10);
       pbc := T3 true true true |}
  = Raise (AssertionError "not orthorhombic").
Proof.
  apply (@calculate_not_orthorhombic ase_env (Calc.init 5 1)
           {| atom_list := atom_list uncharged_pair;
              cell := T3 (V3 10 1 0) (V3 0 10 0) (V3 0 0 10);
              pbc := T3 true true true |}).
  - reflexivity.
  - unfold orthorhombic. simpl. intros H.
    injection H as H. lra.
Defined.

(** X15. An empty snapshot with a diagonal cell is rejected with
    IndexError (at [Z[0]]). *)
Theorem calculate_empty (env : Env) (self : ACN) (atoms : Atoms) :
  atom_list atoms = [] ->
  orthorhombic (cell atoms) ->
  Calc.calculate env self atoms = Raise IndexError.
Proof.
  intros H Ho. unfold Calc.calculate, Calc.unconstrained, positions, numbers.
  rewrite H. cbn [map reshape3 bind]. unfold py_assert at 1. cbn [truth].
  rewrite (@orthorhombic_check _ Ho). reflexivity.
Qed.

Lemma calculate_empty_witness :
  Calc.calculate ase_env (Calc.init 5 1)
    {| atom_list := []; cell := T3 vzero vzero vzero;
       pbc := T3 false false false |}
  = Raise IndexError.
Proof.
  apply (@calculate_empty ase_env (Calc.init 5 1)
           {| atom_list := []; cell := T3 vzero vzero vzero;
              pbc := T3 false false false |} eq_refl eq_refl).
Defined.

(** X16. For a snapshot of whole triplets with a diagonal cell: with
    [n = 0] when the first atom is a nitrogen and [n = 2] otherwise, an
    atom at offset [n] of any triplet that is not a nitrogen makes
    [calculate] fail with the assertion 'Not the correct atoms
    sequence'. *)
Theorem calculate_nitrogen_offset (env : Env) (self : ACN) (atoms : Atoms)
    (z0 z : Z) :
  (length (atom_list atoms) mod 3 = 0)%nat ->
  orthorhombic (cell atoms) ->
  nth_error (numbers atoms) 0 = Some z0 ->
  In z (stride3 (if Z.eqb z0 7 then 0 else 2)%nat (numbers atoms)) ->
  z <> 7%Z ->
  Calc.calculate env self atoms = Raise (AssertionError seq_msg).
Proof.
  intros H Ho Hz Hin Hne. unfold Calc.calculate, Calc.unconstrained.
  destruct (reshape3_outcome (positions atoms)) as [(Rm & E & _) | (_ & HL)].
  - rewrite E. cbn [bind]. unfold py_assert at 1. cbn [truth].
    rewrite (@orthorhombic_check _ Ho). cbn [bind].
    unfold index. rewrite Hz. cbn [bind].
    destruct (Z.eqb z0 7); unfold py_assert at 1; cbn [truth];
      match goal with
      | |- context [ndarray_all ?l] => destruct (ndarray_all l) eqn:Ea
      end; try reflexivity;
      apply ndarray_all_Forall in Ea; rewrite Forall_forall in Ea;
      exfalso; apply Hne; apply Ea; exact Hin.
  - exfalso. apply HL. unfold positions. rewrite length_map. exact H.
Qed.

Lemma calculate_nitrogen_offset_witness :
  Calc.calculate ase_env (Calc.init 5 1) no_nitrogen
  = Raise (AssertionError seq_msg).
Proof.
  apply (@calculate_nitrogen_offset ase_env (Calc.init 5 1) no_nitrogen
           6%Z 6%Z eq_refl eq_refl eq_refl).
  - simpl. auto.
  - discriminate.
Defined.

(** X17. Without point charges and with a width of the switching
    shell that is not zero, [calculate] returns exactly on the
    snapshots that have a whole number of triplets, at least one atom, a
    diagonal cell and a nitrogen at offset [n] of every triplet ([n = 0]
    when the first atom is a nitrogen, [n = 2] otherwise); the species at
    the two other offsets play no part. *)
Theorem calculate_accepts_iff (env : Env) (self : ACN) (atoms : Atoms) :
  pcpot self = None ->
  width self <> 0 ->
  ((exists self', Calc.calculate env self atoms = Ok self') <->
   ((length (atom_list atoms) mod 3 = 0)%nat /\
    orthorhombic (cell atoms) /\
    exists z0, nth_error (numbers atoms) 0 = Some z0 /\
      Forall (fun z => z = 7%Z)
        (stride3 (if Z.eqb z0 7 then 0 else 2)%nat (numbers atoms)))).
Proof.
  intros Hpc _. split.
  - intros [self' Hc].
    destruct (Nat.eq_dec (length (atom_list atoms) mod 3) 0) as [Hm|Hm].
    2:{ unfold Calc.calculate in Hc.
        rewrite (@unconstrained_atom_count env self atoms Hm) in Hc.
        discriminate. }
    split; [exact Hm|].
    revert Hc. unfold Calc.calculate, Calc.unconstrained.
    destruct (reshape3 (positions atoms)) as [Rm|ex]; [|discriminate].
    cbn [bind]. unfold py_assert at 1. cbn [truth].
    destruct (ndarray_all (mat_eqb (cell atoms)
                (np_diag (diagonal (cell atoms))))) eqn:Eo; [|discriminate].
    cbn [bind]. unfold index.
    destruct (nth_error (numbers atoms) 0) as [z0|]; [|discriminate].
    cbn [bind]. intros Hc.
    split; [apply orthorhombic_check_iff; exact Eo|].
    exists z0. split; [reflexivity|].
    destruct (Z.eqb z0 7); unfold py_assert at 1 in Hc; cbn [truth] in Hc;
      match type of Hc with
      | context [ndarray_all ?l] => destruct (ndarray_all l) eqn:Ea
      end; try discriminate; apply ndarray_all_Forall; exact Ea.
  - intros (Hm & Ho & z0 & Hz & Hall).
    unfold Calc.calculate, Calc.unconstrained.
    destruct (reshape3_outcome (positions atoms)) as [(Rm & E & _) | (_ & HL)].
    2:{ exfalso. apply HL. unfold positions. rewrite length_map. exact Hm. }
    rewrite E. cbn [bind]. unfold py_assert at 1. cbn [truth].
    rewrite (@orthorhombic_check _ Ho). cbn [bind].
    unfold index. rewrite Hz. cbn [bind].
    apply ndarray_all_Forall in Hall.
    destruct (Z.eqb z0 7); unfold py_assert; cbn [truth]; rewrite Hall;
      cbn [bind]; rewrite Hpc;
      match goal with
      | |- context [Calc.pair_loop ?a ?b ?c ?d ?e ?f] =>
          destruct (Calc.pair_loop a b c d e f) as [en fo]
      end; cbn [bind]; eexists; reflexivity.
Qed.

Lemma calculate_accepts_iff_witness :
  exists self', Calc.calculate ase_env (Calc.init 5 1) uncharged_pair = Ok self'.
Proof.
  apply (proj2 (@calculate_accepts_iff ase_env (Calc.init 5 1) uncharged_pair
                  eq_refl (@unit_width 5))).
  split; [reflexivity|]. split; [reflexivity|].
  exists 7%Z. split; [reflexivity|].
  repeat constructor.
Defined.

(* ================================================================== *)
(** ** Molecules beyond the cutoff *)

Lemma vscale_zero_l (v : vec3) : vscale 0 v = vzero.
Proof. apply vec3_eq; simpl; ring. Qed.

Lemma map2_vadd_zeros (l zs : list vec3) :
  Forall (fun z => z = vzero) zs -> length zs = length l ->
  map2 vadd l zs = l.
Proof.
  intros HF. revert l; induction HF as [|z zs Hz HF IH]; intros [|x l] HL;
    simpl in *; try discriminate; [reflexivity|].
  subst z. rewrite vadd_zero_r, IH by lia. reflexivity.
Qed.

Lemma tail_upd_zeros (s : nat) (zs l : list vec3) :
  Forall (fun z => z = vzero) zs -> (s + length zs = length l)%nat ->
  tail_upd vadd s zs l = l.
Proof.
  intros HF HL. unfold tail_upd.
  rewrite map2_vadd_zeros by (try rewrite length_skipn; auto; lia).
  apply firstn_skipn.
Qed.

Lemma stride3_upd_zeros (s : nat) (zs l : list vec3) :
  Forall (fun z => z = vzero) zs -> stride3_upd vadd s zs l = l.
Proof.
  revert s zs; induction l as [|x l IH]; intros s zs HF; [reflexivity|].
  destruct s as [|s]; cbn [stride3_upd].
  - destruct zs as [|z zs]; [reflexivity|].
    inversion HF; subst. rewrite vadd_zero_r, IH by assumption. reflexivity.
  - rewrite IH by assumption. reflexivity.
Qed.

Lemma upd_at_sub_zero (i : nat) (l : list vec3) :
  upd_at (fun f => vsub f vzero) i l = l.
Proof.
  revert i; induction l as [|x l IH]; intros [|i]; simpl; try reflexivity.
  - f_equal. apply vec3_eq; simpl; ring.
  - rewrite IH. reflexivity.
Qed.

Lemma vsum_zeros (zs : list vec3) :
  Forall (fun z => z = vzero) zs -> vsum zs = vzero.
Proof.
  induction 1 as [|z zs Hz HF IH]; [reflexivity|].
  simpl. fold (vsum zs). rewrite IH, Hz. apply vadd_zero_r.
Qed.

Lemma flatten3_zeros (F : list (tri vec3)) :
  Forall (fun t => t = Calc.mol0) F ->
  Forall (fun z => z = vzero) (flatten3 F).
Proof.
  induction 1 as [|t F Ht HF IH]; [constructor|].
  subst t. simpl. repeat constructor. exact IH.
Qed.

(** With zero force arrays the four updates change nothing. *)
Lemma accumulate_zeros (nm m j : nat) (F : list (tri vec3))
    (Fmm : list vec3) (forces : list vec3) :
  length forces = (3 * nm)%nat ->
  (m + 1 + length F = nm)%nat ->
  Forall (fun t => t = Calc.mol0) F ->
  Forall (fun z => z = vzero) Fmm ->
  Calc.accumulate m j F Fmm forces = forces.
Proof.
  intros HL HF ZF ZM. unfold Calc.accumulate.
  rewrite tail_upd_zeros
    by (try apply flatten3_zeros; try rewrite flatten3_length; auto; lia).
  rewrite sum_axis0_flatten3, (vsum_zeros (flatten3_zeros ZF)).
  rewrite upd_at_sub_zero, stride3_upd_zeros by exact ZM.
  rewrite (vsum_zeros ZM). apply upd_at_sub_zero.
Qed.

Lemma Forall_map2 {A B C} (P : C -> Prop) (f : A -> B -> C)
    (a : list A) (b : list B) :
  (forall x y, In x a -> In y b -> P (f x y)) ->
  Forall P (map2 f a b).
Proof.
  revert b; induction a as [|x a IH]; intros [|y b] H; simpl;
    try constructor.
  - apply H; simpl; auto.
  - apply IH. intros x' y' Hx Hy. apply H; simpl; auto.
Qed.

Lemma rsum_mul_zeros (k : nat) (xs : list R) :
  rsum (map2 Rmult (repeat 0 k) xs) = 0.
Proof.
  revert xs; induction k as [|k IH]; intros [|x xs]; simpl; try reflexivity.
  fold (rsum (map2 Rmult (repeat 0 k) xs)). rewrite IH. ring.
Qed.

(** One round of the site loop with zero weights and zero derivatives. *)
Lemma site_body_beyond (env : Env) (Rm : list (tri vec3))
    (charges : list R) (m : nat) (shift Dmm : list vec3) (d : list R)
    (sigma_c epsilon_c : list (list R)) (energy : R) (forces : list vec3)
    (j : nat) :
  (m + 1 < length Rm + 1)%nat ->
  length shift = (length Rm - (m + 1))%nat ->
  length forces = (3 * length Rm)%nat ->
  Calc.site_body env Rm charges m shift Dmm
    (repeat 0 (length Rm - (m + 1))) (repeat 0 (length Rm - (m + 1))) d
    sigma_c epsilon_c (energy, forces) j
  = (energy, forces).
Proof.
  intros Hm Hs HL. unfold Calc.site_body.
  set (k := (length Rm - (m + 1))%nat) in *.
  set (D := map2 _ (skipn (m + 1) Rm) shift).
  assert (LD : length D = k).
  { unfold D. rewrite map2_length, length_skipn. lia. }
  set (r2 := map (tmap sqnorm) D).
  assert (Lr2 : length r2 = k) by (unfold r2; rewrite length_map; exact LD).
  set (r := map (tmap sqrt) r2).
  set (e1 := map _ r).
  assert (Le1 : length e1 = k)
    by (unfold e1, r; rewrite !length_map; exact Lr2).
  set (c6 := map _ r2).
  assert (Lc6 : length c6 = k) by (unfold c6; rewrite length_map; exact Lr2).
  set (c12 := map _ c6).
  assert (Lc12 : length c12 = k)
    by (unfold c12; rewrite length_map; exact Lc6).
  set (e2 := map2 _ c12 c6).
  assert (ZW : forall (X : list (tri R)),
            Forall (fun t => t = Calc.mol0)
              (map2 (fun (w : tri R) Dp => tmap2 vscale w Dp)
                 (map2 (fun (er : tri R) cp => tmap (fun x => x * cp) er)
                    X (repeat 0 k)) D)).
  { intros X. apply Forall_map2. intros w Dp Hw _.
    assert (Hz : Forall (fun w => w = T3 0 0 0)
                   (map2 (fun (er : tri R) cp => tmap (fun x => x * cp) er)
                      X (repeat 0 k))).
    { apply Forall_map2. intros er cp _ Hcp. apply repeat_spec in Hcp.
      subst cp. unfold tmap. f_equal; ring. }
    rewrite Forall_forall in Hz. rewrite (Hz w Hw).
    unfold tmap2, Calc.mol0. cbn [t0 t1 t2]. f_equal; apply vscale_zero_l. }
  assert (ZM : forall (e : list (tri R)),
            Forall (fun z => z = vzero)
              (Calc.cutoff_force e (repeat 0 k) d Dmm)).
  { intros e. unfold Calc.cutoff_force. apply Forall_map2.
    intros c Dp Hc _.
    assert (Hz : Forall (fun c => c = 0)
                   (map2 (fun ed di => - (ed / di))
                      (map2 Rmult (map tsumR e) (repeat 0 k)) d)).
    { apply Forall_map2. intros ed di Hed _.
      assert (Hz' : Forall (fun x => x = 0)
                      (map2 Rmult (map tsumR e) (repeat 0 k))).
      { apply Forall_map2. intros x y _ Hy. apply repeat_spec in Hy.
        subst y. ring. }
      rewrite Forall_forall in Hz'. rewrite (Hz' ed Hed).
      unfold Rdiv. ring. }
    rewrite Forall_forall in Hz. rewrite (Hz c Hc). apply vscale_zero_l. }
  assert (LW : forall (X : list (tri R)), length X = k ->
            length
              (map2 (fun (w : tri R) Dp => tmap2 vscale w Dp)
                 (map2 (fun (er : tri R) cp => tmap (fun x => x * cp) er)
                    X (repeat 0 k)) D) = k).
  { intros X HX. rewrite !map2_length, repeat_length, HX, LD. lia. }
  assert (Hk : (m + 1 + k = length Rm)%nat) by (unfold k; lia).
  rewrite (@accumulate_zeros (length Rm) m j _ _ forces HL);
    [ | rewrite LW; [exact Hk | rewrite !map2_length; lia] | apply ZW | apply ZM ].
  rewrite (@accumulate_zeros (length Rm) m j _ _ forces HL);
    [ | rewrite LW; [exact Hk | rewrite !map2_length; lia] | apply ZW | apply ZM ].
  unfold Calc.dot. rewrite !rsum_mul_zeros. unfold tsumR. cbn [t0 t1 t2].
  f_equal. ring.
Qed.

Lemma cutoff_beyond (self : ACN) (d : list R) :
  Forall (fun x => rc self <= x) d ->
  map (cut1 self) d = repeat 0 (length d) /\
  map (dcut1 self) d = repeat 0 (length d).
Proof.
  induction 1 as [|x d Hx HF [IH1 IH2]]; [split; reflexivity|].
  cbn [map length repeat]. rewrite IH1, IH2.
  unfold cut1, dcut1.
  rewrite (proj2 (Rltb_false x (rc self))) by exact Hx.
  rewrite andb_false_r. split; reflexivity.
Qed.

Lemma molecule_body_beyond (env : Env) (self : ACN) (Rm : list (tri vec3))
    (cell : vec3) (pbc : tri bool) (charges : list R)
    (energy : R) (forces : list vec3) (m : nat) :
  (m + 1 < length Rm + 1)%nat ->
  length forces = (3 * length Rm)%nat ->
  Forall (fun x => rc self <= x) (carbon_distances Rm cell pbc m) ->
  Calc.molecule_body env self Rm cell pbc charges (energy, forces) m
  = (energy, forces).
Proof.
  intros Hm HL Hd. unfold Calc.molecule_body, carbon_distances in *.
  rewrite cutoff_map.
  destruct (CombineLJ_lorenz_berthelot sigma (epsilon env))
    as [sigma_c epsilon_c].
  set (Dmm0 := map _ (skipn (m + 1) Rm)) in *.
  assert (L0 : length Dmm0 = (length Rm - (m + 1))%nat).
  { unfold Dmm0. rewrite length_map, length_skipn. reflexivity. }
  assert (Ls : length (wrap Dmm0 cell pbc) = (length Rm - (m + 1))%nat).
  { rewrite wrap_rows, length_map. exact L0. }
  set (Dmm := map2 vadd Dmm0 (wrap Dmm0 cell pbc)) in *.
  set (d := map sqrt (map sqnorm Dmm)) in *.
  assert (Ld : length d = (length Rm - (m + 1))%nat).
  { unfold d, Dmm. rewrite !length_map, map2_length. lia. }
  destruct (cutoff_beyond self Hd) as [-> ->]. rewrite Ld.
  cbn [seq fold_left].
  rewrite !site_body_beyond by assumption. reflexivity.
Qed.

Lemma pair_loop_beyond (env : Env) (self : ACN) (Rm : list (tri vec3))
    (cell : vec3) (pbc : tri bool) (charges : list R) :
  (forall m, (m + 1 < length Rm)%nat ->
     Forall (fun x => rc self <= x) (carbon_distances Rm cell pbc m)) ->
  Calc.pair_loop env self Rm cell pbc charges
  = (0, repeat vzero (3 * length Rm)).
Proof.
  intros Hd. unfold Calc.pair_loop.
  assert (step : forall ms,
            Forall (fun m => (m + 1 < length Rm)%nat) ms ->
            fold_left (Calc.molecule_body env self Rm cell pbc charges) ms
              (0, repeat vzero (3 * length Rm))
            = (0, repeat vzero (3 * length Rm))).
  { induction ms as [|m ms IH]; intros Hms; [reflexivity|].
    inversion Hms as [|? ? Hm Hms']; subst. cbn [fold_left].
    rewrite molecule_body_beyond;
      [apply IH; exact Hms' | lia | apply repeat_length | apply Hd; exact Hm]. }
  apply step. apply Forall_forall. intros m Hin. apply in_seq in Hin. lia.
Qed.

Lemma redistribute_zeros (env : Env) (n me k : nat) :
  ((n = 0 /\ me = 2) \/ (n = 2 /\ me = 0))%nat ->
  Calc.redistribute_forces env n me (repeat vzero (3 * k))
  = repeat vzero (3 * k).
Proof.
  intros Hor.
  assert (E : repeat vzero (3 * k) = flatten3 (repeat Calc.mol0 k)).
  { induction k as [|k IH]; [reflexivity|].
    replace (3 * S k)%nat with (S (S (S (3 * k)))) by lia.
    cbn [repeat flatten3 flat_map tlist app Calc.mol0 t0 t1 t2].
    fold (flatten3 (repeat Calc.mol0 k)). rewrite <- IH. reflexivity. }
  rewrite E, (@redistribute_molecules env n me _ Hor). f_equal.
  rewrite map_repeat. f_equal.
  destruct Hor as [[-> _] | [-> _]]; unfold redistributed, new_N, new_Me,
    Calc.mol0; cbn [t0 t1 t2]; f_equal; apply vec3_eq; simpl; ring.
Qed.

(** X18. For a valid snapshot without point charges, with a width of
    the switching shell that is not zero, a nonzero cell length along
    every periodic axis and no two sites of different molecules at one
    place, in which every two carbons are at least [rc]
    apart (minimum image applied, as the pair loop measures it),
    [calculate] returns energy 0 and a zero force on every atom:
    molecules beyond the cutoff do not interact. *)
Theorem calculate_beyond_cutoff (env : Env) (self : ACN) (atoms : Atoms)
    (Rm : list (tri vec3)) :
  pcpot self = None ->
  valid_snapshot atoms ->
  reshape3 (positions atoms) = Ok Rm ->
  width self <> 0 ->
  (forall i, (i < 3)%nat -> tget i (pbc atoms) = true ->
     vget i (diagonal (cell atoms)) <> 0) ->
  (forall m m' j i, (m < m' < length Rm)%nat -> (j < 3)%nat -> (i < 3)%nat ->
     vadd (vsub (tget i (nth m' Rm Calc.mol0)) (tget j (nth m Rm Calc.mol0)))
       (wrap_row (diagonal (cell atoms)) (pbc atoms)
          (vsub (t1 (nth m' Rm Calc.mol0)) (t1 (nth m Rm Calc.mol0))))
     <> vzero) ->
  (forall m, (m + 1 < length Rm)%nat ->
     Forall (fun x => rc self <= x)
       (carbon_distances Rm (diagonal (cell atoms)) (pbc atoms) m)) ->
  exists self',
    Calc.calculate env self atoms = Ok self' /\
    results self'
    = Some {| energy := 0;
              forces := repeat vzero (length (atom_list atoms)) |}.
Proof.
  intros Hpc Hv ERm _ _ _ Hd.
  destruct (@unconstrained_valid env self atoms Hpc Hv)
    as (Rm' & n & me & ERm' & _ & Hor & Hu).
  rewrite ERm in ERm'. injection ERm' as <-.
  rewrite (pair_loop_beyond env self Rm (diagonal (cell atoms)) (pbc atoms)
             (firstn 3 (get_initial_charges atoms)) Hd) in Hu.
  cbn [fst snd] in Hu.
  unfold Calc.calculate. rewrite Hu. cbn [bind].
  eexists. split; [reflexivity|]. cbn [results].
  rewrite (@redistribute_zeros env n me (length Rm) Hor).
  apply reshape3_inv in ERm.
  assert (E : length (atom_list atoms) = (3 * length Rm)%nat).
  { rewrite <- (length_map position). fold (positions atoms).
    rewrite ERm. apply flatten3_length. }
  rewrite E. reflexivity.
Qed.

Lemma calculate_beyond_cutoff_witness :
  exists self',
    Calc.calculate ase_env (Calc.init 4 1) uncharged_pair = Ok self' /\
    results self'
    = Some {| energy := 0;
              forces := repeat vzero (length (atom_list uncharged_pair)) |}.
Proof.
  apply (@calculate_beyond_cutoff ase_env (Calc.init 4 1) uncharged_pair
           [molA; molB] eq_refl uncharged_pair_valid eq_refl (@unit_width 4)).
  { intros i _ H. destruct i as [|[|i]]; discriminate H. }
  { intros m m' j i Hm Hj Hi H. cbn [length] in Hm.
    assert (m = 0%nat) by lia. assert (m' = 1%nat) by lia. subst m m'.
    apply (f_equal vy) in H.
    destruct i as [|[|[|i]]]; [| | |lia];
      (destruct j as [|[|[|j]]]; [| | |lia]); simpl in H; lra. }
  intros m Hm. cbn [length] in Hm.
  assert (m = 0%nat) by lia. subst m.
  unfold carbon_distances. rewrite wrap_rows.
  cbn [Nat.add skipn map map2 nth].
  constructor; [|constructor].
  change (wrap_row (diagonal (cell uncharged_pair)) (pbc uncharged_pair)
            (vsub (t1 molB) (t1 molA))) with vzero.
  replace (sqnorm (vadd (vsub (t1 molB) (t1 molA)) vzero)) with (4.5 * 4.5)
    by (unfold sqnorm; simpl; lra).
  rewrite sqrt_square by lra. simpl. lra.
Defined.

(* ================================================================== *)
(** ** Translating the snapshot *)

Section Translation.
Variable t : vec3.

Lemma shifted_nth (Rm : list (tri vec3)) (m : nat) :
  (m < length Rm)%nat ->
  nth m (shifted t Rm) Calc.mol0 = tmap (fun x => vadd x t) (nth m Rm Calc.mol0).
Proof.
  intros H. unfold shifted.
  rewrite (nth_indep _ Calc.mol0 (tmap (fun x => vadd x t) Calc.mol0))
    by (rewrite length_map; exact H).
  apply map_nth.
Qed.

Lemma shifted_skipn (Rm : list (tri vec3)) (k : nat) :
  skipn k (shifted t Rm) = shifted t (skipn k Rm).
Proof. unfold shifted. apply skipn_map. Qed.

Lemma carbon_displacements_shifted (Rm : list (tri vec3)) (m : nat) :
  (m < length Rm)%nat ->
  map (fun mol => vsub (t1 mol) (t1 (nth m (shifted t Rm) Calc.mol0)))
    (skipn (m + 1) (shifted t Rm))
  = map (fun mol => vsub (t1 mol) (t1 (nth m Rm Calc.mol0)))
      (skipn (m + 1) Rm).
Proof.
  intros H. rewrite shifted_skipn, shifted_nth by exact H.
  unfold shifted. rewrite map_map. apply map_ext. intros mol.
  unfold tmap. cbn [t1]. apply vec3_eq; simpl; ring.
Qed.

Lemma site_displacements_shifted (Rm : list (tri vec3)) (m j : nat)
    (shift : list vec3) :
  (m < length Rm)%nat ->
  map2 (fun mol sh =>
          tmap (fun x => vadd (vsub x (tget j (nth m (shifted t Rm) Calc.mol0)))
                           sh) mol)
    (skipn (m + 1) (shifted t Rm)) shift
  = map2 (fun mol sh =>
            tmap (fun x => vadd (vsub x (tget j (nth m Rm Calc.mol0))) sh) mol)
      (skipn (m + 1) Rm) shift.
Proof.
  intros H. rewrite shifted_skipn, shifted_nth by exact H.
  generalize (skipn (m + 1) Rm). intros l. revert shift.
  induction l as [|mol l IH]; intros [|sh shift]; simpl; try reflexivity.
  rewrite IH. f_equal.
  destruct mol as [a b c]. destruct (nth m Rm Calc.mol0) as [p q r].
  destruct j as [|[|j]]; unfold tmap; cbn [t0 t1 t2 tget];
    f_equal; apply vec3_eq; simpl; ring.
Qed.

Lemma site_body_shifted (env : Env) (Rm : list (tri vec3))
    (charges : list R) (m : nat) (shift Dmm : list vec3) (cut dcut d : list R)
    (sigma_c epsilon_c : list (list R)) (st : R * list vec3) (j : nat) :
  (m < length Rm)%nat ->
  Calc.site_body env (shifted t Rm) charges m shift Dmm cut dcut d
    sigma_c epsilon_c st j
  = Calc.site_body env Rm charges m shift Dmm cut dcut d
      sigma_c epsilon_c st j.
Proof.
  intros H. unfold Calc.site_body.
  rewrite site_displacements_shifted by exact H. reflexivity.
Qed.

Lemma molecule_body_shifted (env : Env) (self : ACN) (Rm : list (tri vec3))
    (cell : vec3) (pbc : tri bool) (charges : list R)
    (st : R * list vec3) (m : nat) :
  (m < length Rm)%nat ->
  Calc.molecule_body env self (shifted t Rm) cell pbc charges st m
  = Calc.molecule_body env self Rm cell pbc charges st m.
Proof.
  intros H. unfold Calc.molecule_body.
  rewrite carbon_displacements_shifted by exact H.
  destruct (Calc.cutoff self _) as [cut dcut].
  destruct (CombineLJ_lorenz_berthelot sigma (epsilon env))
    as [sigma_c epsilon_c].
  cbn [seq fold_left]. rewrite !site_body_shifted by exact H. reflexivity.
Qed.

Lemma pair_loop_shifted (env : Env) (self : ACN) (Rm : list (tri vec3))
    (cell : vec3) (pbc : tri bool) (charges : list R) :
  Calc.pair_loop env self (shifted t Rm) cell pbc charges
  = Calc.pair_loop env self Rm cell pbc charges.
Proof.
  unfold Calc.pair_loop.
  assert (EL : length (shifted t Rm) = length Rm)
    by (unfold shifted; apply length_map).
  rewrite EL.
  generalize (0, repeat vzero (3 * length Rm)).
  assert (step : forall ms st,
            Forall (fun m => (m < length Rm)%nat) ms ->
            fold_left (Calc.molecule_body env self (shifted t Rm) cell pbc
                         charges) ms st
            = fold_left (Calc.molecule_body env self Rm cell pbc charges)
                ms st).
  { induction ms as [|m ms IH]; intros st Hms; [reflexivity|].
    inversion Hms as [|? ? Hm Hms']; subst. cbn [fold_left].
    rewrite molecule_body_shifted by exact Hm. apply IH. exact Hms'. }
  intros st. apply step.
  apply Forall_forall. intros m Hin. apply in_seq in Hin. lia.
Qed.

Lemma reshape3_shifted (l : list vec3) :
  reshape3 (map (fun x => vadd x t) l)
  = match reshape3 l with
    | Ok Rm => Ok (shifted t Rm)
    | Raise ex => Raise ex
    end.
Proof.
  assert (G : forall k (l : list vec3), (length l < k)%nat ->
            reshape3 (map (fun x => vadd x t) l)
            = match reshape3 l with
              | Ok Rm => Ok (shifted t Rm)
              | Raise ex => Raise ex
              end).
  { clear l. induction k as [|k IH]; intros l Hk; [lia|].
    destruct l as [|a [|b [|c l]]]; try reflexivity.
    cbn [map reshape3]. rewrite IH by (simpl in Hk; lia).
    destruct (reshape3 l); reflexivity. }
  apply (G (S (length l))). lia.
Qed.

End Translation.

Lemma translate_fields (t : vec3) (a : Atoms) :
  positions (translate t a) = map (fun x => vadd x t) (positions a) /\
  numbers (translate t a) = numbers a /\
  get_initial_charges (atoms_prefix 3 (translate t a))
  = get_initial_charges (atoms_prefix 3 a).
Proof.
  unfold positions, numbers, get_initial_charges, atoms_prefix, translate.
  cbn [atom_list]. rewrite firstn_map, !map_map. auto.
Qed.

(** X19. Without point charges, moving every atom of a snapshot by one
    vector changes nothing in what [calculate] gives: the same energy and
    the same forces when it returns (periodic or not), the same exception
    when it raises. *)
Theorem calculate_translation_invariant (env : Env) (self : ACN)
    (atoms : Atoms) (t : vec3) :
  pcpot self = None ->
  match Calc.calculate env self (translate t atoms),
        Calc.calculate env self atoms with
  | Ok c1, Ok c2 => results c1 = results c2
  | Raise e1, Raise e2 => e1 = e2
  | _, _ => False
  end.
Proof.
  intros Hpc.
  assert (HU : Calc.unconstrained env self (translate t atoms)
               = Calc.unconstrained env self atoms).
  { unfold Calc.unconstrained.
    destruct (translate_fields t atoms) as (-> & -> & ->).
    rewrite reshape3_shifted.
    destruct (reshape3 (positions atoms)) as [Rm|ex]; [|reflexivity].
    cbn [bind]. cbn [cell pbc translate].
    rewrite pair_loop_shifted, Hpc.
    reflexivity. }
  unfold Calc.calculate. rewrite HU.
  destruct (Calc.unconstrained env self atoms) as [[[[[n me] e] f] pc]|ex];
    cbn [bind results]; reflexivity.
Qed.

Lemma calculate_translation_invariant_witness :
  match Calc.calculate ase_env (Calc.init 5 1)
          (translate (V3 1 2 3) uncharged_pair),
        Calc.calculate ase_env (Calc.init 5 1) uncharged_pair with
  | Ok c1, Ok c2 => results c1 = results c2
  | Raise e1, Raise e2 => e1 = e2
  | _, _ => False
  end.
Proof.
  apply (@calculate_translation_invariant ase_env (Calc.init 5 1)
           uncharged_pair (V3 1 2 3) eq_refl).
Defined.

(* ================================================================== *)
(** ** The energy, pair by pair *)

Lemma map2_map_map {A B C D} (f : B -> C -> D) (g : A -> B) (h : A -> C)
    (l : list A) :
  map2 f (map g l) (map h l) = map (fun x => f (g x) (h x)) l.
Proof. induction l as [|x l IH]; simpl; [reflexivity|]. rewrite IH. reflexivity. Qed.

Lemma map2_map_r {A C D} (f : A -> C -> D) (h : A -> C) (l : list A) :
  map2 f l (map h l) = map (fun x => f x (h x)) l.
Proof. induction l as [|x l IH]; simpl; [reflexivity|]. rewrite IH. reflexivity. Qed.

Lemma rsum_map_plus {A} (f g : A -> R) (l : list A) :
  rsum (map f l) + rsum (map g l) = rsum (map (fun x => f x + g x) l).
Proof.
  induction l as [|x l IH]; simpl; [ring|].
  unfold rsum in *. rewrite <- IH. ring.
Qed.

Lemma dot_map {A} (cf : A -> R) (eg : A -> tri R) (l : list A) :
  tsumR (Calc.dot (map cf l) (map eg l))
  = rsum (map (fun x => cf x * tsumR (eg x)) l).
Proof.
  unfold Calc.dot, tsumR. cbn [t0 t1 t2].
  rewrite !map_map, !map2_map_map, !rsum_map_plus.
  f_equal. apply map_ext. intros x. ring.
Qed.

Lemma site_body_energy (env : Env) (Rm : list (tri vec3)) (charges : list R)
    (m : nat) (shf : tri vec3 -> vec3) (cf : tri vec3 -> R)
    (Dmm : list vec3) (dcut d : list R) (sigma_c epsilon_c : list (list R))
    (e : R) (f : list vec3) (j : nat) :
  fst (Calc.site_body env Rm charges m (map shf (skipn (m + 1) Rm)) Dmm
         (map cf (skipn (m + 1) Rm)) dcut d sigma_c epsilon_c (e, f) j)
  = e + rsum (map (fun B => cf B *
                     site_energy env (Calc.tri_of_list charges) sigma_c
                       epsilon_c j (nth m Rm Calc.mol0) B (shf B))
                (skipn (m + 1) Rm)).
Proof.
  unfold Calc.site_body. cbv beta iota zeta. cbn [fst].
  generalize (skipn (m + 1) Rm). intros P.
  rewrite map2_map_r.
  rewrite !map_map.
  rewrite !map2_map_map.
  rewrite !dot_map.
  rewrite Rplus_assoc, rsum_map_plus.
  f_equal. f_equal. apply map_ext. intros B.
  unfold site_energy. cbv zeta. ring.
Qed.

Lemma site_loop_energy (env : Env) (Rm : list (tri vec3)) (charges : list R)
    (m : nat) (shf : tri vec3 -> vec3) (cf : tri vec3 -> R)
    (Dmm : list vec3) (dcut d : list R) (sigma_c epsilon_c : list (list R))
    (e : R) (f : list vec3) :
  fst (fold_left
         (Calc.site_body env Rm charges m (map shf (skipn (m + 1) Rm)) Dmm
            (map cf (skipn (m + 1) Rm)) dcut d sigma_c epsilon_c)
         (seq 0 3) (e, f))
  = e + rsum (map (fun B => cf B *
                (site_energy env (Calc.tri_of_list charges) sigma_c
                   epsilon_c 0 (nth m Rm Calc.mol0) B (shf B)
                 + site_energy env (Calc.tri_of_list charges) sigma_c
                     epsilon_c 1 (nth m Rm Calc.mol0) B (shf B)
                 + site_energy env (Calc.tri_of_list charges) sigma_c
                     epsilon_c 2 (nth m Rm Calc.mol0) B (shf B)))
             (skipn (m + 1) Rm)).
Proof.
  cbn [seq fold_left].
  destruct (Calc.site_body env Rm charges m (map shf (skipn (m + 1) Rm)) Dmm
              (map cf (skipn (m + 1) Rm)) dcut d sigma_c epsilon_c (e, f) 0)
    as [e1 f1] eqn:E1.
  apply (f_equal fst) in E1. rewrite site_body_energy in E1. cbn [fst] in E1.
  destruct (Calc.site_body env Rm charges m (map shf (skipn (m + 1) Rm)) Dmm
              (map cf (skipn (m + 1) Rm)) dcut d sigma_c epsilon_c (e1, f1) 1)
    as [e2 f2] eqn:E2.
  apply (f_equal fst) in E2. rewrite site_body_energy in E2. cbn [fst] in E2.
  rewrite site_body_energy. rewrite <- E2, <- E1.
  rewrite !Rplus_assoc. f_equal.
  rewrite !rsum_map_plus. f_equal. apply map_ext. intros B. ring.
Qed.

(** With the matrices of [CombineLJ_lorenz_berthelot], the energy of
    site offset [j] is the sum over the three sites of the partner. *)
Lemma site_energy_combined (env : Env) (q : tri R) (j : nat)
    (A B : tri vec3) (sh : vec3) :
  (j < 3)%nat ->
  site_energy env q
    (fst (CombineLJ_lorenz_berthelot sigma (epsilon env)))
    (snd (CombineLJ_lorenz_berthelot sigma (epsilon env))) j A B sh
  = rsum (map (fun i =>
            site_pair_energy env q j i
              (sqnorm (vadd (vsub (tget i B) (tget j A)) sh)))
          (seq 0 3)).
Proof.
  intros Hj. unfold site_energy, site_pair_energy.
  destruct q as [q0 q1 q2]. destruct B as [B0 B1 B2].
  destruct j as [|[|[|j]]]; [| | |lia];
    cbv beta iota zeta delta
      [CombineLJ_lorenz_berthelot sigma epsilon fold_left seq length
       mset_col map2 row_set zeros2 repeat map nth mcol Calc.tri_of_list
       fst snd tmap tmap2 tget t0 t1 t2 tsumR rsum fold_right];
    unfold Rdiv; ring.
Qed.

Lemma molecule_body_energy (env : Env) (self : ACN) (Rm : list (tri vec3))
    (cell : vec3) (pbc : tri bool) (charges : list R) (e : R)
    (f : list vec3) (m : nat) :
  fst (Calc.molecule_body env self Rm cell pbc charges (e, f) m)
  = e + rsum (map (molecule_pair_energy env self cell pbc
                     (Calc.tri_of_list charges) (nth m Rm Calc.mol0))
                (skipn (m + 1) Rm)).
Proof.
  unfold Calc.molecule_body. cbv zeta.
  rewrite wrap_rows, cutoff_map. cbv beta iota.
  pose proof (@site_energy_combined env (Calc.tri_of_list charges)) as HC.
  destruct (CombineLJ_lorenz_berthelot sigma (epsilon env))
    as [sigma_c epsilon_c].
  cbn [fst snd] in HC.
  rewrite (map_map (fun mol => vsub (t1 mol) (t1 (nth m Rm Calc.mol0)))
             (wrap_row cell pbc)).
  rewrite map2_map_map, !map_map.
  rewrite site_loop_energy.
  f_equal. f_equal. apply map_ext. intros B.
  rewrite !HC by lia.
  unfold molecule_pair_energy, pair_energy. cbv zeta.
  f_equal. cbn [seq map rsum fold_right]. ring.
Qed.

Lemma pair_loop_energy (env : Env) (self : ACN) (Rm : list (tri vec3))
    (cell : vec3) (pbc : tri bool) (charges : list R) :
  fst (Calc.pair_loop env self Rm cell pbc charges)
  = total_energy env self cell pbc (Calc.tri_of_list charges) Rm.
Proof.
  unfold Calc.pair_loop, total_energy.
  generalize (repeat vzero (3 * length Rm)).
  generalize (seq 0 (length Rm - 1)). intros ms f.
  assert (G : forall e f0,
            fst (fold_left (Calc.molecule_body env self Rm cell pbc charges)
                   ms (e, f0))
            = e + rsum (map (fun m =>
                    rsum (map (molecule_pair_energy env self cell pbc
                                 (Calc.tri_of_list charges)
                                 (nth m Rm Calc.mol0))
                            (skipn (m + 1) Rm))) ms)).
  { induction ms as [|m ms IH]; intros e f0.
    - simpl. ring.
    - cbn [fold_left map].
      destruct (Calc.molecule_body env self Rm cell pbc charges (e, f0) m)
        as [e1 f1] eqn:E1.
      apply (f_equal fst) in E1. rewrite molecule_body_energy in E1.
      cbn [fst] in E1. rewrite IH, <- E1.
      unfold rsum. cbn [fold_right]. ring. }
  rewrite G. ring.
Qed.

(** The energy [calculate] stores for a valid snapshot without point
    charges. *)
Lemma valid_energy (env : Env) (self : ACN) (atoms : Atoms) :
  pcpot self = None ->
  valid_snapshot atoms ->
  exists self' r Rm,
    reshape3 (positions atoms) = Ok Rm /\
    Calc.calculate env self atoms = Ok self' /\
    results self' = Some r /\
    energy r = total_energy env self (diagonal (cell atoms)) (pbc atoms)
                 (Calc.tri_of_list (firstn 3 (get_initial_charges atoms))) Rm.
Proof.
  intros Hpc Hv.
  destruct (@unconstrained_valid env self atoms Hpc Hv)
    as (Rm & n & me & ERm & _ & _ & EU).
  unfold Calc.calculate. rewrite EU. cbn [bind].
  eexists. eexists. exists Rm. split; [exact ERm|].
  split; [reflexivity|]. cbn [results]. split; [reflexivity|].
  cbn [energy]. apply pair_loop_energy.
Qed.

(** X20. On a valid snapshot without point charges, with a width of
    the switching shell that is not zero, a nonzero cell length along
    every periodic axis and no two sites of different molecules at one
    place, [calculate] returns and the energy is the sum over the pairs of molecules [m < m'] of the switching weight at the
    carbon-carbon distance (minimum image) times the sum over the nine
    site pairs of the Coulomb term [k_c q_j q_i / r] and the Lennard-Jones
    term [4 eps_ji ((s_ji^2/r^2)^6 - (s_ji^2/r^2)^3)], where the charges
    are those of the first triplet and the parameters are those of the
    offsets [j] and [i] in the order Me, C, N, and where every site of
    the partner is moved by the correction of the carbons. *)
Theorem calculate_energy (env : Env) (self : ACN) (atoms : Atoms)
    (Rm : list (tri vec3)) :
  pcpot self = None ->
  valid_snapshot atoms ->
  width self <> 0 ->
  reshape3 (positions atoms) = Ok Rm ->
  nonzero_periodic_lengths (diagonal (cell atoms)) (pbc atoms) ->
  distinct_sites Rm (diagonal (cell atoms)) (pbc atoms) ->
  exists self' r,
    Calc.calculate env self atoms = Ok self' /\
    results self' = Some r /\
    energy r = total_energy env self (diagonal (cell atoms)) (pbc atoms)
                 (Calc.tri_of_list (firstn 3 (get_initial_charges atoms))) Rm.
Proof.
  intros Hpc Hv _ ERm _ _.
  destruct (@valid_energy env self atoms Hpc Hv)
    as (self' & r & Rm' & E1 & E2 & E3 & E4).
  rewrite ERm in E1. injection E1 as <-.
  exists self', r. split; [exact E2|]. split; [exact E3 | exact E4].
Qed.

Lemma calculate_energy_witness :
  exists self' r,
    Calc.calculate ase_env (Calc.init 5 1) uncharged_pair = Ok self' /\
    results self' = Some r /\
    energy r = total_energy ase_env (Calc.init 5 1) vzero
                 (T3 false false false) (T3 0 0 0) [molA; molB].
Proof.
  apply (@calculate_energy ase_env (Calc.init 5 1) uncharged_pair
           [molA; molB] eq_refl uncharged_pair_valid (@unit_width 5) eq_refl
           uncharged_pair_lengths uncharged_pair_distinct).
Defined.

Lemma relabelled_pair_valid : valid_snapshot relabelled_pair.
Proof.
  split.
  - exists 2%nat. split; [lia|]. right. reflexivity.
  - reflexivity.
Qed.

(** X21. The energy does not depend on the species: with a width of
    the switching shell that is not zero, a nonzero cell length along
    every periodic axis and no two sites of different molecules at one
    place, two valid snapshots with the same positions, cell, periodicity
    and charges of the first triplet, one in the ordering N, C, Me and
    one in the ordering Me, C, N, get the same energy.  The Lennard-Jones parameters follow
    the offset in the triplet (Me, C, N), so in the ordering N, C, Me the
    nitrogen is given the parameters of the methyl group. *)
Theorem calculate_energy_ignores_species (env : Env) (self : ACN)
    (a a' : Atoms) (Rm : list (tri vec3)) :
  pcpot self = None ->
  width self <> 0 ->
  reshape3 (positions a) = Ok Rm ->
  nonzero_periodic_lengths (diagonal (cell a)) (pbc a) ->
  distinct_sites Rm (diagonal (cell a)) (pbc a) ->
  valid_snapshot a -> valid_snapshot a' ->
  positions a = positions a' ->
  cell a = cell a' -> pbc a = pbc a' ->
  firstn 3 (get_initial_charges a) = firstn 3 (get_initial_charges a') ->
  exists s s' r r',
    Calc.calculate env self a = Ok s /\
    Calc.calculate env self a' = Ok s' /\
    results s = Some r /\ results s' = Some r' /\
    energy r = energy r'.
Proof.
  intros Hpc _ _ _ _ Hv Hv' HP HC HB HQ.
  destruct (@valid_energy env self a Hpc Hv)
    as (s & r & Rm0 & E1 & E2 & E3 & E4).
  destruct (@valid_energy env self a' Hpc Hv')
    as (s' & r' & Rm' & E1' & E2' & E3' & E4').
  exists s, s', r, r'. repeat (split; [assumption|]).
  rewrite E4, E4'. rewrite HP, E1' in E1. injection E1 as <-.
  rewrite HC, HB, HQ. reflexivity.
Qed.

Lemma calculate_energy_ignores_species_witness :
  exists s s' r r',
    Calc.calculate ase_env (Calc.init 5 1) uncharged_pair = Ok s /\
    Calc.calculate ase_env (Calc.init 5 1) relabelled_pair = Ok s' /\
    results s = Some r /\ results s' = Some r' /\
    energy r = energy r'.
Proof.
  apply (@calculate_energy_ignores_species ase_env (Calc.init 5 1)
           uncharged_pair relabelled_pair [molA; molB] eq_refl
           (@unit_width 5) eq_refl uncharged_pair_lengths
           uncharged_pair_distinct uncharged_pair_valid
           relabelled_pair_valid eq_refl eq_refl eq_refl eq_refl).
Defined.

(* ================================================================== *)
(** ** The point-charge loop: shapes and balance *)

Lemma broadcast_length (n : nat) (a qb : list R) :
  PCP.broadcast n a = Ok qb -> length qb = n.
Proof.
  unfold PCP.broadcast.
  destruct (Nat.eqb (length a) n) eqn:E.
  - intros [= <-]. apply Nat.eqb_eq. exact E.
  - destruct a as [|x [|y a]]; try discriminate.
    intros [= <-]. apply repeat_length.
Qed.

(** What the loop keeps: the shapes of the two force arrays and the sum
    of all forces. *)
Lemma pcp_loop_balance (env : Env) (Cs : list R) (Rs Fs : list vec3)
    (qc : list R) (qp : list vec3) (e0 : R) (f0 : list vec3)
    (e : R) (qf : list vec3) :
  length f0 = length qp ->
  snd (PCP.loop env Cs Rs Fs qc qp e0 f0) = Ok (e, qf) ->
  length qf = length qp /\
  length (fst (PCP.loop env Cs Rs Fs qc qp e0 f0)) = length Fs /\
  vadd (vsum qf) (vsum (fst (PCP.loop env Cs Rs Fs qc qp e0 f0)))
  = vadd (vsum f0) (vsum Fs).
Proof.
  revert Rs Fs e0 f0; induction Cs as [|C Cs IH]; intros Rs Fs e0 f0 Hf.
  - simpl. intros [= <- <-]. auto.
  - destruct Rs as [|Rp Rs]; [simpl; intros [= <- <-]; auto|].
    destruct Fs as [|F Fs]; [simpl; intros [= <- <-]; auto|].
    cbn [PCP.loop].
    destruct (PCP.broadcast (length (map sqnorm (map (fun q => vsub q Rp) qp)))
                qc) as [qb|ex] eqn:Eb; [|simpl; discriminate].
    apply broadcast_length in Eb. rewrite !length_map in Eb.
    set (d := map (fun q => vsub q Rp) qp) in *.
    set (r2 := map sqnorm d) in *.
    set (ee := map2 _ r2 qb) in *.
    set (f := map2 _ (combine ee r2) d) in *.
    assert (Lf : length f = length qp).
    { unfold f, ee, r2, d.
      rewrite map2_length, length_combine, map2_length, !length_map. lia. }
    specialize (IH Rs Fs (e0 + rsum ee) (map2 vadd f0 f)).
    destruct (PCP.loop env Cs Rs Fs qc qp (e0 + rsum ee) (map2 vadd f0 f))
      as [Fs'' res].
    cbn [fst snd] in *. intros Hres.
    destruct IH as (I1 & I2 & I3); [rewrite map2_length; lia | exact Hres |].
    split; [exact I1|]. split; [simpl; lia|].
    cbn [vsum fold_right]. fold (vsum Fs''). fold (vsum Fs).
    rewrite vsum_map2_vadd in I3 by lia.
    apply (f_equal vx) in I3 as Ix.
    apply (f_equal vy) in I3 as Iy.
    apply (f_equal vz) in I3 as Iz.
    cbn [vadd vx vy vz] in Ix, Iy, Iz.
    apply vec3_eq; cbn [vadd vsub vx vy vz]; lra.
Qed.

(** X22. For a potential with positions set, as many charges as
    positions passed in and no solute position at the place of an
    external one, [calculate] returns; the forces it returns have one row
    per solute position, [mmforces] has one row per external position,
    and the two arrays add up to the zero vector: what the external
    charges exert on the solute they receive back. *)
Theorem pcp_calculate_balance (env : Env) (self : PointChargePotential)
    (P : list vec3) (qmcharges : list R) (qmpositions : list vec3) :
  mmpositions self = Some P ->
  length qmcharges = length qmpositions ->
  Forall (fun Rp => Forall (fun q => q <> Rp) qmpositions) P ->
  exists e qf F,
    snd (PCP.calculate env self qmcharges qmpositions) = Ok (e, qf) /\
    PCP.get_forces (fst (PCP.calculate env self qmcharges qmpositions))
    = Some F /\
    length qf = length qmpositions /\
    length F = length P /\
    vadd (vsum qf) (vsum F) = vzero.
Proof.
  intros HP Hlen _. unfold PCP.calculate, PCP.get_forces. rewrite HP.
  destruct (@pcp_loop_returns env (mmcharges self) P (zeros_like P)
              qmcharges qmpositions 0 (zeros_like qmpositions) Hlen)
    as [[e qf] Hr].
  pose proof (@pcp_loop_balance env (mmcharges self) P (zeros_like P)
                qmcharges qmpositions 0 (zeros_like qmpositions) e qf) as B.
  destruct (PCP.loop env (mmcharges self) P (zeros_like P) qmcharges
              qmpositions 0 (zeros_like qmpositions)) as [F res].
  cbn [fst snd] in *. subst res.
  destruct B as (B1 & B2 & B3);
    [unfold zeros_like; apply length_map | reflexivity |].
  exists e, qf, F. cbn [fst snd mmforces].
  split; [reflexivity|]. split; [reflexivity|]. split; [exact B1|].
  split; [rewrite B2; unfold zeros_like; apply length_map|].
  rewrite B3.
  assert (Z : forall l : list vec3, vsum (zeros_like l) = vzero).
  { induction l as [|x l IHl]; [reflexivity|].
    unfold zeros_like in *. simpl. fold (vsum (map (fun _ => vzero) l)).
    rewrite IHl. apply vadd_zero_l. }
  rewrite !Z. apply vadd_zero_l.
Qed.

Lemma pcp_calculate_balance_witness :
  exists e qf F,
    snd (PCP.calculate ase_env
           (PCP.set_positions (PCP.init [1; -1]) [V3 0 0 3; V3 0 3 0])
           [0.5; 0.25] [V3 0 0 0; V3 1 0 0]) = Ok (e, qf) /\
    vadd (vsum qf) (vsum F) = vzero.
Proof.
  destruct (@pcp_calculate_balance ase_env
              (PCP.set_positions (PCP.init [1; -1]) [V3 0 0 3; V3 0 3 0])
              [V3 0 0 3; V3 0 3 0] [0.5; 0.25] [V3 0 0 0; V3 1 0 0]
              eq_refl eq_refl) as (e & qf & F & H1 & _ & _ & _ & H5).
  { repeat constructor; intros H.
    - apply (f_equal vz) in H. simpl in H. lra.
    - apply (f_equal vz) in H. simpl in H. lra.
    - apply (f_equal vy) in H. simpl in H. lra.
    - apply (f_equal vy) in H. simpl in H. lra. }
  exists e, qf, F. auto.
Defined.

(** X23. With positions set but no external charge, or with an empty
    array of positions, [calculate] returns energy 0 and zero forces of
    the shape of the solute positions, whatever solute charges it is
    given (their number is then never looked at). *)
Theorem pcp_calculate_no_charges (env : Env) (self : PointChargePotential)
    (P : list vec3) (qmcharges : list R) (qmpositions : list vec3) :
  mmpositions self = Some P ->
  mmcharges self = [] \/ P = [] ->
  snd (PCP.calculate env self qmcharges qmpositions)
  = Ok (0, zeros_like qmpositions) /\
  PCP.get_forces (fst (PCP.calculate env self qmcharges qmpositions))
  = Some (zeros_like P).
Proof.
  intros HP H. unfold PCP.calculate, PCP.get_forces. rewrite HP.
  destruct H as [-> | ->].
  - simpl. auto.
  - destruct (mmcharges self); simpl; auto.
Qed.

Lemma pcp_calculate_no_charges_witness :
  snd (PCP.calculate ase_env (PCP.set_positions (PCP.init []) [V3 0 0 3])
         [1; 2; 3] [V3 0 0 0])
  = Ok (0, zeros_like [V3 0 0 0]).
Proof.
  apply (@pcp_calculate_no_charges ase_env
           (PCP.set_positions (PCP.init []) [V3 0 0 3]) [V3 0 0 3]
           [1; 2; 3] [V3 0 0 0] eq_refl (or_introl eq_refl)).
Defined.

(** X24. When the solute charges fit neither the number of solute
    positions nor a single entry, and there is an external charge with a
    position, [calculate] raises ValueError and the position buffer is
    NOT cleared. *)
Theorem pcp_calculate_shape_mismatch (env : Env)
    (self : PointChargePotential) (C : R) (Cs : list R) (Rp : vec3)
    (P : list vec3) (qmcharges : list R) (qmpositions : list vec3) :
  mmcharges self = C :: Cs ->
  mmpositions self = Some (Rp :: P) ->
  length qmcharges <> length qmpositions ->
  length qmcharges <> 1%nat ->
  snd (PCP.calculate env self qmcharges qmpositions) = Raise ValueError /\
  mmpositions (fst (PCP.calculate env self qmcharges qmpositions))
  = Some (Rp :: P).
Proof.
  intros HC HP H1 H2. unfold PCP.calculate. rewrite HP, HC.
  cbn [zeros_like map PCP.loop]. unfold PCP.broadcast.
  rewrite !length_map.
  destruct (Nat.eqb (length qmcharges) (length qmpositions)) eqn:E.
  - apply Nat.eqb_eq in E. contradiction.
  - destruct qmcharges as [|x [|y q]]; simpl; auto.
    simpl in H2. contradiction.
Qed.

Lemma pcp_calculate_shape_mismatch_witness :
  snd (PCP.calculate ase_env
         (PCP.set_positions (PCP.init [1]) [V3 0 0 3])
         [1; 2; 3] [V3 0 0 0; V3 1 0 0]) = Raise ValueError.
Proof.
  apply (@pcp_calculate_shape_mismatch ase_env
           (PCP.set_positions (PCP.init [1]) [V3 0 0 3]) 1 [] (V3 0 0 3) []
           [1; 2; 3] [V3 0 0 0; V3 1 0 0] eq_refl eq_refl).
  - simpl. lia.
  - simpl. lia.
Defined.

(* ================================================================== *)
(** ** What [calculate] leaves in the results *)

(** What a returning [unconstrained] says about the shapes. *)
Lemma unconstrained_shape (env : Env) (self : ACN) (atoms : Atoms)
    (n me : nat) (e : R) (raw : list vec3)
    (pc : option PointChargePotential) :
  Calc.unconstrained env self atoms = Ok (n, me, e, raw, pc) ->
  ((n = 0 /\ me = 2) \/ (n = 2 /\ me = 0))%nat /\
  exists k, length (atom_list atoms) = (3 * k)%nat /\
            length raw = (3 * k)%nat.
Proof.
  unfold Calc.unconstrained.
  destruct (reshape3 (positions atoms)) as [Rm|ex] eqn:ERm; [|discriminate].
  apply reshape3_inv in ERm.
  assert (EL : length (positions atoms) = (3 * length Rm)%nat)
    by (rewrite ERm; apply flatten3_length).
  cbn [bind]. unfold py_assert at 1. cbn [truth].
  destruct (ndarray_all _); [|discriminate]. cbn [bind].
  destruct (index (numbers atoms) 0) as [z0|ex]; [|discriminate].
  cbn [bind].
  assert (Hor : forall n me,
            (if Z.eqb z0 7 then (0, 2)%nat else (2, 0)%nat) = (n, me) ->
            ((n = 0 /\ me = 2) \/ (n = 2 /\ me = 0))%nat).
  { intros n' me'. destruct (Z.eqb z0 7); intros [= <- <-]; auto. }
  destruct (if Z.eqb z0 7 then (0, 2)%nat else (2, 0)%nat) as [n' me'] eqn:En.
  specialize (Hor n' me' eq_refl).
  unfold py_assert at 1. cbn [truth].
  destruct (ndarray_all _); [|discriminate]. cbn [bind].
  unfold py_assert at 1. cbn [truth bind].
  pose proof (pair_loop_balanced env self Rm (diagonal (cell atoms))
                (pbc atoms)
                (get_initial_charges (atoms_prefix 3 atoms))) as [PL _].
  destruct (Calc.pair_loop env self Rm (diagonal (cell atoms)) (pbc atoms)
              (get_initial_charges (atoms_prefix 3 atoms))) as [e0 f0].
  cbn [snd] in PL.
  assert (EA : length (atom_list atoms) = (3 * length Rm)%nat).
  { rewrite <- EL. unfold positions. rewrite length_map. reflexivity. }
  destruct (pcpot self) as [pc0|].
  - unfold PCP.calculate.
    destruct (mmpositions pc0) as [P|]; [|discriminate].
    match goal with
    | |- context [PCP.loop ?a ?b ?c ?d ?q ?p ?x ?y] =>
        pose proof (@pcp_loop_balance a b c d q p x y) as B;
        destruct (PCP.loop a b c d q p x y) as [F [[e1 f1]|ex]]
    end; [|discriminate].
    cbn [bind]. intros [= <- <- <- <- <-].
    split; [exact Hor|]. exists (length Rm). split; [exact EA|].
    destruct (B e1 f1) as (B1 & _);
      [unfold zeros_like; apply length_map | reflexivity |].
    rewrite map2_length, B1, PL, EL. lia.
  - intros [= <- <- <- <- <-].
    split; [exact Hor|]. exists (length Rm). auto.
Qed.

Lemma one_molecule_returns (env : Env) :
  exists s, Calc.calculate env (Calc.init 5 1) one_molecule = Ok s.
Proof.
  unfold Calc.calculate, Calc.unconstrained. simpl.
  unfold py_assert, mat_eqb, veqb; simpl. rewrite !Reqb_refl. simpl.
  eexists. reflexivity.
Qed.

(** X25. Whenever [calculate] returns, with or without point charges,
    the forces in the results have one row per atom, the row of every
    carbon (offset 1 of each triplet) is the zero vector, and
    [self.forces] holds the same array. *)
Theorem calculate_forces_shape (env : Env) (self self' : ACN)
    (atoms : Atoms) :
  Calc.calculate env self atoms = Ok self' ->
  exists r,
    results self' = Some r /\
    self_forces self' = Some (forces r) /\
    length (forces r) = length (atom_list atoms) /\
    Forall (fun f => f = vzero) (stride3 1 (forces r)).
Proof.
  unfold Calc.calculate.
  destruct (Calc.unconstrained env self atoms)
    as [[[[[n me] e] raw] pc]|ex] eqn:EU; [|discriminate].
  cbn [bind]. intros [= <-]. cbn [results self_forces].
  eexists. split; [reflexivity|]. cbn [forces]. split; [reflexivity|].
  destruct (unconstrained_shape _ _ _ EU) as (Hor & k & HA & HR).
  destruct (@reshape3_multiple _ raw k HR) as (mols & _ & Hk & ->).
  rewrite (@redistribute_molecules env n me mols Hor).
  split.
  - rewrite flatten3_length, length_map. lia.
  - destruct (stride3_flatten3 (map (redistributed env n) mols))
      as (_ & -> & _).
    rewrite map_map. apply Forall_forall. intros f Hf.
    apply in_map_iff in Hf. destruct Hf as (m & <- & _).
    destruct Hor as [[-> _] | [-> _]]; reflexivity.
Qed.

Lemma calculate_forces_shape_witness :
  exists self' r,
    Calc.calculate ase_env (Calc.init 5 1) one_molecule = Ok self' /\
    results self' = Some r /\
    length (forces r) = length (atom_list one_molecule).
Proof.
  destruct (one_molecule_returns ase_env) as [s Hs].
  exists s.
  destruct (@calculate_forces_shape ase_env (Calc.init 5 1) s one_molecule Hs)
    as (r & H1 & _ & H3 & _).
  exists r. auto.
Defined.

(* ================================================================== *)
(** ** Embedding, positions and evaluations in a row *)

(** With a potential attached whose position buffer is empty,
    [calculate] on a valid snapshot raises TypeError. *)
Lemma attached_without_positions (env : Env) (self : ACN) (atoms : Atoms)
    (pc : PointChargePotential) :
  pcpot self = Some pc ->
  mmpositions pc = None ->
  valid_snapshot atoms ->
  Calc.calculate env self atoms = Raise TypeError.
Proof.
  intros Hpc HP [Hseq Horth].
  destruct (@valid_sequence_checks _ Hseq)
    as (z0 & n & me & Hz & Hnm & Hor & Hall).
  destruct Hseq as (k & Hk & Hs).
  assert (HL : length (positions atoms) = (3 * k)%nat).
  { rewrite positions_length.
    destruct Hs as [-> | ->]; rewrite flatten3_length, repeat_length;
      reflexivity. }
  destruct (@reshape3_multiple _ _ _ HL) as (Rm & ERm & HRm & _).
  unfold Calc.calculate, Calc.unconstrained. rewrite ERm. cbn [bind].
  unfold py_assert at 1. cbn [truth].
  rewrite (@orthorhombic_check _ Horth). cbn [bind].
  rewrite Hz. cbn [bind]. rewrite Hnm.
  unfold py_assert. cbn [truth]. rewrite Hall. cbn [bind].
  rewrite Hpc.
  destruct (Calc.pair_loop env self Rm (diagonal (cell atoms)) (pbc atoms)
              (get_initial_charges (atoms_prefix 3 atoms))) as [e f].
  unfold PCP.calculate. rewrite HP. reflexivity.
Qed.

(** X26. With a width of the switching shell that is not zero: after
    [embed], and until [set_positions] is called on the handle,
    [calculate] on a valid snapshot raises TypeError; once
    positions are supplied it returns, and a second [calculate] right
    after raises TypeError again: positions supplied once serve one
    evaluation. *)
Theorem embedded_positions_serve_once (env : Env) (self : ACN)
    (charges : list R) (P : list vec3) (atoms : Atoms) :
  width self <> 0 ->
  valid_snapshot atoms ->
  Calc.calculate env (Calc.embed self charges) atoms = Raise TypeError /\
  exists self',
    Calc.calculate env
      (handle_set_positions (Calc.embed self charges) P) atoms = Ok self' /\
    Calc.calculate env self' atoms = Raise TypeError /\
    exists self'',
      Calc.calculate env (handle_set_positions self' P) atoms = Ok self''.
Proof.
  intros _ Hv. split.
  - apply (@attached_without_positions env (Calc.embed self charges) atoms
             (PCP.init charges)); [reflexivity | reflexivity | exact Hv].
  - destruct (@attached_potential_cleared env
                (handle_set_positions (Calc.embed self charges) P) atoms
                (PCP.set_positions (PCP.init charges) P) P
                eq_refl eq_refl Hv)
      as (s1 & pc1 & H1 & H2 & H3 & H4).
    exists s1. split; [exact H1|]. split.
    + apply (@attached_without_positions env s1 atoms pc1 H2 H3 Hv).
    + destruct (@attached_potential_cleared env
                  (handle_set_positions s1 P) atoms
                  (PCP.set_positions pc1 P) P) as (s2 & _ & H5 & _).
      * unfold handle_set_positions. cbn [pcpot]. rewrite H2. reflexivity.
      * reflexivity.
      * exact Hv.
      * exists s2. exact H5.
Qed.

Lemma embedded_positions_serve_once_witness :
  Calc.calculate ase_env (Calc.embed (Calc.init 5 1) [1; -1]) uncharged_pair
  = Raise TypeError.
Proof.
  apply (@embedded_positions_serve_once ase_env (Calc.init 5 1) [1; -1]
           [V3 0 0 9; V3 0 9 0] uncharged_pair (@unit_width 5)
           uncharged_pair_valid).
Defined.

(** X27. [check_state] adds 'positions' to the changes reported by the
    base class exactly while an attached potential holds positions: not
    without a potential, not right after [embed], always after
    [set_positions] on the handle, and no longer after the [calculate]
    that follows, which returns on a valid snapshot when the width of the
    switching shell is not zero. *)
Theorem check_state_positions (env : Env) (self : ACN) (charges : list R)
    (P : list vec3) (atoms : Atoms) (system_changes : list string) :
  width self <> 0 ->
  valid_snapshot atoms ->
  (pcpot self = None -> Calc.check_state self system_changes = system_changes) /\
  Calc.check_state (Calc.embed self charges) system_changes = system_changes /\
  Calc.check_state (handle_set_positions (Calc.embed self charges) P)
    system_changes
  = system_changes ++ ["positions"%string] /\
  exists self',
    Calc.calculate env
      (handle_set_positions (Calc.embed self charges) P) atoms = Ok self' /\
    Calc.check_state self' system_changes = system_changes.
Proof.
  intros _ Hv. split; [|split; [|split]].
  - intros H. unfold Calc.check_state. rewrite H. reflexivity.
  - reflexivity.
  - reflexivity.
  - destruct (@attached_potential_cleared env
                (handle_set_positions (Calc.embed self charges) P) atoms
                (PCP.set_positions (PCP.init charges) P) P
                eq_refl eq_refl Hv)
      as (s1 & pc1 & H1 & H2 & H3 & H4).
    exists s1. split; [exact H1|].
    unfold Calc.check_state. rewrite H2, H3. reflexivity.
Qed.

Lemma check_state_positions_witness :
  Calc.check_state
    (handle_set_positions (Calc.embed (Calc.init 5 1) [1; -1])
       [V3 0 0 9; V3 0 9 0]) ["numbers"%string]
  = ["numbers"%string; "positions"%string].
Proof.
  apply (@check_state_positions ase_env (Calc.init 5 1) [1; -1]
           [V3 0 0 9; V3 0 9 0] uncharged_pair ["numbers"%string]
           (@unit_width 5) uncharged_pair_valid).
Defined.
